(** * Distribution of agents over a (market resources, permanent income) grid

    A shallow embedding of the class [IndShockConsumerType_extend] of the
    notebook [IndShockConsumerType_extend-Example.ipynb]:
    [DefineDistributionGrid], [JumpToGrid], [CalcTransitionMatrix] and
    [CalcErgodicDist].

    Numbers.  The notebook computes with IEEE doubles; here a float is an
    exact rational ([Q], compared with [==]), so every statement below is
    about the algorithm in exact arithmetic and says nothing about rounding.
    Integers (array indices, [cycles]) are [Z]; a numpy 1-d array is a
    [list], a 2-d array a list of rows.

    Division.  [x / y] is the exact quotient, which Rocq makes total with
    [x / 0 == 0], where numpy stores [inf] or [nan].  [JumpToGrid] divides
    only by the width of a bracket [grid[k] <= v < grid[k+1]], which is
    positive; [CalcTransitionMatrix] divides by the permanent shocks, which
    the theorems take positive; [CalcErgodicDist] divides by a sum that can
    be zero, and there the zero divisor is modelled ([np_divide]).

    Failure.  A Python call either returns a value or raises; this is the
    type [result], threaded with the usual bind. *)

From Stdlib Require Import String.
From Stdlib Require Import QArith ZArith List Bool Lia Lqa.
Import ListNotations.
Open Scope Q_scope.

(** ** Python values that can fail *)

Inductive exn : Set :=
| IndexError
| ValueError
| ZeroDivisionError
| ArpackNoConvergence.

Inductive result (A : Type) : Type :=
| Ok (a : A)
| Raise (e : exn).

Arguments Ok {A} a.
Arguments Raise {A} e.

Definition bind {A B : Type} (r : result A) (k : A -> result B) : result B :=
  match r with
  | Ok a => k a
  | Raise e => Raise e
  end.

Notation "x <- r ;; k" := (bind r (fun x => k))
  (at level 61, r at next level, right associativity).

(** [for i in ixs: s = body(i, s)], stopping at the first exception. *)
Fixpoint for_each {S : Type} (body : nat -> S -> result S)
    (ixs : list nat) (s : S) : result S :=
  match ixs with
  | [] => Ok s
  | i :: rest => s' <- body i s ;; for_each body rest s'
  end.

(** [range(n)] *)
Definition range (n : nat) : list nat := seq 0 n.

(** *** Indexing

    [a[i]] for a sequence of length [n]: [0 <= i < n] counts from the
    front, [-n <= i < 0] from the back, anything else is an [IndexError]. *)
Definition py_index (n : nat) (i : Z) : result nat :=
  let n' := Z.of_nat n in
  if ((0 <=? i) && (i <? n'))%Z then Ok (Z.to_nat i)
  else if ((- n' <=? i) && (i <? 0))%Z then Ok (Z.to_nat (n' + i))
  else Raise IndexError.

Definition py_get {A : Type} (d : A) (a : list A) (i : Z) : result A :=
  k <- py_index (length a) i ;; Ok (nth k a d).

Definition getQ : list Q -> Z -> result Q := py_get 0.
Definition getZ : list Z -> Z -> result Z := py_get 0%Z.

(** [a] with position [k] replaced by [x] ([a] unchanged when [k] is out of
    range; callers resolve [k] with [py_index] first). *)
Fixpoint set_nth {A : Type} (a : list A) (k : nat) (x : A) : list A :=
  match a, k with
  | [], _ => []
  | _ :: t, O => x :: t
  | h :: t, S k' => h :: set_nth t k' x
  end.

(** ** The numpy operations the class uses *)

Module np.

(** [np.zeros((r, c))] *)
Definition zeros (r c : nat) : list (list Q) := repeat (repeat 0 c) r.

(** [np.ones_like(a)] *)
Definition ones_like (a : list Q) : list Q := map (fun _ => 1) a.

(** [a.flatten()] of a 2-d array (row major). *)
Definition flatten (g : list (list Q)) : list Q := concat g.

(** [np.sum(a)] *)
Definition sum (a : list Q) : Q := fold_right Qplus 0 a.

(** Elementwise binary operation with numpy's broadcasting rule for 1-d
    operands: equal lengths pair up, a length-1 operand is stretched,
    any other combination is a [ValueError]. *)
Fixpoint zip_with (f : Q -> Q -> Q) (a b : list Q) : list Q :=
  match a, b with
  | x :: a', y :: b' => f x y :: zip_with f a' b'
  | _, _ => []
  end.

Definition broadcast (f : Q -> Q -> Q) (a b : list Q) : result (list Q) :=
  if (length a =? length b)%nat then Ok (zip_with f a b)
  else match a, b with
       | [x], _ => Ok (map (f x) b)
       | _, [y] => Ok (map (fun x => f x y) a)
       | _, _ => Raise ValueError
       end.

Definition add : list Q -> list Q -> result (list Q) := broadcast Qplus.

(** Monotonicity test of [np.digitize] on its bins: [1] for
    non-decreasing bins (this includes empty and constant ones), [-1]
    for non-increasing ones, [0] otherwise. *)
Fixpoint nondecreasing (a : list Q) : bool :=
  match a with
  | x :: (y :: _) as t => Qle_bool x y && nondecreasing t
  | _ => true
  end.

Fixpoint nonincreasing (a : list Q) : bool :=
  match a with
  | x :: (y :: _) as t => Qle_bool y x && nonincreasing t
  | _ => true
  end.

(** [np.searchsorted(a, v, side='right')] for sorted [a]: the position
    [k] with [a[k-1] <= v < a[k]]. *)
Fixpoint searchsorted_right (a : list Q) (v : Q) : nat :=
  match a with
  | [] => O
  | b :: a' => if Qle_bool b v then S (searchsorted_right a' v) else O
  end.

(** [np.digitize(x, bins)] with the default [right=False]. *)
Definition digitize (x bins : list Q) : result (list Z) :=
  if nondecreasing bins then
    Ok (map (fun v => Z.of_nat (searchsorted_right bins v)) x)
  else if nonincreasing bins then
    Ok (map (fun v => (Z.of_nat (length bins)
                       - Z.of_nat (searchsorted_right (rev bins) v))%Z) x)
  else Raise ValueError.

(** [idx[mask] = v] for a boolean mask of the same length. *)
Fixpoint mask_assign (idx : list Z) (mask : list bool) (v : Z) : list Z :=
  match idx, mask with
  | i :: idx', b :: mask' => (if b then v else i) :: mask_assign idx' mask' v
  | _, _ => idx
  end.

(** [M[:, k] = col] for a matrix with [ncols] columns. *)
Definition set_col (ncols : nat) (M : list (list Q)) (k : Z) (col : list Q)
  : result (list (list Q)) :=
  k' <- py_index ncols k ;;
  if (length col =? length M)%nat then
    Ok (map (fun rc => set_nth (fst rc) k' (snd rc)) (combine M col))
  else match col with
       | [x] => Ok (map (fun row => set_nth row k' x) M)
       | _ => Raise ValueError
       end.

(** [M[:, k]] *)
Definition get_col (M : list (list Q)) (k : nat) : list Q :=
  map (fun row => nth k row 0) M.

(** [M @ v] *)
Definition dot (a b : list Q) : Q := sum (zip_with Qmult a b).
Definition matvec (M : list (list Q)) (v : list Q) : list Q :=
  map (fun row => dot row v) M.

End np.

(** ** The grid projector and the transition matrix *)

Section Distribution.

(** [self.Dist_mGrid], [self.Dist_pGrid] *)
Variables Dist_mGrid Dist_pGrid : list Q.

(** The index computation of [JumpToGrid], which the source writes out
    once for [m_vals] against [Dist_mGrid] and once for [perm_vals]
    against [Dist_pGrid]:
<<
    mIndex = np.digitize(m_vals,self.Dist_mGrid) - 1
    mIndex[m_vals <= self.Dist_mGrid[0]] = -1
    mIndex[m_vals >= self.Dist_mGrid[-1]] = len(self.Dist_mGrid)-1
>> *)
Definition grid_index (vals grid : list Q) : result (list Z) :=
  d <- np.digitize vals grid ;;
  let idx := map (fun k => (k - 1)%Z) d in
  g0 <- getQ grid 0 ;;
  let idx := np.mask_assign idx (map (fun v => Qle_bool v g0) vals) (-1) in
  gl <- getQ grid (-1) ;;
  let idx := np.mask_assign idx (map (fun v => Qle_bool gl v) vals)
               (Z.of_nat (length grid) - 1) in
  Ok idx.

(** The four local variables that the [if]/[elif]/[else] of the loop body
    sets for one dimension. *)
Record bracket : Type := mkBracket {
  lowerIndex : Z;
  upperIndex : Z;
  lowerWeight : Q;
  upperWeight : Q
}.

(** One [if Index[i]==-1: ... elif Index[i]==len(grid)-1: ... else: ...]
    block (again written twice in the source, for [m] and for [p]). *)
Definition split_weights (grid : list Q) (Index : list Z) (vals : list Q)
    (i : Z) : result bracket :=
  k <- getZ Index i ;;
  if (k =? -1)%Z then Ok (mkBracket 0 0 1 0)
  else if (k =? Z.of_nat (length grid) - 1)%Z then Ok (mkBracket (-1) (-1) 1 0)
  else
    let lower := k in
    let upper := (k + 1)%Z in
    gu <- getQ grid upper ;;
    v <- getQ vals i ;;
    gl <- getQ grid lower ;;
    let w := (gu - v) / (gu - gl) in
    Ok (mkBracket lower upper w (1 - w)).

(** [probGrid[a][b] = probGrid[a][b] + x] *)
Definition grid_add (probGrid : list (list Q)) (a b : Z) (x : Q)
  : result (list (list Q)) :=
  a' <- py_index (length probGrid) a ;;
  let row := nth a' probGrid [] in
  b' <- py_index (length row) b ;;
  Ok (set_nth probGrid a' (set_nth row b' (nth b' row 0 + x))).

(** The body of [for i in range(len(m_vals))]. *)
Definition JumpToGrid_body (mIndex pIndex : list Z)
    (m_vals perm_vals probs : list Q) (i : nat) (probGrid : list (list Q))
  : result (list (list Q)) :=
  let i := Z.of_nat i in
  m <- split_weights Dist_mGrid mIndex m_vals i ;;
  p <- split_weights Dist_pGrid pIndex perm_vals i ;;
  pr <- getQ probs i ;;
  g <- grid_add probGrid (lowerIndex m) (lowerIndex p)
         (pr * lowerWeight m * lowerWeight p) ;;
  g <- grid_add g (lowerIndex m) (upperIndex p)
         (pr * lowerWeight m * upperWeight p) ;;
  g <- grid_add g (upperIndex m) (lowerIndex p)
         (pr * upperWeight m * lowerWeight p) ;;
  grid_add g (upperIndex m) (upperIndex p)
         (pr * upperWeight m * upperWeight p).

(** [JumpToGrid(self, m_vals, perm_vals, probs)] *)
Definition JumpToGrid (m_vals perm_vals probs : list Q) : result (list Q) :=
  let probGrid := np.zeros (length Dist_mGrid) (length Dist_pGrid) in
  mIndex <- grid_index m_vals Dist_mGrid ;;
  pIndex <- grid_index perm_vals Dist_pGrid ;;
  g <- for_each (JumpToGrid_body mIndex pIndex m_vals perm_vals probs)
         (range (length m_vals)) probGrid ;;
  Ok (np.flatten g).

(** *** [CalcTransitionMatrix]

    What the method reads from [self]: the consumption function
    [self.solution[0].cFunc], [self.Rfree], [self.LivPrb[0]] and the
    joint income shock distribution [self.IncShkDstn[0]] ([pmf], [X[0]]
    permanent shocks, [X[1]] transitory shocks). *)
Variable cFunc : Q -> Q.
Variable Rfree : Q.
Variable LivPrb : Q.
Variables ShockProbs PermShocks TranShocks : list Q.

(** What the method stores on [self]. *)
Record transition : Type := mkTransition {
  aNext : list Q;
  Cnow : list Q;
  TranMatrix : list (list Q)
}.

(** The statement in the inner loop: compute the column of cell [(i,j)]
    and store it at [TranMatrix[:, i*len(Dist_pGrid)+j]]. *)
Definition CalcTransitionMatrix_body (bNext NewBornDist : list Q)
    (i j : nat) (TranMatrix : list (list Q)) : result (list (list Q)) :=
  let ncells := (length Dist_mGrid * length Dist_pGrid)%nat in
  b <- getQ bNext (Z.of_nat i) ;;
  mNext_ij <- np.add (map (fun psi => b / psi) PermShocks) TranShocks ;;
  pj <- getQ Dist_pGrid (Z.of_nat j) ;;
  let pNext_ij := map (fun psi => pj * psi) PermShocks in
  survive <- JumpToGrid mNext_ij pNext_ij ShockProbs ;;
  col <- np.add (map (Qmult LivPrb) survive)
                (map (Qmult (1 - LivPrb)) NewBornDist) ;;
  np.set_col ncells TranMatrix
    (Z.of_nat i * Z.of_nat (length Dist_pGrid) + Z.of_nat j) col.

Definition CalcTransitionMatrix : result transition :=
  let aNext := map (fun m => m - cFunc m) Dist_mGrid in
  let Cnow := map cFunc Dist_mGrid in
  let bNext := map (Qmult Rfree) aNext in
  NewBornDist <- JumpToGrid TranShocks (np.ones_like TranShocks) ShockProbs ;;
  let ncells := (length Dist_mGrid * length Dist_pGrid)%nat in
  let TranMatrix := np.zeros ncells ncells in
  T <- for_each
         (fun i T =>
            for_each (CalcTransitionMatrix_body bNext NewBornDist i)
              (range (length Dist_pGrid)) T)
         (range (length Dist_mGrid)) TranMatrix ;;
  Ok (mkTransition aNext Cnow T).

End Distribution.

(** ** The stationary distribution *)

(** A complex number as (real part, imaginary part). *)
Definition complex : Type := (Q * Q)%type.

(** An entry of the normalised vector.  [x / 0.0] on float64 arrays does
    not raise: numpy warns and stores [inf], [-inf] or [nan], all of which
    are [NonFinite] here. *)
Inductive npfloat : Type :=
| Finite (q : Q)
| NonFinite.

Definition np_divide (x y : Q) : npfloat :=
  if Qeq_bool y 0 then NonFinite else Finite (x / y).

(** [a.reshape((r, c))] *)
Fixpoint chunks {A : Type} (c : nat) (a : list A) (r : nat) : list (list A) :=
  match r with
  | O => []
  | S r' => firstn c a :: chunks c (skipn c a) r'
  end.

Definition reshape {A : Type} (a : list A) (r c : nat) : result (list (list A)) :=
  if (length a =? r * c)%nat then Ok (chunks c a r) else Raise ValueError.

Section Ergodic.

(** [sp.linalg.eigs(M, k=1, which='LM')] of scipy (ARPACK): on success
    one eigenvalue and its eigenvector, both complex; it may raise.  The
    solver is not part of the class, so it is a parameter here. *)
Variable eigs : list (list Q) -> result (complex * list complex).

(** What the method stores on [self]. *)
Record ergodic : Type := mkErgodic {
  vec_dstn : list npfloat;
  ergodic_distr : list (list npfloat)
}.

(** [CalcErgodicDist(self)], reading [self.TranMatrix] and the lengths of
    the two grids. *)
Definition CalcErgodicDist (TranMatrix : list (list Q)) (len_mGrid len_pGrid : nat)
  : result ergodic :=
  ev <- eigs TranMatrix ;;
  let real := map fst (snd ev) in
  let ergodic_distr := map (fun x => np_divide x (np.sum real)) real in
  reshaped <- reshape ergodic_distr len_mGrid len_pGrid ;;
  Ok (mkErgodic ergodic_distr reshaped).

End Ergodic.

(** ** Defining the grid *)

Module Grid.

(** The values an argument of [DefineDistributionGrid] can take. *)
Inductive pyval : Type :=
| PyNone
| NdArray (a : list Q)
| PyList (a : list Q).

(** The value of [x == None]: numpy compares an array elementwise. *)
Inductive comparison : Type :=
| PyBool (b : bool)
| BoolArray (a : list bool).

Definition eq_None (x : pyval) : comparison :=
  match x with
  | PyNone => PyBool true
  | NdArray a => BoolArray (map (fun _ => false) a)
  | PyList _ => PyBool false
  end.

(** The truth value that [if] asks for: an array of two or more booleans
    has none ([ValueError: The truth value of an array with more than one
    element is ambiguous]). *)
Definition truth (c : comparison) : result bool :=
  match c with
  | PyBool b => Ok b
  | BoolArray [] => Ok false
  | BoolArray [b] => Ok b
  | BoolArray _ => Raise ValueError
  end.

(** The attributes of [self] that the method reads or writes, and the
    lines printed so far. *)
Record agent : Type := mkAgent {
  cycles : Z;
  aXtraGrid : list Q;
  Dist_mGrid : option pyval;
  Dist_pGrid : option pyval;
  stdout : list string
}.

Definition print (self : agent) (line : string) : agent :=
  mkAgent (cycles self) (aXtraGrid self) (Dist_mGrid self) (Dist_pGrid self)
          (stdout self ++ [line]).

Definition set_Dist_mGrid (self : agent) (v : pyval) : agent :=
  mkAgent (cycles self) (aXtraGrid self) (Some v) (Dist_pGrid self)
          (stdout self).

Definition set_Dist_pGrid (self : agent) (v : pyval) : agent :=
  mkAgent (cycles self) (aXtraGrid self) (Dist_mGrid self) (Some v)
          (stdout self).

Definition message : string :=
  "Distributional methods presently only work for perpetual youth agents (cycles=0)".

(** A numpy array with two or more entries. *)
Definition long_array (x : pyval) : bool :=
  match x with
  | NdArray (_ :: _ :: _) => true
  | _ => false
  end.

(** The grid that is stored for an argument that is accepted: the
    default for [None], the argument itself otherwise. *)
Definition adopted (default : list Q) (x : pyval) : pyval :=
  match x with
  | PyNone => NdArray default
  | _ => x
  end.

Section Define.

(** The grid that the branch [Dist_pGrid == None] builds from
    [self.PermShkStd[0]] and [self.LivPrb[0]] with [make_grid_exp_mult]
    (HARK), [np.exp], [np.fliplr] and [np.append]; the computation can
    raise (a [ZeroDivisionError] for [LivPrb[0] == 1]).  None of the
    properties below depends on its value. *)
Variable ergodic_pGrid : agent -> result (list Q).

(** [DefineDistributionGrid(self, Dist_mGrid, Dist_pGrid)]: the state of
    [self] when the call ends, and how it ends. *)
Definition DefineDistributionGrid (self : agent) (mGrid pGrid : pyval)
  : agent * result unit :=
  if negb (cycles self =? 0)%Z then (print self message, Ok tt)
  else
    match truth (eq_None mGrid) with
    | Raise e => (self, Raise e)
    | Ok isNone =>
      let self :=
        set_Dist_mGrid self
          (if isNone then NdArray (aXtraGrid self) else mGrid) in
      match truth (eq_None pGrid) with
      | Raise e => (self, Raise e)
      | Ok true =>
        match ergodic_pGrid self with
        | Raise e => (self, Raise e)
        | Ok grid => (set_Dist_pGrid self (NdArray grid), Ok tt)
        end
      | Ok false => (set_Dist_pGrid self pGrid, Ok tt)
      end
    end.

End Define.

End Grid.

(** ** The default permanent-income grid *)

(** The last line of the branch [Dist_pGrid == None]:
<<
self.Dist_pGrid = np.append(np.append(1.0/np.fliplr([one_sided_grid])[0],
                                      np.ones(1)), one_sided_grid)
>>
    [one_sided_grid] comes from [make_grid_exp_mult] (HARK) and is an
    argument here. *)
Definition mirrored_grid (one_sided_grid : list Q) : list Q :=
  (map (fun x => 1 / x) (rev one_sided_grid) ++ [1]) ++ one_sided_grid.

(** ** Aggregate consumption and assets

    The cell of the notebook that follows [CalcErgodicDist]:
<<
gridc = np.zeros((len(c),len(p)))
grida = np.zeros((len(asset),len(p)))
for j in range(len(p)):
    gridc[:,j] = p[j]*c
    grida[:,j] = p[j]*asset
AggC = np.dot(gridc.flatten(),vecDstn)
AggA = np.dot(grida.flatten() ,vecDstn)
>> *)

(** The entries of a vector when all of them are finite. *)
Fixpoint finite_part (v : list npfloat) : option (list Q) :=
  match v with
  | [] => Some []
  | Finite q :: v' =>
    match finite_part v' with
    | Some qs => Some (q :: qs)
    | None => None
    end
  | NonFinite :: _ => None
  end.

(** The value of [np.dot(a, b)] for operands of one length: a single [inf]
    or [nan] in [b] makes the sum [inf] or [nan]. *)
Definition np_dotf (a : list Q) (b : list npfloat) : npfloat :=
  match finite_part b with
  | Some qs => Finite (np.dot a qs)
  | None => NonFinite
  end.

(** [np.dot(a, b)]: operands of different lengths are a [ValueError]. *)
Definition np_dot (a : list Q) (b : list npfloat) : result npfloat :=
  if (length a =? length b)%nat then Ok (np_dotf a b) else Raise ValueError.

Record aggregates : Type := mkAggregates {
  AggC : npfloat;
  AggA : npfloat
}.

(** The body of [for j in range(len(p))], on the pair [(gridc, grida)]. *)
Definition aggregate_body (p c asset : list Q) (j : nat)
    (grids : list (list Q) * list (list Q))
  : result (list (list Q) * list (list Q)) :=
  pj <- getQ p (Z.of_nat j) ;;
  gridc <- np.set_col (length p) (fst grids) (Z.of_nat j) (map (Qmult pj) c) ;;
  pj <- getQ p (Z.of_nat j) ;;
  grida <- np.set_col (length p) (snd grids) (Z.of_nat j) (map (Qmult pj) asset) ;;
  Ok (gridc, grida).

Definition aggregate (vecDstn : list npfloat) (p c asset : list Q)
  : result aggregates :=
  let gridc := np.zeros (length c) (length p) in
  let grida := np.zeros (length asset) (length p) in
  grids <- for_each (aggregate_body p c asset) (range (length p)) (gridc, grida) ;;
  AggC <- np_dot (np.flatten (fst grids)) vecDstn ;;
  AggA <- np_dot (np.flatten (snd grids)) vecDstn ;;
  Ok (mkAggregates AggC AggA).


(** ** Vocabulary of the statements *)

(** A weighted sum over the cells of a 2-d array: cell [(i,j)] counts with
    weight [w i j].  With [w] constant [1] this is the total mass, with [w]
    the indicator of one cell it is that cell, with [w i j] the grid value
    of row [i] (column [j]) it is the first moment in that dimension. *)
Fixpoint rsum (w : nat -> Q) (row : list Q) : Q :=
  match row with
  | [] => 0
  | x :: r => x * w O + rsum (fun j => w (S j)) r
  end.

Fixpoint wsum (w : nat -> nat -> Q) (g : list (list Q)) : Q :=
  match g with
  | [] => 0
  | row :: g' => rsum (w O) row + wsum (fun i => w (S i)) g'
  end.

(** A 2-d array with [r] rows and [c] columns. *)
Definition rect (r c : nat) (g : list (list Q)) : Prop :=
  length g = r /\ Forall (fun row => length row = c) g.

(** Entry [(i,j)] of a 2-d array. *)
Definition cell (g : list (list Q)) (i j : nat) : Q := nth j (nth i g []) 0.

(** Indicator of one index, of one cell. *)
Definition ind (a i : nat) : Q := if (i =? a)%nat then 1 else 0.
Definition ind2 (a b i j : nat) : Q := ind a i * ind b j.

(** Strictly increasing sequence (the invariant of a grid). *)
Fixpoint increasing (a : list Q) : bool :=
  match a with
  | x :: (y :: _) as t => negb (Qle_bool y x) && increasing t
  | _ => true
  end.

(** The index [JumpToGrid] computes for one value: the scalar reading of
    [grid_index]. *)
Definition cell_index (grid : list Q) (v : Q) : Z :=
  if Qle_bool (last grid 0) v then (Z.of_nat (length grid) - 1)%Z
  else if Qle_bool v (hd 0 grid) then (-1)%Z
  else (Z.of_nat (np.searchsorted_right grid v) - 1)%Z.

(** The two grid positions (resolved to positions from the front) and the
    two weights that one dimension of a sample gets: the scalar reading of
    [split_weights]. *)
Definition lo_of (grid : list Q) (v : Q) : nat :=
  if Qle_bool (last grid 0) v then (length grid - 1)%nat
  else if Qle_bool v (hd 0 grid) then O
  else (np.searchsorted_right grid v - 1)%nat.

Definition up_of (grid : list Q) (v : Q) : nat :=
  if Qle_bool (last grid 0) v then (length grid - 1)%nat
  else if Qle_bool v (hd 0 grid) then O
  else np.searchsorted_right grid v.

Definition lw_of (grid : list Q) (v : Q) : Q :=
  if Qle_bool (last grid 0) v then 1
  else if Qle_bool v (hd 0 grid) then 1
  else let k := np.searchsorted_right grid v in
       (nth k grid 0 - v) / (nth k grid 0 - nth (k - 1) grid 0).

Definition uw_of (grid : list Q) (v : Q) : Q :=
  if Qle_bool (last grid 0) v then 0
  else if Qle_bool v (hd 0 grid) then 0
  else 1 - lw_of grid v.

(** What sample [k] adds to the weighted sum [wsum w]. *)
Definition contrib (mGrid pGrid m_vals perm_vals probs : list Q)
    (w : nat -> nat -> Q) (k : nat) : Q :=
  let m := nth k m_vals 0 in
  let p := nth k perm_vals 0 in
  nth k probs 0 *
  (lw_of mGrid m * lw_of pGrid p * w (lo_of mGrid m) (lo_of pGrid p)
   + lw_of mGrid m * uw_of pGrid p * w (lo_of mGrid m) (up_of pGrid p)
   + uw_of mGrid m * lw_of pGrid p * w (up_of mGrid m) (lo_of pGrid p)
   + uw_of mGrid m * uw_of pGrid p * w (up_of mGrid m) (up_of pGrid p)).

(** The weight that one dimension of a sample with value [v] puts on grid
    position [i]. *)
Definition weight_at (grid : list Q) (v : Q) (i : nat) : Q :=
  lw_of grid v * ind i (lo_of grid v) + uw_of grid v * ind i (up_of grid v).

(** The grid value of each cell in the order of the flattened array:
    dimension 1 major, dimension 2 minor. *)
Definition cell_m (mGrid pGrid : list Q) : list Q :=
  flat_map (fun m => map (fun _ => m) pGrid) mGrid.
Definition cell_p (mGrid pGrid : list Q) : list Q :=
  flat_map (fun _ => pGrid) mGrid.

(** The invariant of a StateGrid: both grids are strictly increasing and
    have at least two points. *)
Definition StateGrid (mGrid pGrid : list Q) : Prop :=
  increasing mGrid = true /\ increasing pGrid = true /\
  (2 <= length mGrid)%nat /\ (2 <= length pGrid)%nat.

(** A value inside the bounds of a grid. *)
Definition within (grid : list Q) (v : Q) : Prop :=
  hd 0 grid <= v <= last grid 0.

(** The mean of [vals] under the masses [probs]. *)
Definition weighted_mean (probs vals : list Q) : Q :=
  np.dot probs vals / np.sum probs.

(** The samples that [CalcTransitionMatrix] projects for the cell [(i,j)]:
    next-period market resources [R*(m_i - cFunc(m_i))/psi_k + xi_k] and
    next-period permanent income [pGrid[j]*psi_k], one per shock [k]. *)
Definition mNext (mGrid : list Q) (cFunc : Q -> Q) (Rfree : Q)
    (PermShocks TranShocks : list Q) (i : nat) : list Q :=
  np.zip_with
    (fun psi xi => Rfree * (nth i mGrid 0 - cFunc (nth i mGrid 0)) / psi + xi)
    PermShocks TranShocks.

Definition pNext (pGrid PermShocks : list Q) (j : nat) : list Q :=
  map (fun psi => nth j pGrid 0 * psi) PermShocks.

(** [s * survive + (1 - s) * newborn], entry by entry. *)
Definition blend (s : Q) (survive newborn : list Q) : list Q :=
  np.zip_with (fun d n => s * d + (1 - s) * n) survive newborn.

(** A shock distribution as the shock provider hands it over: one
    probability per joint outcome, and permanent multipliers that are
    positive (so that the division by them is an ordinary one). *)
Definition ShockDistribution (ShockProbs PermShocks TranShocks : list Q) : Prop :=
  length PermShocks = length ShockProbs /\
  length TranShocks = length ShockProbs /\
  Forall (fun psi => 0 < psi) PermShocks.

(** *** Eigenpairs of a real matrix *)

(** Two vectors with the same entries. *)
Definition vec_eq (a b : list Q) : Prop :=
  length a = length b /\ forall k, nth k a 0 == nth k b 0.

Definition re (v : list complex) : list Q := map fst v.
Definition im (v : list complex) : list Q := map snd v.

(** [M v = lambda v] for a real matrix [M], a complex number [lambda] and a
    complex vector [v], split into real and imaginary parts. *)
Definition eigenpair (M : list (list Q)) (lambda : complex) (v : list complex)
  : Prop :=
  length v = length M /\
  (forall k, nth k (np.matvec M (re v)) 0
             == fst lambda * nth k (re v) 0 - snd lambda * nth k (im v) 0) /\
  (forall k, nth k (np.matvec M (im v)) 0
             == fst lambda * nth k (im v) 0 + snd lambda * nth k (re v) 0).

(** Squared modulus. *)
Definition cnorm2 (z : complex) : Q := fst z * fst z + snd z * snd z.

(** [lambda] has the largest magnitude among the eigenvalues of [M]: the
    selection [which='LM'] of [sp.linalg.eigs]. *)
Definition largest_magnitude (M : list (list Q)) (lambda : complex) : Prop :=
  forall mu w, eigenpair M mu w -> (exists k, 0 < cnorm2 (nth k w (0, 0))) ->
               cnorm2 mu <= cnorm2 lambda.

(** A square matrix of size [n] whose columns are probability
    distributions. *)
Definition column_stochastic (n : nat) (M : list (list Q)) : Prop :=
  rect n n M /\
  forall k, (k < n)%nat ->
    Forall (fun x => 0 <= x <= 1) (np.get_col M k) /\ np.sum (np.get_col M k) == 1.

(** [M x - lambda x] for real [lambda] and [x]: how far [x] is from being
    an eigenvector of [M] for [lambda]. *)
Definition residual (M : list (list Q)) (lambda : Q) (x : list Q) : list Q :=
  np.zip_with Qminus (np.matvec M x) (map (Qmult lambda) x).

(** *** Vocabulary of the further properties *)

(** [p[j]*c[i]] for every cell, row [i] by row [i]. *)
Definition outer (p c : list Q) : list (list Q) :=
  map (fun ci => map (fun pj => pj * ci) p) c.

(** A value moved onto the nearest bound of the grid when it lies outside. *)
Definition clamp (grid : list Q) (v : Q) : Q :=
  if Qle_bool (last grid 0) v then last grid 0
  else if Qle_bool v (hd 0 grid) then hd 0 grid
  else v.

(** A vector of the given length whose entries are non-negative and sum
    to 1. *)
Definition probability_vector (n : nat) (v : list Q) : Prop :=
  length v = n /\ Forall (fun x => 0 <= x) v /\ np.sum v == 1.

(** ** Running the model *)

(** [a[-1]] is the last entry, [a[len(a)]] does not exist. *)
Example py_get_example :
  getQ [3; 4; 5] (-1) = Ok 5 /\ getQ [3; 4; 5] 3 = Raise IndexError.
Proof. split; reflexivity. Qed.

(** [np.digitize([-1, 0, 0.5, 2, 7], [0, 1, 2])] is [[0, 1, 1, 3, 3]]. *)
Example digitize_example :
  np.digitize [-1; 0; 1 # 2; 2; 7] [0; 1; 2] = Ok [0; 1; 1; 3; 3]%Z.
Proof. reflexivity. Qed.

(** Three samples on a 3 by 2 grid: one inside a bracket of [m] and on the
    lower bound of [p], one above the [m] grid and inside the bracket of
    [p], one below the [m] grid and above the [p] grid. *)
Example JumpToGrid_example :
  match JumpToGrid [0; 1; 2] [1; 2] [1 # 2; 5 # 2; -1] [1; 3 # 2; 4]
                   [1 # 4; 1 # 2; 1 # 4] with
  | Ok out => map Qred out
  | Raise _ => []
  end = [1 # 8; 1 # 4; 1 # 8; 0; 1 # 4; 1 # 4].
Proof. vm_compute. reflexivity. Qed.

(** One permanent-income point, no mortality, the policy [c(m) = m/2] on
    the grid [[0, 5, 10]] and the single shock [(psi, xi) = (1, 5/2)]: from
    [m = 10] savings are 5 and [m' = 15/2] lies half way between 5 and 10,
    so the third column is [(0, 1/2, 1/2)]. *)
Example CalcTransitionMatrix_example :
  match CalcTransitionMatrix [0; 5; 10] [1] (fun m => m / 2) 1 1
                             [1] [1] [5 # 2] with
  | Ok tr => map Qred (np.get_col (TranMatrix tr) 2)
  | Raise _ => []
  end = [0; 1 # 2; 1 # 2].
Proof. vm_compute. reflexivity. Qed.

(** An empty grid has no first point. *)
Example JumpToGrid_empty_grid :
  JumpToGrid [] [1; 2] [1] [1] [1] = Raise IndexError.
Proof. reflexivity. Qed.

(** ** Lists, indices and arrays *)

Lemma py_index_nat (n k : nat) :
  (k < n)%nat -> py_index n (Z.of_nat k) = Ok k.
Proof.
  intros H. unfold py_index.
  replace ((0 <=? Z.of_nat k)%Z && (Z.of_nat k <? Z.of_nat n)%Z) with true.
  - now rewrite Nat2Z.id.
  - symmetry. apply andb_true_iff. split; [apply Z.leb_le | apply Z.ltb_lt]; lia.
Qed.

Lemma py_index_last (n : nat) :
  (0 < n)%nat -> py_index n (-1) = Ok (n - 1)%nat.
Proof.
  intros H. unfold py_index. simpl.
  replace ((-1 <? Z.of_nat n)%Z) with true by (symmetry; apply Z.ltb_lt; lia).
  replace ((- Z.of_nat n <=? -1)%Z) with true by (symmetry; apply Z.leb_le; lia).
  simpl. f_equal. lia.
Qed.

Lemma py_index_lt (n : nat) (i : Z) (k : nat) :
  py_index n i = Ok k -> (k < n)%nat.
Proof.
  unfold py_index.
  destruct ((0 <=? i)%Z && (i <? Z.of_nat n)%Z) eqn:E1.
  - apply andb_true_iff in E1 as [H1 H2].
    apply Z.leb_le in H1. apply Z.ltb_lt in H2. intros [= <-]. lia.
  - destruct ((- Z.of_nat n <=? i)%Z && (i <? 0)%Z) eqn:E2; [|discriminate].
    apply andb_true_iff in E2 as [H1 H2].
    apply Z.leb_le in H1. apply Z.ltb_lt in H2. intros [= <-]. lia.
Qed.

Lemma py_get_nat {A : Type} (d : A) (a : list A) (k : nat) :
  (k < length a)%nat -> py_get d a (Z.of_nat k) = Ok (nth k a d).
Proof.
  intros H. unfold py_get. now rewrite py_index_nat.
Qed.

Lemma nth_last {A : Type} (d : A) (a : list A) :
  nth (length a - 1) a d = last a d.
Proof.
  induction a as [|x [|y t] IH]; try reflexivity.
  simpl in IH |- *. now rewrite Nat.sub_0_r in IH.
Qed.

Lemma py_get_first (a : list Q) :
  a <> [] -> getQ a 0 = Ok (hd 0 a).
Proof.
  destruct a as [|x t]; [congruence | reflexivity].
Qed.

Lemma py_get_last (a : list Q) :
  a <> [] -> getQ a (-1) = Ok (last a 0).
Proof.
  intros H. unfold getQ, py_get.
  rewrite py_index_last by (destruct a; [congruence | simpl; lia]).
  simpl. now rewrite nth_last.
Qed.

Lemma set_nth_length {A : Type} (a : list A) (k : nat) (x : A) :
  length (set_nth a k x) = length a.
Proof.
  revert k; induction a as [|h t IH]; intros [|k]; simpl; auto.
Qed.

Lemma set_nth_same {A : Type} (a : list A) (k : nat) (x d : A) :
  (k < length a)%nat -> nth k (set_nth a k x) d = x.
Proof.
  revert k; induction a as [|h t IH]; intros [|k] H; simpl in *; try lia; auto.
  apply IH; lia.
Qed.

Lemma set_nth_other {A : Type} (a : list A) (k j : nat) (x d : A) :
  j <> k -> nth j (set_nth a k x) d = nth j a d.
Proof.
  revert k j; induction a as [|h t IH]; intros [|k] [|j] H; simpl; auto.
  congruence.
Qed.

(** ** Weighted sums under a cell update *)

Lemma rsum_set_nth (w : nat -> Q) (row : list Q) (b : nat) (x : Q) :
  (b < length row)%nat ->
  rsum w (set_nth row b (nth b row 0 + x)) == rsum w row + x * w b.
Proof.
  revert w b; induction row as [|h t IH]; intros w [|b] H; simpl in *; try lia.
  - ring.
  - rewrite IH by lia. ring.
Qed.

Lemma wsum_set_nth (w : nat -> nat -> Q) (g : list (list Q)) (a : nat)
    (row : list Q) (d : Q) :
  (a < length g)%nat ->
  rsum (w a) row == rsum (w a) (nth a g []) + d ->
  wsum w (set_nth g a row) == wsum w g + d.
Proof.
  revert w a; induction g as [|h t IH]; intros w [|a] H Hr; simpl in *; try lia.
  - rewrite Hr. ring.
  - rewrite (IH (fun i => w (S i)) a) by (try lia; exact Hr). ring.
Qed.

Lemma rect_nth (r c : nat) (g : list (list Q)) (a : nat) :
  rect r c g -> (a < r)%nat -> length (nth a g []) = c.
Proof.
  intros [Hl Hf] Ha. rewrite Forall_forall in Hf.
  apply Hf, nth_In. lia.
Qed.

Lemma rect_set_nth (r c : nat) (g : list (list Q)) (a : nat) (row : list Q) :
  rect r c g -> length row = c -> rect r c (set_nth g a row).
Proof.
  intros [Hl Hf] Hrow. split.
  - now rewrite set_nth_length.
  - clear Hl. revert a; induction Hf as [|h t Hh Ht IH]; intros [|a]; simpl;
      constructor; auto.
Qed.

Lemma rect_zeros (r c : nat) : rect r c (np.zeros r c).
Proof.
  unfold np.zeros. split.
  - apply repeat_length.
  - apply Forall_forall. intros row Hin.
    apply repeat_spec in Hin. subst. apply repeat_length.
Qed.

Lemma rsum_zeros (w : nat -> Q) (c : nat) : rsum w (repeat 0 c) == 0.
Proof.
  revert w; induction c as [|c IH]; intros w; simpl.
  - reflexivity.
  - rewrite IH. ring.
Qed.

Lemma wsum_zeros (w : nat -> nat -> Q) (r c : nat) : wsum w (np.zeros r c) == 0.
Proof.
  unfold np.zeros. revert w; induction r as [|r IH]; intros w; simpl.
  - reflexivity.
  - rewrite rsum_zeros, IH. ring.
Qed.

(** [probGrid[a][b] += x] succeeds on resolvable indices, keeps the shape
    and adds [x * w a b] to every weighted sum. *)
Lemma grid_add_spec (r c : nat) (g : list (list Q)) (a b : Z) (a' b' : nat) (x : Q) :
  rect r c g ->
  py_index r a = Ok a' -> py_index c b = Ok b' ->
  exists g', grid_add g a b x = Ok g' /\ rect r c g' /\
             forall w, wsum w g' == wsum w g + x * w a' b'.
Proof.
  intros Hg Ha Hb.
  pose proof (py_index_lt _ _ _ Ha) as Ha'.
  pose proof (py_index_lt _ _ _ Hb) as Hb'.
  pose proof (rect_nth _ _ _ _ Hg Ha') as Hrow.
  unfold grid_add. destruct Hg as [Hl Hf].
  rewrite Hl, Ha. simpl. rewrite Hrow, Hb. simpl.
  eexists; split; [reflexivity | split].
  - apply rect_set_nth; [split; assumption|].
    now rewrite set_nth_length.
  - intros w. apply wsum_set_nth; [lia|].
    apply rsum_set_nth. lia.
Qed.

(** ** The bracketing search *)

Lemma searchsorted_right_le (a : list Q) (v : Q) :
  (np.searchsorted_right a v <= length a)%nat.
Proof.
  induction a as [|b a IH]; simpl; [lia|].
  destruct (Qle_bool b v); simpl; lia.
Qed.

Lemma searchsorted_right_full (a : list Q) (v : Q) :
  a <> [] -> np.searchsorted_right a v = length a ->
  Qle_bool (last a 0) v = true.
Proof.
  induction a as [|b a IH]; [congruence|].
  intros _ H. simpl in H.
  destruct (Qle_bool b v) eqn:E; [|discriminate].
  injection H as H. destruct a as [|c a]; [exact E|].
  change (last (b :: c :: a) 0) with (last (c :: a) 0).
  apply IH; [discriminate | exact H].
Qed.

Lemma searchsorted_right_above (a : list Q) (v : Q) :
  (np.searchsorted_right a v < length a)%nat ->
  Qle_bool (nth (np.searchsorted_right a v) a 0) v = false.
Proof.
  induction a as [|b a IH]; simpl; [lia|].
  destruct (Qle_bool b v) eqn:E; simpl; intros H.
  - apply IH. lia.
  - exact E.
Qed.

Lemma searchsorted_right_below (a : list Q) (v : Q) :
  (0 < np.searchsorted_right a v)%nat ->
  Qle_bool (nth (np.searchsorted_right a v - 1) a 0) v = true.
Proof.
  induction a as [|b a IH]; simpl; [lia|].
  destruct (Qle_bool b v) eqn:E; simpl; intros H; [|lia].
  rewrite Nat.sub_0_r.
  destruct (np.searchsorted_right a v) as [|k] eqn:Ek; [exact E|].
  specialize (IH ltac:(lia)). simpl in IH. now rewrite Nat.sub_0_r in IH.
Qed.

Lemma searchsorted_right_pos (a : list Q) (v : Q) :
  a <> [] -> Qle_bool v (hd 0 a) = false -> (0 < np.searchsorted_right a v)%nat.
Proof.
  destruct a as [|b a]; [congruence|]. simpl. intros _ H.
  destruct (Qle_bool b v) eqn:E; [lia|].
  exfalso.
  assert (~ v <= b) by (intros C; apply Qle_bool_iff in C; congruence).
  assert (~ b <= v) by (intros C; apply Qle_bool_iff in C; congruence).
  lra.
Qed.

(** In the interior branch the sample lies in a proper bracket. *)
Lemma interior_bracket (grid : list Q) (v : Q) :
  grid <> [] ->
  Qle_bool (last grid 0) v = false ->
  Qle_bool v (hd 0 grid) = false ->
  let k := np.searchsorted_right grid v in
  (0 < k < length grid)%nat /\ nth (k - 1) grid 0 <= v /\ v < nth k grid 0.
Proof.
  intros Hne Hl Hh k.
  assert (Hpos : (0 < k)%nat) by (apply searchsorted_right_pos; assumption).
  assert (Hlt : (k < length grid)%nat).
  { pose proof (searchsorted_right_le grid v) as Hle. fold k in Hle.
    destruct (Nat.eq_dec k (length grid)) as [E|E]; [|lia].
    apply searchsorted_right_full in E; [congruence | assumption]. }
  split; [lia|]. split.
  - apply Qle_bool_iff. apply searchsorted_right_below. exact Hpos.
  - pose proof (searchsorted_right_above grid v Hlt) as H. fold k in H.
    apply Qnot_le_lt. intros C. apply Qle_bool_iff in C. congruence.
Qed.

(** ** What one dimension of one sample gets *)

Lemma lo_of_lt (grid : list Q) (v : Q) :
  grid <> [] -> (lo_of grid v < length grid)%nat.
Proof.
  intros Hne. unfold lo_of.
  assert (0 < length grid)%nat by (destruct grid; [congruence | simpl; lia]).
  destruct (Qle_bool (last grid 0) v) eqn:El; [lia|].
  destruct (Qle_bool v (hd 0 grid)) eqn:Eh; [lia|].
  pose proof (interior_bracket grid v Hne El Eh). simpl in *. lia.
Qed.

Lemma up_of_lt (grid : list Q) (v : Q) :
  grid <> [] -> (up_of grid v < length grid)%nat.
Proof.
  intros Hne. unfold up_of.
  assert (0 < length grid)%nat by (destruct grid; [congruence | simpl; lia]).
  destruct (Qle_bool (last grid 0) v) eqn:El; [lia|].
  destruct (Qle_bool v (hd 0 grid)) eqn:Eh; [lia|].
  pose proof (interior_bracket grid v Hne El Eh). simpl in *. lia.
Qed.

Lemma weights_sum (grid : list Q) (v : Q) :
  lw_of grid v + uw_of grid v == 1.
Proof.
  unfold uw_of, lw_of.
  destruct (Qle_bool (last grid 0) v); [ring|].
  destruct (Qle_bool v (hd 0 grid)); ring.
Qed.

Lemma interior_weight (gl gu v : Q) :
  gl <= v -> v < gu -> 0 <= (gu - v) / (gu - gl) <= 1.
Proof.
  intros H1 H2. split.
  - apply Qle_shift_div_l; lra.
  - apply Qle_shift_div_r; lra.
Qed.

Lemma lw_of_range (grid : list Q) (v : Q) :
  grid <> [] -> 0 <= lw_of grid v <= 1.
Proof.
  intros Hne. unfold lw_of.
  destruct (Qle_bool (last grid 0) v) eqn:El; [lra|].
  destruct (Qle_bool v (hd 0 grid)) eqn:Eh; [lra|].
  destruct (interior_bracket grid v Hne El Eh) as (_ & H1 & H2).
  cbv zeta. now apply interior_weight.
Qed.

Lemma uw_of_range (grid : list Q) (v : Q) :
  grid <> [] -> 0 <= uw_of grid v <= 1.
Proof.
  intros Hne. pose proof (lw_of_range grid v Hne).
  pose proof (weights_sum grid v). lra.
Qed.

(** Inside the grid bounds the two weighted grid values give back the
    sample: this is what keeps the mean. *)
Lemma weights_mean (grid : list Q) (v : Q) :
  grid <> [] -> hd 0 grid <= v -> v <= last grid 0 ->
  lw_of grid v * nth (lo_of grid v) grid 0
  + uw_of grid v * nth (up_of grid v) grid 0 == v.
Proof.
  intros Hne Hlo Hhi. unfold uw_of, lw_of, lo_of, up_of.
  destruct (Qle_bool (last grid 0) v) eqn:El.
  - apply Qle_bool_iff in El. rewrite nth_last. lra.
  - destruct (Qle_bool v (hd 0 grid)) eqn:Eh.
    + apply Qle_bool_iff in Eh.
      replace (nth 0 grid 0) with (hd 0 grid) by (destruct grid; reflexivity).
      lra.
    + destruct (interior_bracket grid v Hne El Eh) as (_ & H1 & H2).
      cbv zeta in *. field. lra.
Qed.

(** ** The vectorised index computation, entry by entry *)

Lemma mask_assign_map (f : Q -> Z) (c : Q -> bool) (z : Z) (vals : list Q) :
  np.mask_assign (map f vals) (map c vals) z
  = map (fun v => if c v then z else f v) vals.
Proof.
  induction vals as [|v t IH]; simpl; [reflexivity | now rewrite IH].
Qed.

Lemma increasing_nondecreasing (a : list Q) :
  increasing a = true -> np.nondecreasing a = true.
Proof.
  induction a as [|x [|y t] IH]; try reflexivity.
  intros H. cbn [increasing] in H. apply andb_true_iff in H as [H1 H2].
  cbn [np.nondecreasing]. apply andb_true_iff. split; [|apply IH; exact H2].
  apply Qle_bool_iff. apply negb_true_iff in H1.
  assert (~ y <= x) by (intros C; apply Qle_bool_iff in C; congruence). lra.
Qed.

Lemma grid_index_spec (vals grid : list Q) :
  grid <> [] -> np.nondecreasing grid = true ->
  grid_index vals grid = Ok (map (cell_index grid) vals).
Proof.
  intros Hne Hmono. unfold grid_index, np.digitize. rewrite Hmono. simpl.
  rewrite py_get_first by assumption. simpl.
  rewrite py_get_last by assumption. simpl.
  rewrite map_map, mask_assign_map, mask_assign_map.
  reflexivity.
Qed.

Lemma getZ_map (f : Q -> Z) (vals : list Q) (i : nat) :
  (i < length vals)%nat ->
  getZ (map f vals) (Z.of_nat i) = Ok (f (nth i vals 0)).
Proof.
  intros H. unfold getZ. rewrite py_get_nat by (now rewrite length_map).
  f_equal. rewrite (nth_indep _ 0%Z (f 0)) by (now rewrite length_map).
  apply map_nth.
Qed.

(** The [if]/[elif]/[else] block computes [lo_of], [up_of], [lw_of] and
    [uw_of] (indices up to Python's counting from the back). *)
Lemma split_weights_spec (grid vals : list Q) (i : nat) :
  grid <> [] -> (i < length vals)%nat ->
  let v := nth i vals 0 in
  exists s,
    split_weights grid (map (cell_index grid) vals) vals (Z.of_nat i) = Ok s /\
    py_index (length grid) (lowerIndex s) = Ok (lo_of grid v) /\
    py_index (length grid) (upperIndex s) = Ok (up_of grid v) /\
    lowerWeight s = lw_of grid v /\
    upperWeight s = uw_of grid v.
Proof.
  intros Hne Hi v.
  assert (Hlen : (0 < length grid)%nat) by (destruct grid; [congruence | simpl; lia]).
  unfold split_weights. rewrite getZ_map by assumption. fold v. simpl.
  unfold cell_index, lo_of, up_of, uw_of, lw_of.
  destruct (Qle_bool (last grid 0) v) eqn:El.
  - replace ((Z.of_nat (length grid) - 1 =? -1)%Z) with false
      by (symmetry; apply Z.eqb_neq; lia).
    rewrite Z.eqb_refl.
    eexists; split; [reflexivity|]. simpl.
    rewrite py_index_last by assumption. auto.
  - destruct (Qle_bool v (hd 0 grid)) eqn:Eh.
    + simpl. eexists; split; [reflexivity|]. simpl.
      rewrite (py_index_nat _ 0) by assumption. auto.
    + destruct (interior_bracket grid v Hne El Eh) as (Hk & H1 & H2).
      set (k := np.searchsorted_right grid v) in *.
      replace ((Z.of_nat k - 1 =? -1)%Z) with false
        by (symmetry; apply Z.eqb_neq; lia).
      replace ((Z.of_nat k - 1 =? Z.of_nat (length grid) - 1)%Z) with false
        by (symmetry; apply Z.eqb_neq; lia).
      replace (Z.of_nat k - 1 + 1)%Z with (Z.of_nat k) by lia.
      replace (Z.of_nat k - 1)%Z with (Z.of_nat (k - 1)) by lia.
      unfold getQ. rewrite !py_get_nat by lia. simpl.
      eexists; split; [reflexivity|]. simpl.
      rewrite !py_index_nat by lia. auto.
Qed.

(** ** The accumulation loop of [JumpToGrid] *)

Section Projector.

Variables mGrid pGrid : list Q.
Hypothesis mGrid_nonempty : mGrid <> [].
Hypothesis pGrid_nonempty : pGrid <> [].
Hypothesis mGrid_sorted : np.nondecreasing mGrid = true.
Hypothesis pGrid_sorted : np.nondecreasing pGrid = true.

Variables m_vals perm_vals probs : list Q.
Hypothesis perm_vals_length : length perm_vals = length m_vals.
Hypothesis probs_length : length probs = length m_vals.

Let nm := length mGrid.
Let np' := length pGrid.
Let mIndex := map (cell_index mGrid) m_vals.
Let pIndex := map (cell_index pGrid) perm_vals.
Let body := JumpToGrid_body mGrid pGrid mIndex pIndex m_vals perm_vals probs.
Let share := contrib mGrid pGrid m_vals perm_vals probs.

Lemma JumpToGrid_body_spec (g : list (list Q)) (i : nat) :
  rect nm np' g -> (i < length m_vals)%nat ->
  exists g', body i g = Ok g' /\ rect nm np' g' /\
             forall w, wsum w g' == wsum w g + share w i.
Proof.
  intros Hg Hi. unfold body, JumpToGrid_body.
  destruct (split_weights_spec mGrid m_vals i mGrid_nonempty Hi)
    as (sm & Esm & Hml & Hmu & Hmlw & Hmuw).
  destruct (split_weights_spec pGrid perm_vals i pGrid_nonempty
              ltac:(rewrite perm_vals_length; exact Hi))
    as (sp & Esp & Hpl & Hpu & Hplw & Hpuw).
  cbv zeta in *. unfold mIndex, pIndex. rewrite Esm. simpl. rewrite Esp. simpl.
  unfold getQ at 1. rewrite py_get_nat by (rewrite probs_length; exact Hi).
  simpl.
  destruct (grid_add_spec nm np' g _ _ _ _
              (nth i probs 0 * lowerWeight sm * lowerWeight sp) Hg Hml Hpl)
    as (g1 & E1 & R1 & S1).
  rewrite E1. simpl.
  destruct (grid_add_spec nm np' g1 _ _ _ _
              (nth i probs 0 * lowerWeight sm * upperWeight sp) R1 Hml Hpu)
    as (g2 & E2 & R2 & S2).
  rewrite E2. simpl.
  destruct (grid_add_spec nm np' g2 _ _ _ _
              (nth i probs 0 * upperWeight sm * lowerWeight sp) R2 Hmu Hpl)
    as (g3 & E3 & R3 & S3).
  rewrite E3. simpl.
  destruct (grid_add_spec nm np' g3 _ _ _ _
              (nth i probs 0 * upperWeight sm * upperWeight sp) R3 Hmu Hpu)
    as (g4 & E4 & R4 & S4).
  exists g4. split; [exact E4 | split; [exact R4|]].
  intros w. rewrite S4, S3, S2, S1.
  rewrite Hmlw, Hmuw, Hplw, Hpuw. unfold share, contrib. ring.
Qed.

Lemma JumpToGrid_loop_spec (n s : nat) (g : list (list Q)) :
  rect nm np' g -> (s + n <= length m_vals)%nat ->
  exists g', for_each body (seq s n) g = Ok g' /\ rect nm np' g' /\
             forall w, wsum w g' == wsum w g + np.sum (map (share w) (seq s n)).
Proof.
  revert s g; induction n as [|n IH]; intros s g Hg Hn.
  - exists g. simpl. split; [reflexivity | split; [exact Hg|]].
    intros w. ring.
  - destruct (JumpToGrid_body_spec g s Hg ltac:(lia)) as (g1 & E1 & R1 & S1).
    destruct (IH (S s) g1 R1 ltac:(lia)) as (g2 & E2 & R2 & S2).
    exists g2. cbn [seq for_each]. rewrite E1. simpl.
    split; [exact E2 | split; [exact R2|]].
    intros w. rewrite S2, S1. simpl. ring.
Qed.

(** The projector returns, and every weighted sum over the cells of its
    grid is the sum of the samples' shares. *)
Lemma JumpToGrid_spec :
  exists g, JumpToGrid mGrid pGrid m_vals perm_vals probs = Ok (np.flatten g) /\
            rect nm np' g /\
            forall w, wsum w g == np.sum (map (share w) (range (length m_vals))).
Proof.
  unfold JumpToGrid.
  rewrite (grid_index_spec m_vals mGrid) by assumption. simpl.
  rewrite (grid_index_spec perm_vals pGrid) by assumption. simpl.
  destruct (JumpToGrid_loop_spec (length m_vals) 0 (np.zeros nm np')
              (rect_zeros nm np') ltac:(lia)) as (g & E & R & S).
  exists g. unfold range. fold mIndex pIndex body. unfold nm, np' in E.
  rewrite E. simpl.
  split; [reflexivity | split; [exact R|]].
  intros w. rewrite S, wsum_zeros. ring.
Qed.

End Projector.

(** ** From weighted sums back to the flattened array *)

Lemma sum_app (a b : list Q) : np.sum (a ++ b) == np.sum a + np.sum b.
Proof.
  induction a as [|x a IH]; simpl; [ring | rewrite IH; ring].
Qed.

Lemma rsum_const (w : nat -> Q) (row : list Q) (c : Q) :
  (forall j, w j == c) -> rsum w row == c * np.sum row.
Proof.
  revert w; induction row as [|x r IH]; intros w H; simpl.
  - ring.
  - rewrite (H O), (IH (fun j => w (S j))) by (intros j; apply H). ring.
Qed.

Lemma wsum_const (w : nat -> nat -> Q) (g : list (list Q)) (c : Q) :
  (forall i j, w i j == c) -> wsum w g == c * np.sum (np.flatten g).
Proof.
  unfold np.flatten.
  revert w; induction g as [|row g IH]; intros w H; simpl.
  - ring.
  - rewrite sum_app, (rsum_const (w O) row c) by (intros j; apply H).
    rewrite (IH (fun i => w (S i))) by (intros i j; apply H). ring.
Qed.

Lemma rsum_ind (w : nat -> Q) (row : list Q) (b : nat) :
  (forall j, w j == ind b j) -> rsum w row == nth b row 0.
Proof.
  revert w b; induction row as [|x r IH]; intros w b H; simpl.
  - destruct b; reflexivity.
  - destruct b as [|b].
    + rewrite (H O), (rsum_const (fun j => w (S j)) r 0) by (intros j; apply H).
      unfold ind. simpl. ring.
    + rewrite (H O), (IH (fun j => w (S j)) b) by (intros j; apply H).
      unfold ind. simpl. ring.
Qed.

Lemma wsum_ind2 (w : nat -> nat -> Q) (g : list (list Q)) (a b : nat) :
  (forall i j, w i j == ind2 a b i j) -> wsum w g == cell g a b.
Proof.
  unfold cell.
  revert w a; induction g as [|row g IH]; intros w a H; simpl.
  - destruct a, b; reflexivity.
  - destruct a as [|a].
    + rewrite (rsum_ind (w O) row b), (wsum_const (fun i => w (S i)) g 0).
      * ring.
      * intros i j. rewrite H. unfold ind2, ind. simpl. ring.
      * intros j. rewrite H. unfold ind2, ind. simpl. ring.
    + rewrite (rsum_const (w O) row 0), (IH (fun i => w (S i)) a).
      * ring.
      * intros i j. rewrite H. reflexivity.
      * intros j. rewrite H. unfold ind2, ind. simpl. ring.
Qed.

Lemma nth_flatten (r c : nat) (g : list (list Q)) (a b : nat) :
  rect r c g -> (b < c)%nat ->
  nth (a * c + b) (np.flatten g) 0 = cell g a b.
Proof.
  unfold np.flatten, cell. intros [_ Hf] Hb. clear r.
  revert a; induction Hf as [|row g Hrow Hg IH]; intros a; simpl.
  - destruct (a * c + b)%nat, a, b; reflexivity.
  - destruct a as [|a]; simpl.
    + rewrite app_nth1 by lia. reflexivity.
    + rewrite app_nth2 by lia. rewrite Hrow.
      replace (c + a * c + b - c)%nat with (a * c + b)%nat by lia.
      apply IH.
Qed.

Lemma flatten_length (r c : nat) (g : list (list Q)) :
  rect r c g -> length (np.flatten g) = (r * c)%nat.
Proof.
  unfold np.flatten. intros [Hl Hf]. subst r.
  induction Hf as [|row g Hrow Hg IH]; simpl; [reflexivity|].
  rewrite length_app, IH, Hrow. reflexivity.
Qed.

Lemma dot_app (a a' b b' : list Q) :
  length a = length a' ->
  np.dot (a ++ b) (a' ++ b') == np.dot a a' + np.dot b b'.
Proof.
  unfold np.dot. revert a'; induction a as [|x a IH]; intros [|y a'] H;
    simpl in *; try discriminate.
  - ring.
  - rewrite IH by congruence. ring.
Qed.

Lemma dot_nil_r (a : list Q) : np.dot a [] == 0.
Proof. destruct a; reflexivity. Qed.

Lemma dot_const (row l : list Q) (m : Q) :
  length row = length l ->
  np.dot row (map (fun _ => m) l) == m * np.sum row.
Proof.
  unfold np.dot. revert l; induction row as [|x r IH]; intros [|y l] H;
    simpl in *; try discriminate.
  - ring.
  - rewrite IH by congruence. ring.
Qed.

Lemma rsum_dot (row ws : list Q) :
  rsum (fun j => nth j ws 0) row == np.dot row ws.
Proof.
  unfold np.dot. revert ws; induction row as [|x r IH]; intros ws; simpl.
  - reflexivity.
  - destruct ws as [|y ws]; simpl.
    + rewrite (rsum_const _ r 0); [ring | intros j; reflexivity].
    + rewrite <- IH. reflexivity.
Qed.

Lemma moment_m (pGrid : list Q) (g : list (list Q)) (ms : list Q) :
  Forall (fun row => length row = length pGrid) g ->
  np.dot (np.flatten g) (cell_m ms pGrid) == wsum (fun i _ => nth i ms 0) g.
Proof.
  unfold np.flatten. intros Hf.
  revert ms; induction Hf as [|row g Hrow Hg IH]; intros ms.
  - reflexivity.
  - destruct ms as [|m ms].
    + simpl. rewrite dot_nil_r.
      rewrite (rsum_const _ row 0) by (intros j; reflexivity).
      rewrite (wsum_const _ g 0) by (intros i j; reflexivity). ring.
    + cbn [concat cell_m flat_map wsum].
      rewrite dot_app by (now rewrite length_map).
      rewrite dot_const by assumption.
      rewrite (rsum_const _ row m) by (intros j; reflexivity).
      fold (cell_m ms pGrid). rewrite IH. reflexivity.
Qed.

Lemma moment_p (pGrid : list Q) (g : list (list Q)) (ms : list Q) :
  Forall (fun row => length row = length pGrid) g ->
  length g = length ms ->
  np.dot (np.flatten g) (cell_p ms pGrid) == wsum (fun _ j => nth j pGrid 0) g.
Proof.
  unfold np.flatten. intros Hf.
  revert ms; induction Hf as [|row g Hrow Hg IH]; intros [|m ms] Hl;
    simpl in Hl; try discriminate.
  - reflexivity.
  - cbn [concat cell_p flat_map wsum].
    rewrite dot_app by assumption.
    fold (cell_p ms pGrid). rewrite IH by congruence.
    rewrite rsum_dot. reflexivity.
Qed.

(** Sums over [range]. *)
Lemma sum_map_ext (f f' : nat -> Q) (l : list nat) :
  (forall k, In k l -> f k == f' k) -> np.sum (map f l) == np.sum (map f' l).
Proof.
  induction l as [|k l IH]; intros H; simpl.
  - reflexivity.
  - rewrite (H k) by (now left). rewrite IH by (intros; apply H; now right).
    reflexivity.
Qed.

Lemma sum_map_nonneg (f : nat -> Q) (l : list nat) :
  (forall k, In k l -> 0 <= f k) -> 0 <= np.sum (map f l).
Proof.
  induction l as [|k l IH]; intros H; simpl.
  - lra.
  - assert (0 <= f k) by (apply H; now left).
    assert (0 <= np.sum (map f l)) by (apply IH; intros; apply H; now right).
    lra.
Qed.

Lemma sum_range_dot (a b : list Q) :
  length a = length b ->
  np.sum (map (fun k => nth k a 0 * nth k b 0) (range (length a))) == np.dot a b.
Proof.
  unfold range, np.dot. revert b; induction a as [|x a IH]; intros [|y b] H;
    simpl in *; try discriminate.
  - reflexivity.
  - rewrite <- seq_shift, map_map. simpl. rewrite IH by congruence. reflexivity.
Qed.

Lemma sum_range_nth (a : list Q) :
  np.sum (map (fun k => nth k a 0) (range (length a))) == np.sum a.
Proof.
  unfold range. induction a as [|x a IH]; simpl.
  - reflexivity.
  - rewrite <- seq_shift, map_map. simpl. rewrite IH. reflexivity.
Qed.

Lemma in_range (k n : nat) : In k (range n) -> (k < n)%nat.
Proof. unfold range. rewrite in_seq. lia. Qed.

(** ** Properties of [JumpToGrid] *)

Lemma StateGrid_nonempty (mGrid pGrid : list Q) :
  StateGrid mGrid pGrid ->
  mGrid <> [] /\ pGrid <> [] /\
  np.nondecreasing mGrid = true /\ np.nondecreasing pGrid = true.
Proof.
  intros (Hm & Hp & Lm & Lp). repeat split.
  - intros ->. simpl in Lm. lia.
  - intros ->. simpl in Lp. lia.
  - now apply increasing_nondecreasing.
  - now apply increasing_nondecreasing.
Qed.

Lemma contrib_const (mGrid pGrid m_vals perm_vals probs : list Q)
    (w : nat -> nat -> Q) (c : Q) (k : nat) :
  (forall i j, w i j == c) ->
  contrib mGrid pGrid m_vals perm_vals probs w k == nth k probs 0 * c.
Proof.
  intros H. unfold contrib. cbv zeta. rewrite !H.
  set (m := nth k m_vals 0). set (p := nth k perm_vals 0).
  transitivity (nth k probs 0 * c *
                ((lw_of mGrid m + uw_of mGrid m) * (lw_of pGrid p + uw_of pGrid p))).
  - ring.
  - rewrite !weights_sum. ring.
Qed.

Lemma contrib_moment_m (mGrid pGrid m_vals perm_vals probs : list Q) (k : nat) :
  mGrid <> [] -> within mGrid (nth k m_vals 0) ->
  contrib mGrid pGrid m_vals perm_vals probs (fun i _ => nth i mGrid 0) k
  == nth k probs 0 * nth k m_vals 0.
Proof.
  intros Hne [H1 H2]. unfold contrib. cbv zeta.
  set (m := nth k m_vals 0) in *. set (p := nth k perm_vals 0).
  transitivity (nth k probs 0 * (lw_of pGrid p + uw_of pGrid p) *
                (lw_of mGrid m * nth (lo_of mGrid m) mGrid 0
                 + uw_of mGrid m * nth (up_of mGrid m) mGrid 0)).
  - ring.
  - rewrite weights_sum, weights_mean by assumption. ring.
Qed.

Lemma contrib_moment_p (mGrid pGrid m_vals perm_vals probs : list Q) (k : nat) :
  pGrid <> [] -> within pGrid (nth k perm_vals 0) ->
  contrib mGrid pGrid m_vals perm_vals probs (fun _ j => nth j pGrid 0) k
  == nth k probs 0 * nth k perm_vals 0.
Proof.
  intros Hne [H1 H2]. unfold contrib. cbv zeta.
  set (m := nth k m_vals 0). set (p := nth k perm_vals 0) in *.
  transitivity (nth k probs 0 * (lw_of mGrid m + uw_of mGrid m) *
                (lw_of pGrid p * nth (lo_of pGrid p) pGrid 0
                 + uw_of pGrid p * nth (up_of pGrid p) pGrid 0)).
  - ring.
  - rewrite weights_sum, weights_mean by assumption. ring.
Qed.

(** The three sums of a grid that collects the samples' shares. *)
Section Moments.

Variables mGrid pGrid m_vals perm_vals probs : list Q.
Variable g : list (list Q).
Hypothesis g_rect : rect (length mGrid) (length pGrid) g.
Hypothesis g_shares :
  forall w, wsum w g ==
            np.sum (map (contrib mGrid pGrid m_vals perm_vals probs w)
                        (range (length m_vals))).
Hypothesis perm_vals_length : length perm_vals = length m_vals.
Hypothesis probs_length : length probs = length m_vals.

Lemma shares_mass : np.sum (np.flatten g) == np.sum probs.
Proof.
  pose proof (g_shares (fun _ _ => 1)) as S.
  rewrite (wsum_const _ g 1) in S by (intros; reflexivity).
  rewrite Qmult_1_l in S. rewrite S.
  transitivity (np.sum (map (fun k => nth k probs 0) (range (length probs))));
    [|apply sum_range_nth].
  rewrite probs_length. apply sum_map_ext. intros k _.
  rewrite (contrib_const _ _ _ _ _ _ 1) by (intros; reflexivity). ring.
Qed.

Lemma shares_moment_m :
  mGrid <> [] -> Forall (within mGrid) m_vals ->
  np.dot (np.flatten g) (cell_m mGrid pGrid) == np.dot probs m_vals.
Proof.
  intros Hne Hin.
  rewrite moment_m by (apply g_rect). rewrite g_shares.
  transitivity (np.sum (map (fun k => nth k probs 0 * nth k m_vals 0)
                            (range (length probs))));
    [|apply sum_range_dot; exact probs_length].
  rewrite probs_length. apply sum_map_ext. intros k Hk.
  apply contrib_moment_m; [exact Hne|].
  rewrite Forall_forall in Hin. apply Hin, nth_In, in_range, Hk.
Qed.

Lemma shares_moment_p :
  pGrid <> [] -> Forall (within pGrid) perm_vals ->
  np.dot (np.flatten g) (cell_p mGrid pGrid) == np.dot probs perm_vals.
Proof.
  intros Hne Hin.
  rewrite moment_p by (apply g_rect). rewrite g_shares.
  transitivity (np.sum (map (fun k => nth k probs 0 * nth k perm_vals 0)
                            (range (length probs))));
    [|apply sum_range_dot; congruence].
  rewrite probs_length. apply sum_map_ext. intros k Hk.
  apply contrib_moment_p; [exact Hne|].
  rewrite Forall_forall in Hin. apply Hin, nth_In.
  rewrite perm_vals_length. apply in_range, Hk.
Qed.

End Moments.

(** C2.  On a StateGrid and for three sequences of equal length,
    [JumpToGrid] returns a vector whose entries sum to the sum of the
    input probabilities. *)
Theorem JumpToGrid_total_mass (mGrid pGrid m_vals perm_vals probs : list Q) :
  StateGrid mGrid pGrid ->
  length perm_vals = length m_vals ->
  length probs = length m_vals ->
  exists out, JumpToGrid mGrid pGrid m_vals perm_vals probs = Ok out /\
              np.sum out == np.sum probs.
Proof.
  intros HG Hp Hpr.
  destruct (StateGrid_nonempty _ _ HG) as (Nm & Np & Sm & Sp).
  destruct (JumpToGrid_spec mGrid pGrid Nm Np Sm Sp m_vals perm_vals probs Hp Hpr)
    as (g & E & R & S).
  exists (np.flatten g). split; [exact E|].
  exact (shares_mass mGrid pGrid m_vals perm_vals probs g S Hpr).
Qed.

Lemma JumpToGrid_total_mass_witness :
  exists out,
    JumpToGrid [0; 1; 2] [1; 2] [1 # 2; 5 # 2; -1] [1; 3 # 2; 4]
               [1 # 4; 1 # 2; 1 # 4] = Ok out /\
    np.sum out == np.sum [1 # 4; 1 # 2; 1 # 4].
Proof.
  apply JumpToGrid_total_mass.
  - repeat split; simpl; lia.
  - reflexivity.
  - reflexivity.
Defined.

(** C4.  On a StateGrid, when every sample lies within the grid bounds in
    both dimensions, the mean of the returned distribution over the grid
    values of dimension 1 (dimension 2) is the probability-weighted mean of
    [m_vals] ([perm_vals]). *)
Theorem JumpToGrid_keeps_means (mGrid pGrid m_vals perm_vals probs : list Q) :
  StateGrid mGrid pGrid ->
  length perm_vals = length m_vals ->
  length probs = length m_vals ->
  Forall (within mGrid) m_vals ->
  Forall (within pGrid) perm_vals ->
  exists out, JumpToGrid mGrid pGrid m_vals perm_vals probs = Ok out /\
              weighted_mean out (cell_m mGrid pGrid) == weighted_mean probs m_vals /\
              weighted_mean out (cell_p mGrid pGrid) == weighted_mean probs perm_vals.
Proof.
  intros HG Hp Hpr Hm Hperm.
  destruct (StateGrid_nonempty _ _ HG) as (Nm & Np & Sm & Sp).
  destruct (JumpToGrid_spec mGrid pGrid Nm Np Sm Sp m_vals perm_vals probs Hp Hpr)
    as (g & E & R & S).
  exists (np.flatten g). split; [exact E|].
  pose proof (shares_mass mGrid pGrid m_vals perm_vals probs g S Hpr) as M0.
  pose proof (shares_moment_m mGrid pGrid m_vals perm_vals probs g R S Hpr Nm Hm) as M1.
  pose proof (shares_moment_p mGrid pGrid m_vals perm_vals probs g R S Hp Hpr Np Hperm) as M2.
  unfold weighted_mean. rewrite M0, M1, M2. split; reflexivity.
Qed.

Lemma JumpToGrid_keeps_means_witness :
  exists out,
    JumpToGrid [0; 1; 3] [1; 2] [1 # 2; 5 # 2; 0] [1; 3 # 2; 2]
               [1 # 4; 1 # 2; 1 # 4] = Ok out /\
    weighted_mean out (cell_m [0; 1; 3] [1; 2])
    == weighted_mean [1 # 4; 1 # 2; 1 # 4] [1 # 2; 5 # 2; 0] /\
    weighted_mean out (cell_p [0; 1; 3] [1; 2])
    == weighted_mean [1 # 4; 1 # 2; 1 # 4] [1; 3 # 2; 2].
Proof.
  apply JumpToGrid_keeps_means.
  - repeat split; simpl; lia.
  - reflexivity.
  - reflexivity.
  - repeat constructor; simpl; lra.
  - repeat constructor; simpl; lra.
Defined.

(** ** Weights at the boundary, on grid points and at midpoints *)

Lemma increasing_tail (x : Q) (t : list Q) :
  increasing (x :: t) = true -> increasing t = true.
Proof.
  destruct t as [|y t]; [reflexivity|].
  cbn [increasing]. intros H. apply andb_true_iff in H. apply H.
Qed.

Lemma increasing_hd_lt_nth (x : Q) (t : list Q) (k : nat) :
  increasing (x :: t) = true -> (k < length t)%nat -> x < nth k t 0.
Proof.
  revert x k; induction t as [|y t IH]; intros x k H Hk; simpl in Hk; [lia|].
  cbn [increasing] in H. apply andb_true_iff in H as [H1 H2].
  apply negb_true_iff in H1.
  assert (Hxy : x < y).
  { apply Qnot_le_lt. intros C. apply Qle_bool_iff in C. congruence. }
  destruct k as [|k]; simpl; [exact Hxy|].
  specialize (IH y k H2 ltac:(lia)). lra.
Qed.

Lemma increasing_nth_lt (a : list Q) (i j : nat) :
  increasing a = true -> (i < j)%nat -> (j < length a)%nat ->
  nth i a 0 < nth j a 0.
Proof.
  revert i j; induction a as [|x t IH]; intros i j H Hij Hj; simpl in Hj; [lia|].
  destruct j as [|j]; [lia|]. destruct i as [|i]; simpl.
  - apply increasing_hd_lt_nth; [exact H | lia].
  - apply IH; [eapply increasing_tail; exact H | lia | lia].
Qed.

Lemma increasing_nth_le (a : list Q) (i j : nat) :
  increasing a = true -> (i <= j)%nat -> (j < length a)%nat ->
  nth i a 0 <= nth j a 0.
Proof.
  intros H Hij Hj. destruct (Nat.eq_dec i j) as [->|Hne]; [lra|].
  apply Qlt_le_weak, increasing_nth_lt; [exact H | lia | exact Hj].
Qed.

Lemma hd_nth (a : list Q) : hd 0 a = nth 0 a 0.
Proof. destruct a; reflexivity. Qed.

Lemma searchsorted_bracket (grid : list Q) (a : nat) (v : Q) :
  increasing grid = true -> (S a < length grid)%nat ->
  nth a grid 0 <= v -> v < nth (S a) grid 0 ->
  np.searchsorted_right grid v = S a.
Proof.
  revert a; induction grid as [|x t IH]; intros a H Ha H1 H2; simpl in Ha; [lia|].
  cbn [np.searchsorted_right].
  destruct a as [|a].
  - simpl in H1, H2.
    replace (Qle_bool x v) with true by (symmetry; apply Qle_bool_iff; exact H1).
    destruct t as [|y t]; [simpl in Ha; lia|]. simpl in H2 |- *.
    destruct (Qle_bool y v) eqn:E; [|reflexivity].
    apply Qle_bool_iff in E. lra.
  - simpl in H1, H2.
    pose proof (increasing_hd_lt_nth x t a H ltac:(lia)) as Hx.
    replace (Qle_bool x v) with true by (symmetry; apply Qle_bool_iff; lra).
    f_equal. apply IH; [eapply increasing_tail; exact H | lia | exact H1 | exact H2].
Qed.

Lemma Qle_bool_false (x y : Q) : y < x -> Qle_bool x y = false.
Proof.
  intros H. destruct (Qle_bool x y) eqn:E; [|reflexivity].
  apply Qle_bool_iff in E. lra.
Qed.

Lemma Qle_bool_true (x y : Q) : x <= y -> Qle_bool x y = true.
Proof. intros H. now apply Qle_bool_iff. Qed.

(** At or above the maximum: the whole weight on the last grid point. *)
Lemma weight_at_above (grid : list Q) (v : Q) (i : nat) :
  last grid 0 <= v -> weight_at grid v i == ind i (length grid - 1).
Proof.
  intros H. unfold weight_at, lw_of, uw_of, lo_of, up_of.
  rewrite (Qle_bool_true _ _ H). ring.
Qed.

(** At or below the minimum: the whole weight on the first grid point. *)
Lemma weight_at_below (grid : list Q) (v : Q) (i : nat) :
  hd 0 grid < last grid 0 -> v <= hd 0 grid -> weight_at grid v i == ind i 0.
Proof.
  intros Hg H. unfold weight_at, lw_of, uw_of, lo_of, up_of.
  rewrite (Qle_bool_false (last grid 0) v) by lra.
  rewrite (Qle_bool_true _ _ H). ring.
Qed.

(** Strictly inside a bracket [grid[a] <= v < grid[a+1]]: linear
    interpolation between its two ends. *)
Lemma weight_at_bracket (grid : list Q) (a : nat) (v : Q) (i : nat) :
  increasing grid = true -> (S a < length grid)%nat ->
  nth a grid 0 <= v -> v < nth (S a) grid 0 ->
  weight_at grid v i ==
  (nth (S a) grid 0 - v) / (nth (S a) grid 0 - nth a grid 0) * ind i a
  + (v - nth a grid 0) / (nth (S a) grid 0 - nth a grid 0) * ind i (S a).
Proof.
  intros Hinc Ha H1 H2.
  assert (Hl : nth (S a) grid 0 <= last grid 0).
  { rewrite <- nth_last. apply increasing_nth_le; [exact Hinc | lia | lia]. }
  assert (H0 : hd 0 grid <= nth a grid 0).
  { rewrite hd_nth. apply increasing_nth_le; [exact Hinc | lia | lia]. }
  unfold weight_at, uw_of, lw_of, lo_of, up_of.
  rewrite (Qle_bool_false (last grid 0) v) by lra.
  destruct (Qle_bool v (hd 0 grid)) eqn:Eh.
  - apply Qle_bool_iff in Eh.
    assert (Ev : v == nth a grid 0) by lra.
    destruct a as [|a].
    + rewrite Ev. field. rewrite Ev in H2. lra.
    + exfalso.
      pose proof (increasing_nth_lt grid 0 (S a) Hinc ltac:(lia) ltac:(lia)).
      rewrite <- hd_nth in *. lra.
  - rewrite (searchsorted_bracket grid a v Hinc Ha H1 H2).
    cbv zeta. replace (S a - 1)%nat with a by lia.
    field. lra.
Qed.

Lemma increasing_hd_lt_last (grid : list Q) :
  increasing grid = true -> (2 <= length grid)%nat -> hd 0 grid < last grid 0.
Proof.
  intros H Hl. rewrite hd_nth, <- nth_last.
  apply increasing_nth_lt; [exact H | lia | lia].
Qed.

(** On a grid point: the whole weight on that point. *)
Lemma weight_at_grid_point (grid : list Q) (a i : nat) :
  increasing grid = true -> (a < length grid)%nat ->
  weight_at grid (nth a grid 0) i == ind i a.
Proof.
  intros Hinc Ha.
  destruct (Nat.eq_dec (S a) (length grid)) as [E|E].
  - rewrite weight_at_above
      by (rewrite <- nth_last; replace (length grid - 1)%nat with a by lia; lra).
    replace (length grid - 1)%nat with a by lia. reflexivity.
  - pose proof (increasing_nth_lt grid a (S a) Hinc ltac:(lia) ltac:(lia)) as Hlt.
    rewrite (weight_at_bracket grid a) by (try assumption; try lia; lra).
    field. lra.
Qed.

(** At the midpoint of two adjacent grid points: one half on each. *)
Lemma weight_at_midpoint (grid : list Q) (a i : nat) :
  increasing grid = true -> (S a < length grid)%nat ->
  weight_at grid ((nth a grid 0 + nth (S a) grid 0) / 2) i
  == (1 # 2) * ind i a + (1 # 2) * ind i (S a).
Proof.
  intros Hinc Ha.
  pose proof (increasing_nth_lt grid a (S a) Hinc ltac:(lia) ltac:(lia)) as Hlt.
  assert (H1 : nth a grid 0 <= (nth a grid 0 + nth (S a) grid 0) / 2).
  { apply Qle_shift_div_l; lra. }
  assert (H2 : (nth a grid 0 + nth (S a) grid 0) / 2 < nth (S a) grid 0).
  { apply Qlt_shift_div_r; lra. }
  rewrite (weight_at_bracket grid a) by assumption.
  field. lra.
Qed.

Lemma ind_range (i a : nat) : 0 <= ind i a <= 1.
Proof. unfold ind. destruct (a =? i)%nat; lra. Qed.

Lemma weight_at_nonneg (grid : list Q) (v : Q) (i : nat) :
  grid <> [] -> 0 <= weight_at grid v i.
Proof.
  intros Hne. unfold weight_at.
  pose proof (lw_of_range grid v Hne). pose proof (uw_of_range grid v Hne).
  pose proof (ind_range i (lo_of grid v)). pose proof (ind_range i (up_of grid v)).
  nra.
Qed.

(** The share of a sample at one cell is its mass times its two weights. *)
Lemma contrib_cell (mGrid pGrid m_vals perm_vals probs : list Q)
    (w : nat -> nat -> Q) (a b k : nat) :
  (forall i j, w i j == ind2 a b i j) ->
  contrib mGrid pGrid m_vals perm_vals probs w k
  == nth k probs 0 * weight_at mGrid (nth k m_vals 0) a
                   * weight_at pGrid (nth k perm_vals 0) b.
Proof.
  intros H. unfold contrib, weight_at. cbv zeta. rewrite !H.
  unfold ind2. ring.
Qed.

(** Every cell of the returned vector, sample by sample. *)
Lemma JumpToGrid_cells (mGrid pGrid m_vals perm_vals probs : list Q) :
  StateGrid mGrid pGrid ->
  length perm_vals = length m_vals ->
  length probs = length m_vals ->
  exists out,
    JumpToGrid mGrid pGrid m_vals perm_vals probs = Ok out /\
    length out = (length mGrid * length pGrid)%nat /\
    np.sum out == np.sum probs /\
    forall a b, (b < length pGrid)%nat ->
      nth (a * length pGrid + b) out 0 ==
      np.sum (map (fun k => nth k probs 0
                            * weight_at mGrid (nth k m_vals 0) a
                            * weight_at pGrid (nth k perm_vals 0) b)
                  (range (length m_vals))).
Proof.
  intros HG Hp Hpr.
  destruct (StateGrid_nonempty _ _ HG) as (Nm & Np & Sm & Sp).
  destruct (JumpToGrid_spec mGrid pGrid Nm Np Sm Sp m_vals perm_vals probs Hp Hpr)
    as (g & E & R & S).
  exists (np.flatten g). split; [exact E|]. split; [|split].
  - now apply flatten_length.
  - exact (shares_mass mGrid pGrid m_vals perm_vals probs g S Hpr).
  - intros a b Hb.
    rewrite (nth_flatten _ _ g a b R Hb).
    rewrite <- (wsum_ind2 (ind2 a b) g a b) by (intros; reflexivity).
    rewrite S. apply sum_map_ext. intros k _.
    apply contrib_cell. intros; reflexivity.
Qed.

Lemma seq_add (n1 n2 s : nat) :
  seq (n1 + s) n2 = map (fun k => (n1 + k)%nat) (seq s n2).
Proof.
  revert s; induction n2 as [|n2 IH]; intros s; simpl; [reflexivity|].
  f_equal. rewrite <- IH. f_equal. lia.
Qed.

Lemma sum_range_split (f : nat -> Q) (n1 n2 : nat) :
  np.sum (map f (range (n1 + n2)))
  == np.sum (map f (range n1)) + np.sum (map (fun k => f (n1 + k)%nat) (range n2)).
Proof.
  unfold range. rewrite seq_app, map_app, sum_app. simpl.
  rewrite <- (Nat.add_0_r n1) at 2. rewrite seq_add, map_map. reflexivity.
Qed.

(** A sum over the samples, with one sample put in anywhere. *)
Lemma sum_range_insert (G : Q -> Q -> Q -> Q)
    (ms1 ps1 qs1 ms2 ps2 qs2 : list Q) (m p q : Q) :
  length ps1 = length ms1 -> length qs1 = length ms1 ->
  np.sum (map (fun k => G (nth k (qs1 ++ q :: qs2) 0)
                          (nth k (ms1 ++ m :: ms2) 0)
                          (nth k (ps1 ++ p :: ps2) 0))
              (range (length (ms1 ++ m :: ms2))))
  == np.sum (map (fun k => G (nth k (qs1 ++ qs2) 0)
                             (nth k (ms1 ++ ms2) 0)
                             (nth k (ps1 ++ ps2) 0))
                 (range (length (ms1 ++ ms2))))
     + G q m p.
Proof.
  intros Hp Hq. rewrite !length_app. cbn [length].
  replace (S (length ms2)) with (1 + length ms2)%nat by reflexivity.
  rewrite !sum_range_split. cbn [range seq map np.sum].
  rewrite Nat.add_0_r.
  assert (E1 : forall f g : nat -> Q, forall n,
             (forall k, (k < n)%nat -> f k == g k) ->
             np.sum (map f (range n)) == np.sum (map g (range n))).
  { intros f g n H. apply sum_map_ext. intros k Hk. apply H, in_range, Hk. }
  rewrite (E1 _ (fun k => G (nth k qs1 0) (nth k ms1 0) (nth k ps1 0))
              (length ms1))
    by (intros k Hk; rewrite !app_nth1 by lia; reflexivity).
  rewrite (E1 (fun k => G (nth k (qs1 ++ qs2) 0) _ _)
              (fun k => G (nth k qs1 0) (nth k ms1 0) (nth k ps1 0))
              (length ms1))
    by (intros k Hk; rewrite !app_nth1 by lia; reflexivity).
  rewrite <- Hq at 2. rewrite <- Hp at 3.
  rewrite !nth_middle.
  rewrite (E1 (fun k => G (nth (length ms1 + (1 + k)) _ 0) _ _)
              (fun k => G (nth k qs2 0) (nth k ms2 0) (nth k ps2 0))
              (length ms2)).
  2:{ intros k _. rewrite <- Hq at 1. rewrite <- Hp at 2.
      rewrite !app_nth2_plus. reflexivity. }
  rewrite (E1 (fun k => G (nth (length ms1 + k) (qs1 ++ qs2) 0) _ _)
              (fun k => G (nth k qs2 0) (nth k ms2 0) (nth k ps2 0))
              (length ms2)).
  2:{ intros k _. rewrite <- Hq at 1. rewrite <- Hp at 2.
      rewrite !app_nth2_plus. reflexivity. }
  simpl. ring.
Qed.

(** C5.  On a StateGrid, take any sample [(m, p)] of probability [q] of the
    input of [JumpToGrid] and compare the returned vector with the one
    returned for the other samples alone.  The sample adds exactly [q] to
    the total, inside the grid's cells.  If [m] is at or below
    [Dist_mGrid[0]] no cell outside the first row differs, so the whole of
    [q] lies on the minimum point of that dimension; if [m] is at or above
    [Dist_mGrid[-1]] no cell outside the last row differs; likewise for [p]
    and the first and last column of [Dist_pGrid]. *)
Theorem JumpToGrid_clamps_to_bounds
    (mGrid pGrid ms1 ps1 qs1 ms2 ps2 qs2 : list Q) (m p q : Q) :
  StateGrid mGrid pGrid ->
  length ps1 = length ms1 -> length qs1 = length ms1 ->
  length ps2 = length ms2 -> length qs2 = length ms2 ->
  exists out rest,
    JumpToGrid mGrid pGrid (ms1 ++ m :: ms2) (ps1 ++ p :: ps2) (qs1 ++ q :: qs2)
    = Ok out /\
    JumpToGrid mGrid pGrid (ms1 ++ ms2) (ps1 ++ ps2) (qs1 ++ qs2) = Ok rest /\
    length out = (length mGrid * length pGrid)%nat /\
    length rest = (length mGrid * length pGrid)%nat /\
    np.sum out == np.sum rest + q /\
    (m <= hd 0 mGrid ->
     forall a b, a <> O -> (b < length pGrid)%nat ->
       nth (a * length pGrid + b) out 0 == nth (a * length pGrid + b) rest 0) /\
    (last mGrid 0 <= m ->
     forall a b, a <> (length mGrid - 1)%nat -> (b < length pGrid)%nat ->
       nth (a * length pGrid + b) out 0 == nth (a * length pGrid + b) rest 0) /\
    (p <= hd 0 pGrid ->
     forall a b, b <> O -> (b < length pGrid)%nat ->
       nth (a * length pGrid + b) out 0 == nth (a * length pGrid + b) rest 0) /\
    (last pGrid 0 <= p ->
     forall a b, b <> (length pGrid - 1)%nat -> (b < length pGrid)%nat ->
       nth (a * length pGrid + b) out 0 == nth (a * length pGrid + b) rest 0).
Proof.
  intros HG Hp1 Hq1 Hp2 Hq2.
  destruct (JumpToGrid_cells mGrid pGrid (ms1 ++ m :: ms2) (ps1 ++ p :: ps2)
              (qs1 ++ q :: qs2) HG) as (out & E & L & S & C).
  { rewrite !length_app. simpl. congruence. }
  { rewrite !length_app. simpl. congruence. }
  destruct (JumpToGrid_cells mGrid pGrid (ms1 ++ ms2) (ps1 ++ ps2) (qs1 ++ qs2) HG)
    as (rest & E' & L' & S' & C').
  { rewrite !length_app. congruence. }
  { rewrite !length_app. congruence. }
  destruct HG as (Im & Ip & Lm & Lp).
  exists out, rest.
  split; [exact E|]. split; [exact E'|]. split; [exact L|]. split; [exact L'|].
  assert (Hcell : forall a b, (b < length pGrid)%nat ->
             nth (a * length pGrid + b) out 0
             == nth (a * length pGrid + b) rest 0
                + q * weight_at mGrid m a * weight_at pGrid p b).
  { intros a b Hb. rewrite (C a b Hb), (C' a b Hb).
    apply (sum_range_insert
             (fun q' m' p' => q' * weight_at mGrid m' a * weight_at pGrid p' b));
      assumption. }
  assert (Hoff : forall a c, a <> c -> ind a c == 0).
  { intros a c Hac. unfold ind.
    replace (c =? a)%nat with false by (symmetry; apply Nat.eqb_neq; congruence).
    reflexivity. }
  split; [|repeat split].
  - rewrite S, S', !sum_app. simpl. ring.
  - intros H a b Ha Hb. rewrite (Hcell a b Hb), weight_at_below, Hoff;
      [ring | exact Ha | now apply increasing_hd_lt_last | exact H].
  - intros H a b Ha Hb. rewrite (Hcell a b Hb), weight_at_above, Hoff;
      [ring | exact Ha | exact H].
  - intros H a b Hb0 Hb. rewrite (Hcell a b Hb), (weight_at_below pGrid), Hoff;
      [ring | exact Hb0 | now apply increasing_hd_lt_last | exact H].
  - intros H a b Hb0 Hb. rewrite (Hcell a b Hb), (weight_at_above pGrid), Hoff;
      [ring | exact Hb0 | exact H].
Qed.

Lemma JumpToGrid_clamps_to_bounds_witness :
  exists out rest,
    JumpToGrid [0; 1; 2] [1; 2] ([1 # 2] ++ -3 :: [7]) ([1] ++ 5 :: [1 # 2])
               ([1 # 4] ++ (1 # 3) :: [2 # 3]) = Ok out /\
    JumpToGrid [0; 1; 2] [1; 2] ([1 # 2] ++ [7]) ([1] ++ [1 # 2])
               ([1 # 4] ++ [2 # 3]) = Ok rest /\
    length out = (3 * 2)%nat /\
    length rest = (3 * 2)%nat /\
    np.sum out == np.sum rest + (1 # 3) /\
    (-3 <= 0 ->
     forall a b, a <> O -> (b < 2)%nat ->
       nth (a * 2 + b) out 0 == nth (a * 2 + b) rest 0) /\
    (2 <= -3 ->
     forall a b, a <> 2%nat -> (b < 2)%nat ->
       nth (a * 2 + b) out 0 == nth (a * 2 + b) rest 0) /\
    (5 <= 1 ->
     forall a b, b <> O -> (b < 2)%nat ->
       nth (a * 2 + b) out 0 == nth (a * 2 + b) rest 0) /\
    (2 <= 5 ->
     forall a b, b <> 1%nat -> (b < 2)%nat ->
       nth (a * 2 + b) out 0 == nth (a * 2 + b) rest 0).
Proof.
  apply (JumpToGrid_clamps_to_bounds [0; 1; 2] [1; 2] [1 # 2] [1] [1 # 4]
           [7] [1 # 2] [2 # 3] (-3) 5 (1 # 3)).
  - repeat split; simpl; lia.
  - reflexivity.
  - reflexivity.
  - reflexivity.
  - reflexivity.
Defined.

(** The vector returned for a single sample of mass 1. *)
Lemma JumpToGrid_single (mGrid pGrid : list Q) (m p : Q) :
  StateGrid mGrid pGrid ->
  exists out,
    JumpToGrid mGrid pGrid [m] [p] [1] = Ok out /\
    length out = (length mGrid * length pGrid)%nat /\
    forall i j, (j < length pGrid)%nat ->
      nth (i * length pGrid + j) out 0 == weight_at mGrid m i * weight_at pGrid p j.
Proof.
  intros HG.
  destruct (JumpToGrid_cells mGrid pGrid [m] [p] [1] HG eq_refl eq_refl)
    as (out & E & L & _ & C).
  exists out. split; [exact E|]. split; [exact L|].
  intros i j Hj. rewrite (C i j Hj). simpl. ring.
Qed.

(** C6.  On a StateGrid, a single sample of probability 1 that sits on the
    grid point [(a,b)] gives the one-hot vector at cell [(a,b)]; a sample at
    the midpoint of two adjacent points of one grid (and on a point of the
    other) puts one half on each of the two cells and nothing elsewhere. *)
Theorem JumpToGrid_exact_on_grid (mGrid pGrid : list Q) (a b : nat) :
  StateGrid mGrid pGrid ->
  (a < length mGrid)%nat -> (b < length pGrid)%nat ->
  (exists out,
      JumpToGrid mGrid pGrid [nth a mGrid 0] [nth b pGrid 0] [1] = Ok out /\
      length out = (length mGrid * length pGrid)%nat /\
      forall i j, (j < length pGrid)%nat ->
        nth (i * length pGrid + j) out 0
        == if ((i =? a) && (j =? b))%nat then 1 else 0) /\
  ((S a < length mGrid)%nat ->
   exists out,
      JumpToGrid mGrid pGrid [(nth a mGrid 0 + nth (S a) mGrid 0) / 2]
                 [nth b pGrid 0] [1] = Ok out /\
      forall i j, (j < length pGrid)%nat ->
        nth (i * length pGrid + j) out 0
        == if (((i =? a) || (i =? S a)) && (j =? b))%nat then 1 # 2 else 0) /\
  ((S b < length pGrid)%nat ->
   exists out,
      JumpToGrid mGrid pGrid [nth a mGrid 0]
                 [(nth b pGrid 0 + nth (S b) pGrid 0) / 2] [1] = Ok out /\
      forall i j, (j < length pGrid)%nat ->
        nth (i * length pGrid + j) out 0
        == if ((i =? a) && ((j =? b) || (j =? S b)))%nat then 1 # 2 else 0).
Proof.
  intros HG Ha Hb. pose proof HG as (Im & Ip & _ & _).
  split; [|split].
  - destruct (JumpToGrid_single mGrid pGrid (nth a mGrid 0) (nth b pGrid 0) HG)
      as (out & E & L & C).
    exists out. split; [exact E|]. split; [exact L|].
    intros i j Hj. rewrite (C i j Hj).
    rewrite !weight_at_grid_point by assumption. unfold ind.
    rewrite (Nat.eqb_sym a i), (Nat.eqb_sym b j).
    destruct (i =? a)%nat, (j =? b)%nat; simpl; ring.
  - intros Ha'.
    destruct (JumpToGrid_single mGrid pGrid
                ((nth a mGrid 0 + nth (S a) mGrid 0) / 2) (nth b pGrid 0) HG)
      as (out & E & L & C).
    exists out. split; [exact E|].
    intros i j Hj. rewrite (C i j Hj).
    rewrite weight_at_midpoint, weight_at_grid_point by assumption. unfold ind.
    rewrite (Nat.eqb_sym a i), (Nat.eqb_sym (S a) i), (Nat.eqb_sym b j).
    destruct (i =? a)%nat eqn:E1, (i =? S a)%nat eqn:E2, (j =? b)%nat;
      simpl; try ring.
    apply Nat.eqb_eq in E1, E2. lia.
  - intros Hb'.
    destruct (JumpToGrid_single mGrid pGrid (nth a mGrid 0)
                ((nth b pGrid 0 + nth (S b) pGrid 0) / 2) HG)
      as (out & E & L & C).
    exists out. split; [exact E|].
    intros i j Hj. rewrite (C i j Hj).
    rewrite weight_at_midpoint, weight_at_grid_point by assumption. unfold ind.
    rewrite (Nat.eqb_sym a i), (Nat.eqb_sym (S b) j), (Nat.eqb_sym b j).
    destruct (i =? a)%nat, (j =? b)%nat eqn:E1, (j =? S b)%nat eqn:E2;
      simpl; try ring.
    apply Nat.eqb_eq in E1, E2. lia.
Qed.

Lemma JumpToGrid_exact_on_grid_witness :
  (exists out,
      JumpToGrid [0; 5; 10] [1; 2] [5] [1] [1] = Ok out /\
      length out = 6%nat /\
      forall i j, (j < 2)%nat ->
        nth (i * 2 + j) out 0 == if ((i =? 1) && (j =? 0))%nat then 1 else 0) /\
  ((2 < 3)%nat ->
   exists out,
      JumpToGrid [0; 5; 10] [1; 2] [(5 + 10) / 2] [1] [1] = Ok out /\
      forall i j, (j < 2)%nat ->
        nth (i * 2 + j) out 0
        == if (((i =? 1) || (i =? 2)) && (j =? 0))%nat then 1 # 2 else 0) /\
  ((1 < 2)%nat ->
   exists out,
      JumpToGrid [0; 5; 10] [1; 2] [5] [(1 + 2) / 2] [1] = Ok out /\
      forall i j, (j < 2)%nat ->
        nth (i * 2 + j) out 0
        == if ((i =? 1) && ((j =? 0) || (j =? 1)))%nat then 1 # 2 else 0).
Proof.
  apply (JumpToGrid_exact_on_grid [0; 5; 10] [1; 2] 1 0).
  - repeat split; simpl; lia.
  - simpl; lia.
  - simpl; lia.
Defined.

(** ** The column loop of [CalcTransitionMatrix] *)

Lemma zip_with_length (f : Q -> Q -> Q) (a b : list Q) :
  length a = length b -> length (np.zip_with f a b) = length a.
Proof.
  revert b; induction a as [|x a IH]; intros [|y b] H; simpl in *;
    try discriminate; auto.
Qed.

Lemma zip_with_map (f g : Q -> Q) (h : Q -> Q -> Q) (a b : list Q) :
  np.zip_with h (map f a) (map g b) = np.zip_with (fun x y => h (f x) (g y)) a b.
Proof.
  revert b; induction a as [|x a IH]; intros [|y b]; simpl; auto.
  now rewrite IH.
Qed.

Lemma broadcast_same (f : Q -> Q -> Q) (a b : list Q) :
  length a = length b -> np.broadcast f a b = Ok (np.zip_with f a b).
Proof.
  intros H. unfold np.broadcast. rewrite H, Nat.eqb_refl. reflexivity.
Qed.

Lemma nth_map_Q (f : Q -> Q) (a : list Q) (i : nat) :
  (i < length a)%nat -> nth i (map f a) 0 = f (nth i a 0).
Proof.
  intros H. rewrite (nth_indep _ 0 (f 0)) by (now rewrite length_map).
  apply map_nth.
Qed.

(** [M[:, k] = col] on a matrix with [c] columns and as many rows as [col]
    has entries: column [k] becomes [col], the others stay, so does the
    shape. *)
Lemma set_col_spec (r c : nat) (T : list (list Q)) (k : nat) (col : list Q) :
  rect r c T -> length col = r -> (k < c)%nat ->
  exists T', np.set_col c T (Z.of_nat k) col = Ok T' /\
             rect r c T' /\
             np.get_col T' k = col /\
             forall k', k' <> k -> np.get_col T' k' = np.get_col T k'.
Proof.
  intros [Hl Hf] Hc Hk. unfold np.set_col.
  rewrite py_index_nat by exact Hk. simpl.
  replace (length col =? length T)%nat with true
    by (symmetry; apply Nat.eqb_eq; congruence).
  eexists; split; [reflexivity|].
  subst r. unfold rect, np.get_col.
  revert col Hc; induction Hf as [|row T Hrow Hrest IH]; intros [|x col] Hc;
    simpl in Hc; try discriminate.
  - simpl. repeat split; auto.
  - destruct (IH col ltac:(congruence)) as ((L & F) & G & O).
    cbn [combine map fst snd length]. repeat split.
    + now rewrite L.
    + constructor; [now rewrite set_nth_length | exact F].
    + f_equal; [apply set_nth_same; now rewrite Hrow | exact G].
    + intros k' Hk'. f_equal; [now apply set_nth_other | now apply O].
Qed.

Lemma zip_with_map_l (f : Q -> Q) (h : Q -> Q -> Q) (a b : list Q) :
  np.zip_with h (map f a) b = np.zip_with (fun x y => h (f x) y) a b.
Proof.
  revert b; induction a as [|x a IH]; intros [|y b]; simpl; auto.
  now rewrite IH.
Qed.

Lemma cell_number_lt (nm np' i j : nat) :
  (i < nm)%nat -> (j < np')%nat -> (i * np' + j < nm * np')%nat.
Proof. intros Hi Hj. nia. Qed.

Lemma cell_number_inj (np' i j i' j' : nat) :
  (j < np')%nat -> (j' < np')%nat ->
  (i * np' + j = i' * np' + j')%nat -> i = i' /\ j = j'.
Proof.
  intros Hj Hj' H.
  assert (Hi : i = ((i * np' + j) / np')%nat)
    by (apply (Nat.div_unique _ _ i j); [exact Hj | lia]).
  assert (Hi' : i' = ((i * np' + j) / np')%nat)
    by (apply (Nat.div_unique _ _ i' j'); [exact Hj' | rewrite H; lia]).
  assert (Hii : i = i') by congruence. clear Hi Hi'. subst i'.
  split; [reflexivity | lia].
Qed.

Section Columns.

Variables mGrid pGrid : list Q.
Variable cFunc : Q -> Q.
Variables Rfree LivPrb : Q.
Variables ShockProbs PermShocks TranShocks : list Q.
Variable NewBornDist : list Q.

Let nm := length mGrid.
Let np' := length pGrid.
Let N := (nm * np')%nat.
Let bNext := map (Qmult Rfree) (map (fun m => m - cFunc m) mGrid).
Let body :=
  CalcTransitionMatrix_body mGrid pGrid LivPrb ShockProbs PermShocks
    TranShocks bNext NewBornDist.

(** Column [i*len(pGrid)+j] of [T] is the blend for cell [(i,j)]. *)
Let column_of (T : list (list Q)) (i j : nat) : Prop :=
  exists survive,
    JumpToGrid mGrid pGrid (mNext mGrid cFunc Rfree PermShocks TranShocks i)
               (pNext pGrid PermShocks j) ShockProbs = Ok survive /\
    length survive = N /\
    np.get_col T (i * np' + j) = blend LivPrb survive NewBornDist.

Hypothesis grid_ok : StateGrid mGrid pGrid.
Hypothesis perm_length : length PermShocks = length ShockProbs.
Hypothesis tran_length : length TranShocks = length ShockProbs.
Hypothesis newborn_length : length NewBornDist = N.

Lemma CalcTransitionMatrix_body_spec (T : list (list Q)) (i j : nat) :
  rect N N T -> (i < nm)%nat -> (j < np')%nat ->
  exists T', body i j T = Ok T' /\ rect N N T' /\ column_of T' i j /\
             forall k, k <> (i * np' + j)%nat -> np.get_col T' k = np.get_col T k.
Proof.
  intros HT Hi Hj. unfold body, CalcTransitionMatrix_body.
  unfold getQ at 1. rewrite py_get_nat by (unfold bNext; now rewrite !length_map).
  simpl. unfold np.add at 1.
  rewrite broadcast_same by (rewrite length_map; congruence). simpl.
  unfold getQ at 1. rewrite py_get_nat by exact Hj. simpl.
  assert (Em : np.zip_with Qplus (map (fun psi => nth i bNext 0 / psi) PermShocks)
                 TranShocks
               = mNext mGrid cFunc Rfree PermShocks TranShocks i).
  { unfold bNext, mNext. rewrite zip_with_map_l.
    rewrite nth_map_Q by (now rewrite length_map).
    rewrite (nth_map_Q (fun m => m - cFunc m)) by exact Hi. reflexivity. }
  rewrite Em. fold (pNext pGrid PermShocks j).
  destruct (JumpToGrid_cells mGrid pGrid
              (mNext mGrid cFunc Rfree PermShocks TranShocks i)
              (pNext pGrid PermShocks j) ShockProbs grid_ok)
    as (survive & E & L & _).
  { unfold pNext, mNext. rewrite length_map, zip_with_length; congruence. }
  { unfold mNext. rewrite zip_with_length; congruence. }
  rewrite E. simpl. unfold np.add.
  rewrite broadcast_same by (rewrite !length_map, L, newborn_length; reflexivity).
  simpl. rewrite zip_with_map. fold (blend LivPrb survive NewBornDist).
  replace (Z.of_nat i * Z.of_nat (length pGrid) + Z.of_nat j)%Z
    with (Z.of_nat (i * np' + j)) by (unfold np'; lia).
  destruct (set_col_spec N N T (i * np' + j) (blend LivPrb survive NewBornDist) HT)
    as (T' & ET & RT & GT & OT).
  { unfold blend. rewrite zip_with_length; rewrite L; [reflexivity | now rewrite newborn_length]. }
  { now apply cell_number_lt. }
  exists T'. fold nm np' N. split; [exact ET|]. split; [exact RT|].
  split; [|exact OT].
  exists survive. split; [exact E|]. split; [exact L | exact GT].
Qed.

(** The inner loop, over [j]. *)
Lemma CalcTransitionMatrix_inner (i n s : nat) (T : list (list Q)) :
  rect N N T -> (i < nm)%nat -> (s + n <= np')%nat ->
  exists T', for_each (body i) (seq s n) T = Ok T' /\ rect N N T' /\
             (forall j, (s <= j < s + n)%nat -> column_of T' i j) /\
             forall k, (forall j, (s <= j < s + n)%nat -> k <> (i * np' + j)%nat) ->
                       np.get_col T' k = np.get_col T k.
Proof.
  intros HT Hi. revert s T HT; induction n as [|n IH]; intros s T HT Hn.
  - exists T. split; [reflexivity|]. split; [exact HT|].
    split; [intros j Hj; lia | reflexivity].
  - destruct (CalcTransitionMatrix_body_spec T i s HT Hi ltac:(lia))
      as (T1 & E1 & R1 & C1 & O1).
    destruct (IH (S s) T1 R1 ltac:(lia)) as (T2 & E2 & R2 & C2 & O2).
    exists T2. cbn [seq for_each]. rewrite E1. simpl.
    split; [exact E2|]. split; [exact R2|]. split.
    + intros j Hj. destruct (Nat.eq_dec j s) as [->|Hne].
      * destruct C1 as (sv & Es & Ls & Gs). exists sv.
        split; [exact Es|]. split; [exact Ls|]. rewrite <- Gs.
        apply O2. intros j' Hj'. lia.
      * apply C2. lia.
    + intros k Hk. rewrite O2 by (intros j Hj; apply Hk; lia).
      apply O1. apply Hk. lia.
Qed.

(** The outer loop, over [i]. *)
Lemma CalcTransitionMatrix_outer (n s : nat) (T : list (list Q)) :
  rect N N T -> (s + n <= nm)%nat ->
  exists T',
    for_each (fun i T => for_each (body i) (range np') T) (seq s n) T = Ok T' /\
    rect N N T' /\
    (forall i j, (s <= i < s + n)%nat -> (j < np')%nat -> column_of T' i j) /\
    forall k, (forall i j, (s <= i < s + n)%nat -> (j < np')%nat ->
                           k <> (i * np' + j)%nat) ->
              np.get_col T' k = np.get_col T k.
Proof.
  revert s T; induction n as [|n IH]; intros s T HT Hn.
  - exists T. split; [reflexivity|]. split; [exact HT|].
    split; [intros i j Hi; lia | reflexivity].
  - destruct (CalcTransitionMatrix_inner s np' 0 T HT ltac:(lia) ltac:(lia))
      as (T1 & E1 & R1 & C1 & O1).
    destruct (IH (S s) T1 R1 ltac:(lia)) as (T2 & E2 & R2 & C2 & O2).
    exists T2. cbn [seq for_each]. unfold range at 1. rewrite E1. simpl.
    split; [exact E2|]. split; [exact R2|]. split.
    + intros i j Hi Hj. destruct (Nat.eq_dec i s) as [->|Hne].
      * destruct (C1 j ltac:(lia)) as (sv & Es & Ls & Gs). exists sv.
        split; [exact Es|]. split; [exact Ls|]. rewrite <- Gs.
        apply O2. intros i' j' Hi' Hj' C.
        apply cell_number_inj in C; [lia | exact Hj | exact Hj'].
      * apply C2; [lia | exact Hj].
    + intros k Hk. rewrite O2 by (intros i j Hi Hj; apply Hk; [lia | exact Hj]).
      apply O1. intros j Hj. apply Hk; lia.
Qed.

End Columns.

(** [CalcTransitionMatrix] returns, and every column of its matrix is the
    blend of the projected survivor distribution with the newborn one. *)
Lemma CalcTransitionMatrix_columns (mGrid pGrid : list Q) (cFunc : Q -> Q)
    (Rfree LivPrb : Q) (ShockProbs PermShocks TranShocks : list Q) :
  StateGrid mGrid pGrid ->
  length PermShocks = length ShockProbs ->
  length TranShocks = length ShockProbs ->
  exists tr NewBornDist,
    CalcTransitionMatrix mGrid pGrid cFunc Rfree LivPrb ShockProbs PermShocks
                         TranShocks = Ok tr /\
    JumpToGrid mGrid pGrid TranShocks (np.ones_like TranShocks) ShockProbs
    = Ok NewBornDist /\
    length NewBornDist = (length mGrid * length pGrid)%nat /\
    rect (length mGrid * length pGrid) (length mGrid * length pGrid)
         (TranMatrix tr) /\
    forall i j, (i < length mGrid)%nat -> (j < length pGrid)%nat ->
      exists survive,
        JumpToGrid mGrid pGrid (mNext mGrid cFunc Rfree PermShocks TranShocks i)
                   (pNext pGrid PermShocks j) ShockProbs = Ok survive /\
        length survive = (length mGrid * length pGrid)%nat /\
        np.get_col (TranMatrix tr) (i * length pGrid + j)
        = blend LivPrb survive NewBornDist.
Proof.
  intros HG Hperm Htran.
  destruct (JumpToGrid_cells mGrid pGrid TranShocks (np.ones_like TranShocks)
              ShockProbs HG) as (NB & ENB & LNB & _).
  { unfold np.ones_like. now rewrite length_map. }
  { congruence. }
  destruct (CalcTransitionMatrix_outer mGrid pGrid cFunc Rfree LivPrb ShockProbs
              PermShocks TranShocks NB HG Hperm Htran LNB (length mGrid) 0
              (np.zeros (length mGrid * length pGrid) (length mGrid * length pGrid))
              (rect_zeros _ _) ltac:(lia))
    as (T & ET & RT & CT & _).
  exists (mkTransition (map (fun m => m - cFunc m) mGrid) (map cFunc mGrid) T), NB.
  split; [|split; [exact ENB | split; [exact LNB | split; [exact RT|]]]].
  - unfold CalcTransitionMatrix. rewrite ENB. simpl.
    unfold range at 2. rewrite ET. reflexivity.
  - intros i j Hi Hj. apply CT; [lia | exact Hj].
Qed.

(** C3.  For a StateGrid and a shock distribution, [CalcTransitionMatrix]
    returns; the newborn distribution is [JumpToGrid] of the transitory
    shocks with permanent income 1, and for every cell [(i,j)] column
    [i*len(pGrid)+j] of the matrix is
    [s * JumpToGrid(m', p', probs) + (1-s) * NewBornDist] with
    [m' = R*(m_i - cFunc(m_i))/psi_k + xi_k] and [p' = pGrid[j]*psi_k]. *)
Theorem CalcTransitionMatrix_column (mGrid pGrid : list Q) (cFunc : Q -> Q)
    (Rfree LivPrb : Q) (ShockProbs PermShocks TranShocks : list Q) :
  StateGrid mGrid pGrid ->
  ShockDistribution ShockProbs PermShocks TranShocks ->
  exists tr NewBornDist,
    CalcTransitionMatrix mGrid pGrid cFunc Rfree LivPrb ShockProbs PermShocks
                         TranShocks = Ok tr /\
    JumpToGrid mGrid pGrid TranShocks (map (fun _ => 1) TranShocks) ShockProbs
    = Ok NewBornDist /\
    forall i j, (i < length mGrid)%nat -> (j < length pGrid)%nat ->
      exists survive,
        JumpToGrid mGrid pGrid
          (np.zip_with
             (fun psi xi =>
                Rfree * (nth i mGrid 0 - cFunc (nth i mGrid 0)) / psi + xi)
             PermShocks TranShocks)
          (map (fun psi => nth j pGrid 0 * psi) PermShocks)
          ShockProbs = Ok survive /\
        np.get_col (TranMatrix tr) (i * length pGrid + j)
        = np.zip_with (fun d n => LivPrb * d + (1 - LivPrb) * n)
                      survive NewBornDist.
Proof.
  intros HG (Hperm & Htran & _).
  destruct (CalcTransitionMatrix_columns mGrid pGrid cFunc Rfree LivPrb
              ShockProbs PermShocks TranShocks HG Hperm Htran)
    as (tr & NB & E & ENB & _ & _ & C).
  exists tr, NB. split; [exact E|]. split; [exact ENB|].
  intros i j Hi Hj. destruct (C i j Hi Hj) as (sv & Es & _ & Gs).
  exists sv. split; [exact Es | exact Gs].
Qed.

Lemma CalcTransitionMatrix_column_witness :
  exists tr NewBornDist,
    CalcTransitionMatrix [0; 5; 10] [1; 2] (fun m => m / 2) 1 (9 # 10)
                         [1 # 2; 1 # 2] [1; 1] [0; 1] = Ok tr /\
    JumpToGrid [0; 5; 10] [1; 2] [0; 1] (map (fun _ => 1) [0; 1]) [1 # 2; 1 # 2]
    = Ok NewBornDist /\
    forall i j, (i < 3)%nat -> (j < 2)%nat ->
      exists survive,
        JumpToGrid [0; 5; 10] [1; 2]
          (np.zip_with
             (fun psi xi =>
                1 * (nth i [0; 5; 10] 0 - (fun m => m / 2) (nth i [0; 5; 10] 0))
                / psi + xi)
             [1; 1] [0; 1])
          (map (fun psi => nth j [1; 2] 0 * psi) [1; 1])
          [1 # 2; 1 # 2] = Ok survive /\
        np.get_col (TranMatrix tr) (i * 2 + j)
        = np.zip_with (fun d n => (9 # 10) * d + (1 - (9 # 10)) * n)
                      survive NewBornDist.
Proof.
  apply (CalcTransitionMatrix_column [0; 5; 10] [1; 2] (fun m => m / 2) 1 (9 # 10)
           [1 # 2; 1 # 2] [1; 1] [0; 1]).
  - repeat split; simpl; lia.
  - repeat split; repeat constructor.
Defined.

(** ** Columns are probability distributions *)

Lemma JumpToGrid_distribution (mGrid pGrid m_vals perm_vals probs : list Q) :
  StateGrid mGrid pGrid ->
  length perm_vals = length m_vals ->
  length probs = length m_vals ->
  Forall (fun x => 0 <= x) probs ->
  forall out, JumpToGrid mGrid pGrid m_vals perm_vals probs = Ok out ->
              Forall (fun x => 0 <= x) out /\ np.sum out == np.sum probs.
Proof.
  intros HG Hp Hpr Hnn out E.
  destruct (StateGrid_nonempty _ _ HG) as (Nm & Np & _ & _).
  destruct (JumpToGrid_cells mGrid pGrid m_vals perm_vals probs HG Hp Hpr)
    as (out' & E' & L & M & C).
  rewrite E in E'. injection E' as <-.
  split; [|exact M].
  apply Forall_forall. intros x Hx.
  destruct (In_nth out x 0 Hx) as (k & Hk & <-).
  assert (Hpos : length pGrid <> O) by (destruct pGrid; [congruence | discriminate]).
  assert (Hb : (k mod length pGrid < length pGrid)%nat)
    by (apply Nat.mod_upper_bound; exact Hpos).
  rewrite (Nat.div_mod_eq k (length pGrid)).
  rewrite (Nat.mul_comm (length pGrid)).
  rewrite (C _ _ Hb).
  apply sum_map_nonneg. intros s Hs.
  assert (0 <= nth s probs 0).
  { rewrite Forall_forall in Hnn. apply Hnn, nth_In.
    rewrite Hpr. apply in_range, Hs. }
  pose proof (weight_at_nonneg mGrid (nth s m_vals 0) (k / length pGrid) Nm).
  pose proof (weight_at_nonneg pGrid (nth s perm_vals 0) (k mod length pGrid) Np).
  apply Qmult_le_0_compat; [apply Qmult_le_0_compat|]; assumption.
Qed.

Lemma sum_blend (s : Q) (a b : list Q) :
  length a = length b ->
  np.sum (blend s a b) == s * np.sum a + (1 - s) * np.sum b.
Proof.
  unfold blend. revert b; induction a as [|x a IH]; intros [|y b] H;
    simpl in *; try discriminate.
  - ring.
  - rewrite IH by congruence. ring.
Qed.

Lemma blend_nonneg (s : Q) (a b : list Q) :
  0 <= s <= 1 ->
  Forall (fun x => 0 <= x) a -> Forall (fun x => 0 <= x) b ->
  Forall (fun x => 0 <= x) (blend s a b).
Proof.
  intros Hs Ha. unfold blend.
  revert b; induction Ha as [|x a Hx Ha IH]; intros b Hb; simpl; [constructor|].
  destruct Hb as [|y b Hy Hb]; constructor.
  - nra.
  - now apply IH.
Qed.

Lemma entry_le_sum (a : list Q) :
  Forall (fun x => 0 <= x) a -> Forall (fun x => 0 <= x <= np.sum a) a.
Proof.
  induction 1 as [|x a Hx Ha IH]; simpl; constructor.
  - assert (0 <= np.sum a).
    { clear IH. induction Ha as [|y a Hy Ha IH]; simpl; lra. }
    lra.
  - eapply Forall_impl; [|exact IH]. simpl. intros y Hy. lra.
Qed.

(** C1.  For a StateGrid, a shock distribution whose probabilities are
    non-negative and sum to 1 and a survival probability in [0,1],
    [CalcTransitionMatrix] returns a square matrix over the cells in which
    every column has all its entries in [0,1] and sums to 1. *)
Theorem CalcTransitionMatrix_column_stochastic (mGrid pGrid : list Q)
    (cFunc : Q -> Q) (Rfree LivPrb : Q)
    (ShockProbs PermShocks TranShocks : list Q) :
  StateGrid mGrid pGrid ->
  ShockDistribution ShockProbs PermShocks TranShocks ->
  Forall (fun x => 0 <= x) ShockProbs ->
  np.sum ShockProbs == 1 ->
  0 <= LivPrb <= 1 ->
  exists tr,
    CalcTransitionMatrix mGrid pGrid cFunc Rfree LivPrb ShockProbs PermShocks
                         TranShocks = Ok tr /\
    rect (length mGrid * length pGrid) (length mGrid * length pGrid)
         (TranMatrix tr) /\
    forall k, (k < length mGrid * length pGrid)%nat ->
      Forall (fun x => 0 <= x <= 1) (np.get_col (TranMatrix tr) k) /\
      np.sum (np.get_col (TranMatrix tr) k) == 1.
Proof.
  intros HG (Hperm & Htran & _) Hnn Hone Hs.
  destruct (CalcTransitionMatrix_columns mGrid pGrid cFunc Rfree LivPrb
              ShockProbs PermShocks TranShocks HG Hperm Htran)
    as (tr & NB & E & ENB & LNB & RT & C).
  exists tr. split; [exact E|]. split; [exact RT|].
  intros k Hk.
  assert (Hpos : length pGrid <> O) by (intros Z; rewrite Z in Hk; lia).
  assert (Hj : (k mod length pGrid < length pGrid)%nat)
    by (apply Nat.mod_upper_bound; exact Hpos).
  assert (Hi : (k / length pGrid < length mGrid)%nat)
    by (apply Nat.Div0.div_lt_upper_bound; lia).
  destruct (C _ _ Hi Hj) as (sv & Es & Ls & Gs).
  rewrite (Nat.mul_comm (k / length pGrid)), <- Nat.div_mod_eq in Gs.
  rewrite Gs.
  destruct (JumpToGrid_distribution mGrid pGrid TranShocks
              (np.ones_like TranShocks) ShockProbs HG
              ltac:(unfold np.ones_like; now rewrite length_map)
              ltac:(congruence) Hnn NB ENB) as (NBnn & NBsum).
  destruct (JumpToGrid_distribution mGrid pGrid
              (mNext mGrid cFunc Rfree PermShocks TranShocks (k / length pGrid))
              (pNext pGrid PermShocks (k mod length pGrid)) ShockProbs HG
              ltac:(unfold pNext, mNext; rewrite length_map, zip_with_length;
                    congruence)
              ltac:(unfold mNext; rewrite zip_with_length; congruence)
              Hnn sv Es) as (SVnn & SVsum).
  assert (Hsum : np.sum (blend LivPrb sv NB) == 1).
  { rewrite sum_blend by congruence. rewrite SVsum, NBsum, Hone. ring. }
  split; [|exact Hsum].
  pose proof (entry_le_sum _ (blend_nonneg LivPrb sv NB Hs SVnn NBnn)) as Hle.
  eapply Forall_impl; [|exact Hle]. simpl. intros x Hx.
  rewrite Hsum in Hx. exact Hx.
Qed.

Lemma CalcTransitionMatrix_column_stochastic_witness :
  exists tr,
    CalcTransitionMatrix [0; 5; 10] [1; 2] (fun m => m / 2) 1 (9 # 10)
                         [1 # 2; 1 # 2] [1; 1] [0; 1] = Ok tr /\
    rect (3 * 2) (3 * 2) (TranMatrix tr) /\
    forall k, (k < 3 * 2)%nat ->
      Forall (fun x => 0 <= x <= 1) (np.get_col (TranMatrix tr) k) /\
      np.sum (np.get_col (TranMatrix tr) k) == 1.
Proof.
  apply (CalcTransitionMatrix_column_stochastic [0; 5; 10] [1; 2]
           (fun m => m / 2) 1 (9 # 10) [1 # 2; 1 # 2] [1; 1] [0; 1]).
  - repeat split; simpl; lia.
  - repeat split; repeat constructor.
  - repeat constructor; discriminate.
  - reflexivity.
  - split; discriminate.
Defined.

(** ** The stationary distribution *)

Lemma sum_map_scale (c : Q) (a : list Q) :
  np.sum (map (fun x => x / c) a) == np.sum a / c.
Proof.
  induction a as [|x a IH]; simpl.
  - unfold Qdiv. ring.
  - rewrite IH. unfold Qdiv. ring.
Qed.

Lemma dot_scale (c : Q) (row a : list Q) :
  np.dot row (map (fun x => x / c) a) == np.dot row a / c.
Proof.
  unfold np.dot. revert a; induction row as [|r row IH]; intros [|x a]; simpl;
    try (unfold Qdiv; ring).
  rewrite IH. unfold Qdiv. ring.
Qed.

Lemma matvec_length (M : list (list Q)) (x : list Q) :
  length (np.matvec M x) = length M.
Proof. unfold np.matvec. apply length_map. Qed.

Lemma nth_matvec (M : list (list Q)) (x : list Q) (k : nat) :
  nth k (np.matvec M x) 0 == np.dot (nth k M []) x.
Proof.
  unfold np.matvec. revert k; induction M as [|row M IH]; intros [|k]; simpl;
    try reflexivity. apply IH.
Qed.

(** Summing [M x] weighs each entry of [x] with its column sum. *)
Lemma sum_matvec (n : nat) (M : list (list Q)) (x : list Q) :
  Forall (fun row => length row = n) M -> length x = n ->
  np.sum (np.matvec M x)
  == np.sum (map (fun k => np.sum (np.get_col M k) * nth k x 0) (range n)).
Proof.
  intros Hf Hx. induction Hf as [|row M Hrow HM IH].
  - simpl. rewrite (sum_map_ext _ (fun _ => 0)) by (intros; simpl; ring).
    clear. induction (range n); simpl; [reflexivity | lra].
  - cbn [np.matvec map np.sum fold_right]. fold (np.matvec M x).
    fold (np.sum (np.matvec M x)). rewrite IH.
    rewrite <- (sum_range_dot row x) by congruence. rewrite Hrow.
    clear. induction (range n) as [|k l IHl]; simpl; [ring|].
    rewrite <- IHl. ring.
Qed.

Lemma sum_matvec_stochastic (n : nat) (M : list (list Q)) (x : list Q) :
  column_stochastic n M -> length x = n ->
  np.sum (np.matvec M x) == np.sum x.
Proof.
  intros [[Hl Hf] Hc] Hx. rewrite (sum_matvec n) by assumption.
  rewrite <- (sum_range_nth x), Hx.
  apply sum_map_ext. intros k Hk.
  destruct (Hc k (in_range _ _ Hk)) as [_ ->]. ring.
Qed.

Lemma sum_range_linear (a b : Q) (x y : list Q) (n : nat) :
  length x = n -> length y = n ->
  np.sum (map (fun k => a * nth k x 0 + b * nth k y 0) (range n))
  == a * np.sum x + b * np.sum y.
Proof.
  intros Hx Hy. rewrite <- (sum_range_nth x), <- (sum_range_nth y), Hx, Hy.
  induction (range n) as [|k l IH]; simpl; [ring|]. rewrite IH. ring.
Qed.

Lemma sum_as_range (a : list Q) (f : nat -> Q) :
  (forall k, nth k a 0 == f k) ->
  np.sum a == np.sum (map f (range (length a))).
Proof.
  intros H. rewrite <- sum_range_nth. apply sum_map_ext. intros k _. apply H.
Qed.

(** An eigenvector of a column-stochastic matrix whose real part does not
    sum to zero belongs to the eigenvalue 1, and its real part is a fixed
    point. *)
Lemma stochastic_eigenvalue_one (n : nat) (M : list (list Q))
    (lambda : complex) (v : list complex) :
  column_stochastic n M -> eigenpair M lambda v ->
  ~ np.sum (re v) == 0 ->
  fst lambda == 1 /\ snd lambda == 0 /\ vec_eq (np.matvec M (re v)) (re v).
Proof.
  intros HM (Hl & Hre & Him) Hs.
  assert (Hn : length M = n) by apply HM.
  assert (Lr : length (re v) = n)
    by (unfold re; rewrite length_map; transitivity (length M); [exact Hl | exact Hn]).
  assert (Li : length (im v) = n)
    by (unfold im; rewrite length_map; transitivity (length M); [exact Hl | exact Hn]).
  pose proof (sum_matvec_stochastic n M (re v) HM Lr) as Sr.
  pose proof (sum_matvec_stochastic n M (im v) HM Li) as Si.
  rewrite (sum_as_range _ _ Hre), matvec_length, Hn in Sr.
  rewrite (sum_as_range _ _ Him), matvec_length, Hn in Si.
  rewrite (sum_map_ext _ (fun k => fst lambda * nth k (re v) 0
                                   + (- snd lambda) * nth k (im v) 0)) in Sr
    by (intros; ring).
  rewrite sum_range_linear in Sr by assumption.
  rewrite sum_range_linear in Si by assumption.
  set (a := fst lambda) in *. set (b := snd lambda) in *.
  set (sr := np.sum (re v)) in *. set (si := np.sum (im v)) in *.
  assert (Hb : b == 0).
  { assert (E : b * (sr * sr + si * si) == 0).
    { transitivity (sr * (a * si + b * sr) - si * (a * sr + - b * si)).
      - ring.
      - rewrite Sr, Si. ring. }
    assert (Hpos : 0 < sr * sr + si * si) by nra.
    destruct (Qmult_integral _ _ E) as [H|H]; [exact H | lra]. }
  assert (Ha : a == 1).
  { rewrite Hb in Sr.
    assert (E : (a - 1) * sr == 0) by lra.
    destruct (Qmult_integral _ _ E) as [H|H]; [lra | contradiction]. }
  split; [exact Ha | split; [exact Hb|]].
  split; [rewrite matvec_length; congruence|].
  intros k. rewrite Hre. fold a b. rewrite Ha, Hb. ring.
Qed.

Lemma np_divide_finite (x s : Q) : ~ s == 0 -> np_divide x s = Finite (x / s).
Proof.
  intros H. unfold np_divide. destruct (Qeq_bool s 0) eqn:E; [|reflexivity].
  apply Qeq_bool_iff in E. contradiction.
Qed.

Lemma np_divide_zero (x s : Q) : s == 0 -> np_divide x s = NonFinite.
Proof.
  intros H. unfold np_divide. now rewrite (proj2 (Qeq_bool_iff s 0) H).
Qed.

Lemma reshape_ok {A : Type} (a : list A) (r c : nat) :
  length a = (r * c)%nat -> reshape a r c = Ok (chunks c a r).
Proof.
  intros H. unfold reshape. now rewrite H, Nat.eqb_refl.
Qed.

(** Without any check, [CalcErgodicDist] returns whatever the solver's
    eigenvector normalises to. *)
Lemma CalcErgodicDist_returns
    (eigs : list (list Q) -> result (complex * list complex))
    (T : list (list Q)) (len_mGrid len_pGrid : nat)
    (lambda : complex) (v : list complex) :
  eigs T = Ok (lambda, v) ->
  length v = (len_mGrid * len_pGrid)%nat ->
  exists r, CalcErgodicDist eigs T len_mGrid len_pGrid = Ok r /\
            vec_dstn r = map (fun x => np_divide x (np.sum (re v))) (re v).
Proof.
  intros He Hl. unfold CalcErgodicDist. rewrite He. simpl.
  rewrite reshape_ok by (now rewrite !length_map).
  simpl. eexists; split; reflexivity.
Qed.

Lemma norm_step (a b x y x' y' : Q) :
  x' == a * x - b * y -> y' == a * y + b * x ->
  x' * x' + y' * y' == (a * a + b * b) * (x * x + y * y).
Proof. intros -> ->. ring. Qed.

Lemma modulus_le_one (m n n' : Q) :
  0 <= m -> n' == m * n -> n == m * n' -> 0 < n \/ 0 < n' -> m <= 1.
Proof.
  intros Hm H1 H2 H.
  assert (Hn : 0 < n).
  { destruct H as [H|H]; [exact H|]. rewrite H1 in H. nra. }
  assert (E : n * (m * m - 1) == 0) by (rewrite H1 in H2; lra).
  destruct (Qmult_integral _ _ E) as [C|C]; [lra|]. nra.
Qed.

(** The chain that swaps the two market-resource points.  With grids
    [[1,2]] and [[1,2]], interest factor 2, no mortality, the single shock
    [(psi, xi) = (1, 0)] and a policy that consumes nothing at [m=1] and 3/2
    at [m=2], [CalcTransitionMatrix] builds the matrix below.  Its columns
    are distributions, and [-1] is one of its eigenvalues of largest
    magnitude, with eigenvector [(1,1,-1,-1)]. *)
Lemma swap_chain :
  let T := [[0; 0; 1; 0]; [0; 0; 0; 1]; [1; 0; 0; 0]; [0; 1; 0; 0]] in
  let lambda : complex := (-1, 0) in
  let v : list complex := [(1, 0); (1, 0); (-1, 0); (-1, 0)] in
  (exists tr,
      CalcTransitionMatrix [1; 2] [1; 2]
        (fun m => if Qeq_bool m 1 then 0 else 3 # 2) 2 1 [1] [1] [0] = Ok tr /\
      TranMatrix tr = T) /\
  column_stochastic 4 T /\
  eigenpair T lambda v /\
  largest_magnitude T lambda.
Proof.
  cbv zeta. split; [|split; [|split]].
  - eexists. split; [vm_compute; reflexivity | reflexivity].
  - split; [split; [reflexivity | repeat constructor]|].
    intros k Hk.
    do 4 (destruct k as [|k]; [split; [repeat constructor; discriminate | reflexivity]|]).
    simpl in Hk. lia.
  - split; [reflexivity|].
    split; intros k; do 4 (destruct k as [|k]; [reflexivity|]); destruct k; reflexivity.
  - intros [a b] w (Hl & Hre & Him) [k Hk].
    destruct w as [|[x0 y0] [|[x1 y1] [|[x2 y2] [|[x3 y3] [|? ?]]]]];
      try discriminate Hl.
    pose proof (Hre 0%nat) as R0. pose proof (Hre 1%nat) as R1.
    pose proof (Hre 2%nat) as R2. pose proof (Hre 3%nat) as R3.
    pose proof (Him 0%nat) as I0. pose proof (Him 1%nat) as I1.
    pose proof (Him 2%nat) as I2. pose proof (Him 3%nat) as I3.
    clear Hre Him Hl. cbn in R0, R1, R2, R3, I0, I1, I2, I3.
    assert (N20 : x2 * x2 + y2 * y2 == (a * a + b * b) * (x0 * x0 + y0 * y0))
      by (apply norm_step; lra).
    assert (N02 : x0 * x0 + y0 * y0 == (a * a + b * b) * (x2 * x2 + y2 * y2))
      by (apply norm_step; lra).
    assert (N31 : x3 * x3 + y3 * y3 == (a * a + b * b) * (x1 * x1 + y1 * y1))
      by (apply norm_step; lra).
    assert (N13 : x1 * x1 + y1 * y1 == (a * a + b * b) * (x3 * x3 + y3 * y3))
      by (apply norm_step; lra).
    assert (Hm : 0 <= a * a + b * b) by nra.
    unfold cnorm2 in *. cbn [fst snd] in *.
    assert (Hone : a * a + b * b <= 1).
    { destruct k as [|[|[|[|k]]]]; cbn in Hk.
      - apply (modulus_le_one _ _ _ Hm N20 N02). left. exact Hk.
      - apply (modulus_le_one _ _ _ Hm N31 N13). left. exact Hk.
      - apply (modulus_le_one _ _ _ Hm N20 N02). right. exact Hk.
      - apply (modulus_le_one _ _ _ Hm N31 N13). right. exact Hk.
      - destruct k; cbn in Hk; lra. }
    lra.
Qed.

Lemma map_Finite_inj (a b : list Q) : map Finite a = map Finite b -> a = b.
Proof.
  revert b; induction a as [|x a IH]; intros [|y b] H; simpl in H;
    try discriminate; [reflexivity|].
  injection H as -> H. f_equal. now apply IH.
Qed.

(** What [CalcErgodicDist] stores when the solver answers the swap chain
    with the eigenvalue [-1] and the vector [(1+d, 1, -1, -1)], [d <> 0]. *)
Lemma swap_chain_normalised (d : Q) :
  ~ d == 0 ->
  let T := [[0; 0; 1; 0]; [0; 0; 0; 1]; [1; 0; 0; 0]; [0; 1; 0; 0]] in
  let v : list complex := [(1 + d, 0); (1, 0); (-1, 0); (-1, 0)] in
  let pi := map (fun x => x / np.sum (re v)) (re v) in
  map (fun x => np_divide x (np.sum (re v))) (re v) = map Finite pi /\
  np.sum pi == 1 /\
  vec_eq pi [(1 + d) / d; 1 / d; - (1 / d); - (1 / d)] /\
  nth 1 pi 0 - nth 1 (np.matvec T pi) 0 == 2 / d.
Proof.
  intros Hd. cbv zeta.
  change (re [(1 + d, 0); (1, 0); (-1, 0); (-1, 0)]) with [1 + d; 1; -1; -1].
  set (s := np.sum [1 + d; 1; -1; -1]).
  assert (Hs : s == d) by (unfold s, np.sum; cbn [fold_right]; ring).
  assert (Hnz : ~ s == 0) by (rewrite Hs; exact Hd).
  split; [|split; [|split]].
  - rewrite map_map. apply map_ext. intros x. now apply np_divide_finite.
  - rewrite sum_map_scale. fold s. field. exact Hnz.
  - split; [reflexivity|].
    intros k. do 4 (destruct k as [|k]; [cbn [nth map]; rewrite Hs;
                                         field; exact Hd|]).
    destruct k; reflexivity.
  - rewrite nth_matvec. cbn [nth map]. unfold np.dot. cbn [np.zip_with].
    unfold np.sum. cbn [fold_right]. rewrite Hs. field. exact Hd.
Qed.

(** C7.  The docstring of [CalcErgodicDist] promises the eigenvector of the
    eigenvalue 1; the call asks the solver for the eigenvalue of largest
    magnitude.  On the swap chain [-1] is such an eigenvalue.  Let the
    solver answer with [-1] and the vector [(1+d, 1, -1, -1)], which misses
    the exact eigenvector by [d] (residual [(d, 0, d, 0)]).  With [d = 0]
    the sum of the real part is zero and no stored entry is finite.  With
    [d <> 0] the stored vector is finite and sums to 1, but it has entries
    of both signs of size [1/d], and one step of the chain moves its second
    entry by [2/d].  In neither case is the stored vector a distribution
    that the matrix leaves fixed. *)
Theorem CalcErgodicDist_eigenvalue_minus_one (d : Q) :
  let T := [[0; 0; 1; 0]; [0; 0; 0; 1]; [1; 0; 0; 0]; [0; 1; 0; 0]] in
  let v : list complex := [(1 + d, 0); (1, 0); (-1, 0); (-1, 0)] in
  (exists tr,
      CalcTransitionMatrix [1; 2] [1; 2]
        (fun m => if Qeq_bool m 1 then 0 else 3 # 2) 2 1 [1] [1] [0] = Ok tr /\
      TranMatrix tr = T) /\
  column_stochastic 4 T /\
  largest_magnitude T (-1, 0) /\
  vec_eq (residual T (-1) (re v)) [d; 0; d; 0] /\
  exists r,
    CalcErgodicDist (fun _ => Ok ((-1, 0), v)) T 2 2 = Ok r /\
    (d == 0 -> vec_dstn r = [NonFinite; NonFinite; NonFinite; NonFinite]) /\
    (~ d == 0 ->
     exists pi, vec_dstn r = map Finite pi /\
                np.sum pi == 1 /\
                vec_eq pi [(1 + d) / d; 1 / d; - (1 / d); - (1 / d)] /\
                nth 1 pi 0 - nth 1 (np.matvec T pi) 0 == 2 / d) /\
    ~ (exists pi, vec_dstn r = map Finite pi /\
                  np.sum pi == 1 /\
                  vec_eq (np.matvec T pi) pi).
Proof.
  cbv zeta. pose proof swap_chain as HS. cbv zeta in HS.
  destruct HS as (Hbuilt & Hstoch & _ & Hlm).
  split; [exact Hbuilt|]. split; [exact Hstoch|]. split; [exact Hlm|].
  set (T := [[0; 0; 1; 0]; [0; 0; 0; 1]; [1; 0; 0; 0]; [0; 1; 0; 0]]).
  set (v := [(1 + d, 0); (1, 0); (-1, 0); (-1, 0)] : list complex).
  split.
  { split; [reflexivity|].
    intros k.
    do 4 (destruct k as [|k];
          [unfold residual, np.matvec, np.dot, np.sum;
           cbn [nth map re v T fst np.zip_with fold_right]; ring|]).
    destruct k; reflexivity. }
  destruct (CalcErgodicDist_returns (fun _ => Ok ((-1, 0), v)) T 2 2 (-1, 0) v
              eq_refl eq_refl) as (r & Er & Vr).
  assert (Hs : np.sum [1 + d; 1; -1; -1] == d)
    by (unfold np.sum; cbn [fold_right]; ring).
  exists r. split; [exact Er|]. split; [|split].
  - intros Hd. rewrite Vr.
    change (re v) with [1 + d; 1; -1; -1]. cbn [map].
    rewrite !np_divide_zero by (rewrite Hs; exact Hd). reflexivity.
  - intros Hd.
    destruct (swap_chain_normalised d Hd) as (Hfin & Hsum & Hpi & Hmove).
    eexists. split; [rewrite Vr; exact Hfin|].
    split; [exact Hsum|]. split; [exact Hpi | exact Hmove].
  - intros (pi & Hpi & _ & Hfix).
    destruct (Qeq_dec d 0) as [Hd|Hd].
    + rewrite Vr in Hpi. change (re v) with [1 + d; 1; -1; -1] in Hpi.
      cbn [map] in Hpi.
      rewrite !np_divide_zero in Hpi by (rewrite Hs; exact Hd).
      destruct pi; discriminate Hpi.
    + destruct (swap_chain_normalised d Hd) as (Hfin & _ & _ & Hmove).
      fold v in Hfin, Hmove. rewrite Vr, Hfin in Hpi.
      apply map_Finite_inj in Hpi. subst pi.
      destruct Hfix as [_ Hfix]. fold T in Hmove. rewrite (Hfix 1%nat) in Hmove.
      assert (X : 2 / d * d == 2) by (field; exact Hd).
      assert (Z : 2 / d == 0) by (rewrite <- Hmove; ring).
      rewrite Z in X. lra.
Qed.

Lemma CalcErgodicDist_eigenvalue_minus_one_witness :
  exists r pi,
    CalcErgodicDist
      (fun _ => Ok ((-1, 0), [(1 + (1 # 1000000), 0); (1, 0); (-1, 0); (-1, 0)]))
      [[0; 0; 1; 0]; [0; 0; 0; 1]; [1; 0; 0; 0]; [0; 1; 0; 0]] 2 2 = Ok r /\
    vec_dstn r = map Finite pi /\
    np.sum pi == 1 /\
    nth 1 pi 0
    - nth 1 (np.matvec [[0; 0; 1; 0]; [0; 0; 0; 1]; [1; 0; 0; 0]; [0; 1; 0; 0]] pi) 0
    == 2 / (1 # 1000000).
Proof.
  destruct (CalcErgodicDist_eigenvalue_minus_one (1 # 1000000))
    as (_ & _ & _ & _ & r & Er & _ & H & _).
  destruct H as (pi & Hpi & Hsum & _ & Hmove); [discriminate|].
  exists r, pi. split; [exact Er|]. split; [exact Hpi|].
  split; [exact Hsum | exact Hmove].
Defined.

Lemma modulus_le_one4 (m n0 n1 n2 n3 : Q) :
  0 <= m -> n1 == m * n0 -> n2 == m * n1 -> n3 == m * n2 -> n0 == m * n3 ->
  0 < n0 \/ 0 < n1 \/ 0 < n2 \/ 0 < n3 -> m <= 1.
Proof.
  intros Hm H1 H2 H3 H0 H.
  assert (Hpos : 0 < m).
  { destruct (Qlt_le_dec 0 m) as [Q0|Q0]; [exact Q0|].
    assert (Z : m == 0) by lra. rewrite Z in H0, H1, H2, H3. lra. }
  assert (P3 : 0 < n3 -> 0 < n0) by (intros P; rewrite H0; nra).
  assert (P2 : 0 < n2 -> 0 < n3) by (intros P; rewrite H3; nra).
  assert (P1 : 0 < n1 -> 0 < n2) by (intros P; rewrite H2; nra).
  assert (Hn : 0 < n0) by (destruct H as [H|[H|[H|H]]]; auto).
  assert (E : n0 == (m * m) * ((m * m) * n0)).
  { rewrite H0 at 1. rewrite H3, H2, H1. ring. }
  apply (modulus_le_one (m * m) n0 ((m * m) * n0)) in E;
    [nra | nra | reflexivity | left; exact Hn].
Qed.

(** C8, counterexample.  The matrix of the 4-cycle is column-stochastic;
    [i] is an eigenvalue of largest magnitude with eigenvector
    [(1, -i, -1, i)].  Its imaginary part is as large as its real part, the
    real part sums to zero and has entries of both signs, and
    [CalcErgodicDist] returns all the same. *)
Lemma CalcErgodicDist_returns_on_complex :
  let T := [[0; 0; 0; 1]; [1; 0; 0; 0]; [0; 1; 0; 0]; [0; 0; 1; 0]] in
  let lambda : complex := (0, 1) in
  let v : list complex := [(1, 0); (0, -1); (-1, 0); (0, 1)] in
  column_stochastic 4 T /\
  eigenpair T lambda v /\
  largest_magnitude T lambda /\
  np.sum (map cnorm2 (map (fun y => (0, y)) (im v)))
  == np.sum (map cnorm2 (map (fun x => (x, 0)) (re v))) /\
  np.sum (re v) == 0 /\
  (exists r, CalcErgodicDist (fun _ => Ok (lambda, v)) T 2 2 = Ok r) /\
  ~ exists e, CalcErgodicDist (fun _ => Ok (lambda, v)) T 2 2 = Raise e.
Proof.
  cbv zeta. split; [|split; [|split; [|split; [|split; [|split]]]]].
  - split; [split; [reflexivity | repeat constructor]|].
    intros k Hk.
    do 4 (destruct k as [|k]; [split; [repeat constructor; discriminate | reflexivity]|]).
    simpl in Hk. lia.
  - split; [reflexivity|].
    split; intros k; do 4 (destruct k as [|k]; [reflexivity|]); destruct k; reflexivity.
  - intros [a b] w (Hl & Hre & Him) [k Hk].
    destruct w as [|[x0 y0] [|[x1 y1] [|[x2 y2] [|[x3 y3] [|? ?]]]]];
      try discriminate Hl.
    pose proof (Hre 0%nat) as R0. pose proof (Hre 1%nat) as R1.
    pose proof (Hre 2%nat) as R2. pose proof (Hre 3%nat) as R3.
    pose proof (Him 0%nat) as I0. pose proof (Him 1%nat) as I1.
    pose proof (Him 2%nat) as I2. pose proof (Him 3%nat) as I3.
    clear Hre Him Hl. cbn in R0, R1, R2, R3, I0, I1, I2, I3.
    assert (N1 : x0 * x0 + y0 * y0 == (a * a + b * b) * (x1 * x1 + y1 * y1))
      by (apply norm_step; lra).
    assert (N2 : x1 * x1 + y1 * y1 == (a * a + b * b) * (x2 * x2 + y2 * y2))
      by (apply norm_step; lra).
    assert (N3 : x2 * x2 + y2 * y2 == (a * a + b * b) * (x3 * x3 + y3 * y3))
      by (apply norm_step; lra).
    assert (N0 : x3 * x3 + y3 * y3 == (a * a + b * b) * (x0 * x0 + y0 * y0))
      by (apply norm_step; lra).
    assert (Hm : 0 <= a * a + b * b) by nra.
    unfold cnorm2 in *. cbn [fst snd] in *.
    assert (Hone : a * a + b * b <= 1).
    { apply (modulus_le_one4 _ _ _ _ _ Hm N0 N3 N2 N1).
      destruct k as [|[|[|[|k]]]]; cbn in Hk; auto.
      destruct k; cbn in Hk; lra. }
    lra.
  - reflexivity.
  - reflexivity.
  - eexists. reflexivity.
  - intros [e He]. discriminate He.
Qed.

(** C8 (as amended).  [CalcErgodicDist] does not look at the eigenvector it
    gets: for every eigenpair of the grid's size that the solver returns,
    whatever its imaginary part and its signs, the call returns the real
    parts divided by their sum, and when that sum is zero every entry of
    the result is non-finite.  It raises only what the solver raises. *)
Theorem CalcErgodicDist_unchecked
    (eigs : list (list Q) -> result (complex * list complex))
    (T : list (list Q)) (len_mGrid len_pGrid : nat) :
  (forall e, eigs T = Raise e ->
             CalcErgodicDist eigs T len_mGrid len_pGrid = Raise e) /\
  (forall lambda v,
      eigs T = Ok (lambda, v) ->
      length v = (len_mGrid * len_pGrid)%nat ->
      exists r,
        CalcErgodicDist eigs T len_mGrid len_pGrid = Ok r /\
        vec_dstn r = map (fun x => np_divide x (np.sum (re v))) (re v) /\
        (np.sum (re v) == 0 -> vec_dstn r = map (fun _ => NonFinite) v)).
Proof.
  split.
  - intros e He. unfold CalcErgodicDist. now rewrite He.
  - intros lambda v He Hl.
    destruct (CalcErgodicDist_returns eigs T len_mGrid len_pGrid lambda v He Hl)
      as (r & Er & Vr).
    exists r. split; [exact Er|]. split; [exact Vr|].
    intros Hz. rewrite Vr. unfold re. rewrite map_map.
    apply map_ext. intros z. now apply np_divide_zero.
Qed.

Lemma CalcErgodicDist_unchecked_witness :
  exists r,
    CalcErgodicDist (fun _ => Ok ((0, 1), [(1, 0); (0, -1); (-1, 0); (0, 1)]))
      [[0; 0; 0; 1]; [1; 0; 0; 0]; [0; 1; 0; 0]; [0; 0; 1; 0]] 2 2 = Ok r /\
    vec_dstn r = [NonFinite; NonFinite; NonFinite; NonFinite].
Proof.
  destruct (proj2 (CalcErgodicDist_unchecked
                     (fun _ => Ok ((0, 1), [(1, 0); (0, -1); (-1, 0); (0, 1)]))
                     [[0; 0; 0; 1]; [1; 0; 0; 0]; [0; 1; 0; 0]; [0; 0; 1; 0]] 2 2)
                  (0, 1) [(1, 0); (0, -1); (-1, 0); (0, 1)] eq_refl eq_refl)
    as (r & Er & _ & Vr).
  exists r. split; [exact Er|]. apply Vr. reflexivity.
Defined.

(** ** Defining the grid *)

Lemma truth_eq_None (x : Grid.pyval) :
  Grid.truth (Grid.eq_None x)
  = if Grid.long_array x then Raise ValueError
    else Ok (match x with Grid.PyNone => true | _ => false end).
Proof.
  destruct x as [|[|q [|q' a]]|a]; reflexivity.
Qed.

(** C9, counterexample.  With [cycles = 1] the call prints its message and
    returns normally: nothing is raised. *)
Lemma DefineDistributionGrid_returns_on_finite_horizon :
  Grid.DefineDistributionGrid (fun _ => Ok [1 # 2; 1; 2])
    (Grid.mkAgent 1 [0; 1; 2] None None []) Grid.PyNone Grid.PyNone
  = (Grid.mkAgent 1 [0; 1; 2] None None [Grid.message], Ok tt).
Proof. reflexivity. Qed.

(** C9 (as amended).  When [cycles != 0], [DefineDistributionGrid] prints
    one line saying that the distributional methods only work for
    [cycles=0] and returns normally, before any grid is built: no grid
    attribute is set or changed. *)
Theorem DefineDistributionGrid_finite_horizon
    (ergodic_pGrid : Grid.agent -> result (list Q)) (self : Grid.agent)
    (mGrid pGrid : Grid.pyval) :
  Grid.cycles self <> 0%Z ->
  exists self',
    Grid.DefineDistributionGrid ergodic_pGrid self mGrid pGrid = (self', Ok tt) /\
    Grid.stdout self' = (Grid.stdout self ++ [Grid.message])%list /\
    Grid.Dist_mGrid self' = Grid.Dist_mGrid self /\
    Grid.Dist_pGrid self' = Grid.Dist_pGrid self.
Proof.
  intros H. unfold Grid.DefineDistributionGrid.
  replace (Grid.cycles self =? 0)%Z with false by (symmetry; now apply Z.eqb_neq).
  simpl. eexists. split; [reflexivity|]. repeat split.
Qed.

Lemma DefineDistributionGrid_finite_horizon_witness :
  exists self',
    Grid.DefineDistributionGrid (fun _ => Ok [1 # 2; 1; 2])
      (Grid.mkAgent 1 [0; 1; 2] None None []) (Grid.NdArray [0; 5; 10])
      Grid.PyNone = (self', Ok tt) /\
    Grid.stdout self' = [Grid.message] /\
    Grid.Dist_mGrid self' = None /\
    Grid.Dist_pGrid self' = None.
Proof.
  apply (DefineDistributionGrid_finite_horizon (fun _ => Ok [1 # 2; 1; 2])
           (Grid.mkAgent 1 [0; 1; 2] None None []) (Grid.NdArray [0; 5; 10])
           Grid.PyNone).
  simpl. discriminate.
Defined.

(** C10, counterexample.  With [cycles = 1] (the default of the
    constructor) an array of length 2 passed as [Dist_mGrid] raises
    nothing: the comparison with [None] is never reached. *)
Lemma DefineDistributionGrid_array_not_compared :
  Grid.long_array (Grid.NdArray [0; 5]) = true /\
  snd (Grid.DefineDistributionGrid (fun _ => Ok [1 # 2; 1; 2])
         (Grid.mkAgent 1 [0; 1; 2] None None []) (Grid.NdArray [0; 5])
         Grid.PyNone) = Ok tt.
Proof. split; reflexivity. Qed.

(** C10 (as amended).  When [cycles == 0]: a numpy array of length at least
    2 passed as [Dist_mGrid] makes the call raise a [ValueError] with
    [self] untouched; otherwise such an array passed as [Dist_pGrid] makes
    it raise a [ValueError] with [self.Dist_pGrid] untouched; and when
    neither argument is such an array, the [Dist_mGrid] argument is stored
    ([self.aXtraGrid] for [None]) and so is the [Dist_pGrid] argument (an
    array of at most one element, or not an array; for [None] the default
    grid, once its construction has returned). *)
Theorem DefineDistributionGrid_explicit_grid
    (ergodic_pGrid : Grid.agent -> result (list Q)) (self : Grid.agent)
    (mGrid pGrid : Grid.pyval) :
  Grid.cycles self = 0%Z ->
  (Grid.long_array mGrid = true ->
   Grid.DefineDistributionGrid ergodic_pGrid self mGrid pGrid
   = (self, Raise ValueError)) /\
  (Grid.long_array mGrid = false -> Grid.long_array pGrid = true ->
   exists self',
     Grid.DefineDistributionGrid ergodic_pGrid self mGrid pGrid
     = (self', Raise ValueError) /\
     Grid.Dist_pGrid self' = Grid.Dist_pGrid self) /\
  (Grid.long_array mGrid = false -> Grid.long_array pGrid = false ->
   pGrid <> Grid.PyNone ->
   exists self',
     Grid.DefineDistributionGrid ergodic_pGrid self mGrid pGrid = (self', Ok tt) /\
     Grid.Dist_mGrid self' = Some (Grid.adopted (Grid.aXtraGrid self) mGrid) /\
     Grid.Dist_pGrid self' = Some pGrid) /\
  (Grid.long_array mGrid = false -> pGrid = Grid.PyNone ->
   forall grid,
     ergodic_pGrid
       (Grid.set_Dist_mGrid self (Grid.adopted (Grid.aXtraGrid self) mGrid))
     = Ok grid ->
     exists self',
       Grid.DefineDistributionGrid ergodic_pGrid self mGrid pGrid = (self', Ok tt) /\
       Grid.Dist_mGrid self' = Some (Grid.adopted (Grid.aXtraGrid self) mGrid) /\
       Grid.Dist_pGrid self' = Some (Grid.NdArray grid)).
Proof.
  intros Hc. unfold Grid.DefineDistributionGrid.
  rewrite Hc. simpl. rewrite !truth_eq_None.
  split; [|split; [|split]].
  - intros ->. reflexivity.
  - intros -> ->. eexists. split; reflexivity.
  - intros -> -> Hp. destruct pGrid as [| a | a]; [congruence| |].
    + eexists. split; [reflexivity|]. split; [|reflexivity].
      destruct mGrid; reflexivity.
    + eexists. split; [reflexivity|]. split; [|reflexivity].
      destruct mGrid; reflexivity.
  - intros -> -> grid Hg. simpl.
    assert (Em : (if match mGrid with Grid.PyNone => true | _ => false end
                  then Grid.NdArray (Grid.aXtraGrid self) else mGrid)
                 = Grid.adopted (Grid.aXtraGrid self) mGrid)
      by (destruct mGrid; reflexivity).
    rewrite Em, Hg. eexists. split; [reflexivity|]. split; reflexivity.
Qed.

Lemma DefineDistributionGrid_explicit_grid_witness :
  Grid.DefineDistributionGrid (fun _ => Ok [1 # 2; 1; 2])
    (Grid.mkAgent 0 [0; 1; 2] None None []) (Grid.NdArray [0; 5; 10])
    Grid.PyNone
  = (Grid.mkAgent 0 [0; 1; 2] None None [], Raise ValueError).
Proof.
  apply (DefineDistributionGrid_explicit_grid (fun _ => Ok [1 # 2; 1; 2])
           (Grid.mkAgent 0 [0; 1; 2] None None []) (Grid.NdArray [0; 5; 10])
           Grid.PyNone eq_refl).
  reflexivity.
Defined.

(** * Further properties of the code *)

(** ** [JumpToGrid]: range of the output *)

Lemma nth_zip_with (f : Q -> Q -> Q) (a b : list Q) (k : nat) :
  length a = length b -> f 0 0 == 0 ->
  nth k (np.zip_with f a b) 0 == f (nth k a 0) (nth k b 0).
Proof.
  intros Hl Hf. revert b k Hl; induction a as [|x a IH]; intros [|y b] k Hl;
    simpl in Hl; try discriminate.
  - destruct k; simpl; now rewrite Hf.
  - destruct k as [|k]; simpl; [reflexivity|]. apply IH. congruence.
Qed.

Lemma cell_number (np' k : nat) :
  np' <> O -> k = (k / np' * np' + k mod np')%nat /\ (k mod np' < np')%nat.
Proof.
  intros H. split.
  - rewrite Nat.mul_comm. apply Nat.div_mod_eq.
  - now apply Nat.mod_upper_bound.
Qed.

(** X1.  On a StateGrid and for equal-length samples with non-negative
    probabilities, [JumpToGrid] returns one entry per cell, and every entry
    lies between 0 and the total probability of the samples. *)
Theorem JumpToGrid_entries_bounded (mGrid pGrid m_vals perm_vals probs : list Q) :
  StateGrid mGrid pGrid ->
  length perm_vals = length m_vals ->
  length probs = length m_vals ->
  Forall (fun x => 0 <= x) probs ->
  exists out,
    JumpToGrid mGrid pGrid m_vals perm_vals probs = Ok out /\
    length out = (length mGrid * length pGrid)%nat /\
    Forall (fun x => 0 <= x <= np.sum probs) out.
Proof.
  intros HG Hp Hpr Hnn.
  destruct (JumpToGrid_cells mGrid pGrid m_vals perm_vals probs HG Hp Hpr)
    as (out & E & L & _ & _).
  exists out. split; [exact E|]. split; [exact L|].
  destruct (JumpToGrid_distribution mGrid pGrid m_vals perm_vals probs
              HG Hp Hpr Hnn out E) as (Onn & Osum).
  eapply Forall_impl; [|exact (entry_le_sum out Onn)].
  simpl. intros x Hx. rewrite Osum in Hx. exact Hx.
Qed.

Lemma JumpToGrid_entries_bounded_witness :
  exists out,
    JumpToGrid [0; 1; 2] [1; 2] [1 # 2; 5 # 2] [1; 3 # 2] [1 # 4; 1 # 2] = Ok out /\
    length out = (3 * 2)%nat /\
    Forall (fun x => 0 <= x <= np.sum [1 # 4; 1 # 2]) out.
Proof.
  apply (JumpToGrid_entries_bounded [0; 1; 2] [1; 2] [1 # 2; 5 # 2] [1; 3 # 2]
           [1 # 4; 1 # 2]).
  - repeat split; simpl; lia.
  - reflexivity.
  - reflexivity.
  - repeat constructor; discriminate.
Defined.

(** ** [JumpToGrid]: accumulation *)

Lemma by_cells (np' : nat) (x y : list Q) :
  np' <> O ->
  (forall a b, (b < np')%nat ->
               nth (a * np' + b) x 0 == nth (a * np' + b) y 0) ->
  forall k, nth k x 0 == nth k y 0.
Proof.
  intros Hnp H k. destruct (cell_number np' k Hnp) as [Ek Hb].
  rewrite Ek. apply H. exact Hb.
Qed.

Lemma StateGrid_columns (mGrid pGrid : list Q) :
  StateGrid mGrid pGrid -> length pGrid <> O.
Proof. intros (_ & _ & _ & H). lia. Qed.

(** X2.  Projecting two sample sets in one call gives the entrywise sum of
    the two separate projections: the loop accumulates, sample after
    sample. *)
Theorem JumpToGrid_concat
    (mGrid pGrid m1 p1 pr1 m2 p2 pr2 : list Q) :
  StateGrid mGrid pGrid ->
  length p1 = length m1 -> length pr1 = length m1 ->
  length p2 = length m2 -> length pr2 = length m2 ->
  exists o1 o2 o,
    JumpToGrid mGrid pGrid m1 p1 pr1 = Ok o1 /\
    JumpToGrid mGrid pGrid m2 p2 pr2 = Ok o2 /\
    JumpToGrid mGrid pGrid (m1 ++ m2) (p1 ++ p2) (pr1 ++ pr2) = Ok o /\
    vec_eq o (np.zip_with Qplus o1 o2).
Proof.
  intros HG Hp1 Hr1 Hp2 Hr2.
  destruct (JumpToGrid_cells mGrid pGrid m1 p1 pr1 HG Hp1 Hr1)
    as (o1 & E1 & L1 & _ & C1).
  destruct (JumpToGrid_cells mGrid pGrid m2 p2 pr2 HG Hp2 Hr2)
    as (o2 & E2 & L2 & _ & C2).
  destruct (JumpToGrid_cells mGrid pGrid (m1 ++ m2) (p1 ++ p2) (pr1 ++ pr2) HG)
    as (o & E & L & _ & C).
  { rewrite !length_app. congruence. }
  { rewrite !length_app. congruence. }
  exists o1, o2, o. split; [exact E1|]. split; [exact E2|]. split; [exact E|].
  split.
  - rewrite zip_with_length; congruence.
  - apply (by_cells (length pGrid)); [now apply (StateGrid_columns mGrid)|].
    intros a b Hb.
    rewrite nth_zip_with by (try congruence; reflexivity).
    rewrite (C a b Hb), (C1 a b Hb), (C2 a b Hb).
    rewrite length_app, sum_range_split.
    apply Qplus_comp.
    + apply sum_map_ext. intros k Hk. apply in_range in Hk.
      rewrite !app_nth1 by lia. reflexivity.
    + apply sum_map_ext. intros k _.
      rewrite <- Hr1 at 1. rewrite <- Hp1 at 2.
      rewrite !app_nth2_plus. reflexivity.
Qed.

Lemma JumpToGrid_concat_witness :
  exists o1 o2 o,
    JumpToGrid [0; 1; 2] [1; 2] [1 # 2] [1] [1 # 4] = Ok o1 /\
    JumpToGrid [0; 1; 2] [1; 2] [5 # 2; -1] [3 # 2; 4] [1 # 2; 1 # 4] = Ok o2 /\
    JumpToGrid [0; 1; 2] [1; 2] ([1 # 2] ++ [5 # 2; -1]) ([1] ++ [3 # 2; 4])
               ([1 # 4] ++ [1 # 2; 1 # 4]) = Ok o /\
    vec_eq o (np.zip_with Qplus o1 o2).
Proof.
  apply JumpToGrid_concat.
  - repeat split; simpl; lia.
  - reflexivity.
  - reflexivity.
  - reflexivity.
  - reflexivity.
Defined.

Lemma sum_map_linear (a b : Q) (f g : nat -> Q) (l : list nat) :
  np.sum (map (fun k => a * f k + b * g k) l)
  == a * np.sum (map f l) + b * np.sum (map g l).
Proof.
  induction l as [|k l IH]; simpl; [ring | rewrite IH; ring].
Qed.

(** X3.  [JumpToGrid] is linear in the probabilities: for fixed sample
    values, the projection of [a*probs1 + b*probs2] is [a] times the
    projection of [probs1] plus [b] times the projection of [probs2]. *)
Theorem JumpToGrid_linear
    (mGrid pGrid m_vals perm_vals probs1 probs2 : list Q) (a b : Q) :
  StateGrid mGrid pGrid ->
  length perm_vals = length m_vals ->
  length probs1 = length m_vals ->
  length probs2 = length m_vals ->
  exists o1 o2 o,
    JumpToGrid mGrid pGrid m_vals perm_vals probs1 = Ok o1 /\
    JumpToGrid mGrid pGrid m_vals perm_vals probs2 = Ok o2 /\
    JumpToGrid mGrid pGrid m_vals perm_vals
      (np.zip_with (fun x y => a * x + b * y) probs1 probs2) = Ok o /\
    vec_eq o (np.zip_with (fun x y => a * x + b * y) o1 o2).
Proof.
  intros HG Hp H1 H2.
  destruct (JumpToGrid_cells mGrid pGrid m_vals perm_vals probs1 HG Hp H1)
    as (o1 & E1 & L1 & _ & C1).
  destruct (JumpToGrid_cells mGrid pGrid m_vals perm_vals probs2 HG Hp H2)
    as (o2 & E2 & L2 & _ & C2).
  destruct (JumpToGrid_cells mGrid pGrid m_vals perm_vals
              (np.zip_with (fun x y => a * x + b * y) probs1 probs2) HG Hp)
    as (o & E & L & _ & C).
  { rewrite zip_with_length; congruence. }
  exists o1, o2, o. split; [exact E1|]. split; [exact E2|]. split; [exact E|].
  split.
  - rewrite zip_with_length; congruence.
  - apply (by_cells (length pGrid)); [now apply (StateGrid_columns mGrid)|].
    intros i j Hj.
    rewrite nth_zip_with by (try congruence; ring).
    rewrite (C i j Hj), (C1 i j Hj), (C2 i j Hj).
    rewrite <- sum_map_linear. apply sum_map_ext. intros k _.
    rewrite nth_zip_with by (try congruence; ring). ring.
Qed.

Lemma JumpToGrid_linear_witness :
  exists o1 o2 o,
    JumpToGrid [0; 1; 2] [1; 2] [1 # 2; 5 # 2] [1; 3 # 2] [1; 0] = Ok o1 /\
    JumpToGrid [0; 1; 2] [1; 2] [1 # 2; 5 # 2] [1; 3 # 2] [0; 1] = Ok o2 /\
    JumpToGrid [0; 1; 2] [1; 2] [1 # 2; 5 # 2] [1; 3 # 2]
      (np.zip_with (fun x y => (1 # 3) * x + (2 # 3) * y) [1; 0] [0; 1]) = Ok o /\
    vec_eq o (np.zip_with (fun x y => (1 # 3) * x + (2 # 3) * y) o1 o2).
Proof.
  apply JumpToGrid_linear.
  - repeat split; simpl; lia.
  - reflexivity.
  - reflexivity.
  - reflexivity.
Defined.

(** ** [JumpToGrid]: a distribution that already sits on the grid *)

Lemma cell_m_length (ms pg : list Q) :
  length (cell_m ms pg) = (length ms * length pg)%nat.
Proof.
  unfold cell_m. induction ms as [|m ms IH]; simpl; [reflexivity|].
  now rewrite length_app, length_map, IH.
Qed.

Lemma cell_p_length (ms pg : list Q) :
  length (cell_p ms pg) = (length ms * length pg)%nat.
Proof.
  unfold cell_p. induction ms as [|m ms IH]; simpl; [reflexivity|].
  now rewrite length_app, IH.
Qed.

Lemma nth_cell_m (ms pg : list Q) (a b : nat) :
  (a < length ms)%nat -> (b < length pg)%nat ->
  nth (a * length pg + b) (cell_m ms pg) 0 = nth a ms 0.
Proof.
  unfold cell_m. revert a; induction ms as [|m ms IH]; intros a Ha Hb;
    simpl in Ha; [lia|].
  destruct a as [|a]; simpl.
  - rewrite app_nth1 by (now rewrite length_map).
    now rewrite (nth_map_Q (fun _ => m)).
  - replace (length pg + a * length pg + b)%nat
      with (length (map (fun _ : Q => m) pg) + (a * length pg + b))%nat
      by (rewrite length_map; lia).
    rewrite app_nth2_plus. apply IH; [lia | exact Hb].
Qed.

Lemma nth_cell_p (ms pg : list Q) (a b : nat) :
  (a < length ms)%nat -> (b < length pg)%nat ->
  nth (a * length pg + b) (cell_p ms pg) 0 = nth b pg 0.
Proof.
  unfold cell_p. revert a; induction ms as [|m ms IH]; intros a Ha Hb;
    simpl in Ha; [lia|].
  destruct a as [|a]; simpl.
  - now rewrite app_nth1.
  - replace (length pg + a * length pg + b)%nat
      with (length pg + (a * length pg + b))%nat by lia.
    rewrite app_nth2_plus. apply IH; [lia | exact Hb].
Qed.

Lemma sum_seq_pick (f : nat -> Q) (k0 n s : nat) :
  np.sum (map (fun k => f k * ind k0 k) (seq s n))
  == if ((s <=? k0) && (k0 <? s + n))%nat then f k0 else 0.
Proof.
  revert s; induction n as [|n IH]; intros s; simpl.
  - replace ((s <=? k0) && (k0 <? s + 0))%nat with false; [reflexivity|].
    symmetry. apply andb_false_iff.
    destruct (Nat.le_gt_cases s k0);
      [right; apply Nat.ltb_ge; lia | left; apply Nat.leb_gt; lia].
  - rewrite IH. unfold ind.
    destruct (Nat.eq_dec k0 s) as [->|Hne].
    + rewrite Nat.eqb_refl.
      replace (S s <=? s)%nat with false by (symmetry; apply Nat.leb_gt; lia).
      replace (s <=? s)%nat with true by (symmetry; apply Nat.leb_le; lia).
      replace (s <? s + S n)%nat with true by (symmetry; apply Nat.ltb_lt; lia).
      simpl. ring.
    + replace (s =? k0)%nat with false by (symmetry; apply Nat.eqb_neq; congruence).
      replace (k0 <? s + S n)%nat with (k0 <? S s + n)%nat by (f_equal; lia).
      destruct (Nat.le_gt_cases (S s) k0) as [H|H].
      * replace (S s <=? k0)%nat with true by (symmetry; apply Nat.leb_le; lia).
        replace (s <=? k0)%nat with true by (symmetry; apply Nat.leb_le; lia).
        cbn [andb]. ring.
      * replace (S s <=? k0)%nat with false by (symmetry; apply Nat.leb_gt; lia).
        replace (s <=? k0)%nat with false by (symmetry; apply Nat.leb_gt; lia).
        simpl. ring.
Qed.

(** X4.  Round trip: when the samples are the cells of the grid themselves
    (each cell with its own two grid values) and carry the masses [d],
    [JumpToGrid] gives [d] back. *)
Theorem JumpToGrid_on_grid (mGrid pGrid d : list Q) :
  StateGrid mGrid pGrid ->
  length d = (length mGrid * length pGrid)%nat ->
  exists out,
    JumpToGrid mGrid pGrid (cell_m mGrid pGrid) (cell_p mGrid pGrid) d = Ok out /\
    vec_eq out d.
Proof.
  intros HG Hd. pose proof HG as (Im & Ip & Lm & Lp).
  pose proof (StateGrid_columns _ _ HG) as Hnp.
  destruct (JumpToGrid_cells mGrid pGrid (cell_m mGrid pGrid)
              (cell_p mGrid pGrid) d HG) as (out & E & L & _ & C).
  { now rewrite cell_m_length, cell_p_length. }
  { now rewrite cell_m_length. }
  exists out. split; [exact E|]. split; [congruence|].
  apply (by_cells (length pGrid) out d Hnp). intros a b Hb.
  rewrite (C a b Hb), cell_m_length.
  rewrite (sum_map_ext _ (fun k => nth k d 0 * ind (a * length pGrid + b) k)).
  - unfold range. rewrite sum_seq_pick. simpl.
    destruct (a * length pGrid + b <? length mGrid * length pGrid)%nat eqn:Elt;
      [reflexivity|].
    apply Nat.ltb_ge in Elt. rewrite nth_overflow by lia. reflexivity.
  - intros k Hk. apply in_range in Hk.
    destruct (cell_number (length pGrid) k Hnp) as [Ek Hkb].
    assert (Hka : (k / length pGrid < length mGrid)%nat)
      by (apply Nat.Div0.div_lt_upper_bound; lia).
    set (a' := (k / length pGrid)%nat) in *.
    set (b' := (k mod length pGrid)%nat) in *.
    rewrite Ek at 2 3.
    rewrite nth_cell_m, nth_cell_p by assumption.
    rewrite !weight_at_grid_point by assumption.
    unfold ind.
    destruct (Nat.eqb_spec a' a) as [->|Ha]; destruct (Nat.eqb_spec b' b) as [->|Hb'].
    + rewrite <- Ek, Nat.eqb_refl. ring.
    + replace (k =? a * length pGrid + b)%nat with false; [ring|].
      symmetry. apply Nat.eqb_neq. intros C'. rewrite C' in Ek.
      apply cell_number_inj in Ek; [lia | exact Hb | exact Hkb].
    + replace (k =? a * length pGrid + b)%nat with false; [ring|].
      symmetry. apply Nat.eqb_neq. intros C'. rewrite C' in Ek.
      apply cell_number_inj in Ek; [lia | exact Hb | exact Hkb].
    + replace (k =? a * length pGrid + b)%nat with false; [ring|].
      symmetry. apply Nat.eqb_neq. intros C'. rewrite C' in Ek.
      apply cell_number_inj in Ek; [lia | exact Hb | exact Hkb].
Qed.

Lemma JumpToGrid_on_grid_witness :
  exists out,
    JumpToGrid [0; 1; 2] [1; 2] (cell_m [0; 1; 2] [1; 2]) (cell_p [0; 1; 2] [1; 2])
               [1 # 8; 1 # 4; 0; 1 # 8; 1 # 4; 1 # 4] = Ok out /\
    vec_eq out [1 # 8; 1 # 4; 0; 1 # 8; 1 # 4; 1 # 4].
Proof.
  apply JumpToGrid_on_grid.
  - repeat split; simpl; lia.
  - reflexivity.
Defined.

(** ** [JumpToGrid]: sequences of different lengths *)

Lemma for_each_ext {S : Type} (f g : nat -> S -> result S) (l : list nat) (s : S) :
  (forall i, In i l -> forall s', f i s' = g i s') ->
  for_each f l s = for_each g l s.
Proof.
  revert s; induction l as [|i l IH]; intros s H; simpl; [reflexivity|].
  rewrite (H i) by (now left). destruct (g i s); simpl; [|reflexivity].
  apply IH. intros j Hj. apply H. now right.
Qed.

Lemma for_each_app {S : Type} (f : nat -> S -> result S) (l1 l2 : list nat) (s : S) :
  for_each f (l1 ++ l2) s = s' <- for_each f l1 s ;; for_each f l2 s'.
Proof.
  revert s; induction l1 as [|i l1 IH]; intros s; simpl; [reflexivity|].
  destruct (f i s); simpl; [apply IH | reflexivity].
Qed.

Lemma py_get_beyond {A : Type} (d : A) (a : list A) (i : nat) :
  (length a <= i)%nat -> py_get d a (Z.of_nat i) = Raise IndexError.
Proof.
  intros H. unfold py_get, py_index.
  replace ((0 <=? Z.of_nat i)%Z && (Z.of_nat i <? Z.of_nat (length a))%Z)
    with false
    by (symmetry; apply andb_false_iff; right; apply Z.ltb_ge; lia).
  replace ((- Z.of_nat (length a) <=? Z.of_nat i)%Z && (Z.of_nat i <? 0)%Z)
    with false
    by (symmetry; apply andb_false_iff; right; apply Z.ltb_ge; lia).
  reflexivity.
Qed.

Lemma py_get_prefix {A : Type} (d : A) (a b : list A) (i : nat) :
  (i < length a)%nat -> (i < length b)%nat -> nth i a d = nth i b d ->
  py_get d a (Z.of_nat i) = py_get d b (Z.of_nat i).
Proof.
  intros Ha Hb E. rewrite !py_get_nat by assumption. now rewrite E.
Qed.

Lemma split_weights_congr (grid : list Q) (Index Index' : list Z)
    (vals vals' : list Q) (i : Z) :
  getZ Index i = getZ Index' i -> getQ vals i = getQ vals' i ->
  split_weights grid Index vals i = split_weights grid Index' vals' i.
Proof.
  intros H1 H2. unfold split_weights. rewrite H1.
  destruct (getZ Index' i) as [k|e]; simpl; [|reflexivity].
  destruct (k =? -1)%Z; [reflexivity|].
  destruct (k =? Z.of_nat (length grid) - 1)%Z; [reflexivity|].
  destruct (getQ grid (k + 1)) as [gu|e]; simpl; [|reflexivity].
  now rewrite H2.
Qed.

Lemma JumpToGrid_body_congr (mGrid pGrid : list Q) (mI mI' pI pI' : list Z)
    (m m' p p' pr pr' : list Q) (i : nat) (g : list (list Q)) :
  getZ mI (Z.of_nat i) = getZ mI' (Z.of_nat i) ->
  getZ pI (Z.of_nat i) = getZ pI' (Z.of_nat i) ->
  getQ m (Z.of_nat i) = getQ m' (Z.of_nat i) ->
  getQ p (Z.of_nat i) = getQ p' (Z.of_nat i) ->
  getQ pr (Z.of_nat i) = getQ pr' (Z.of_nat i) ->
  JumpToGrid_body mGrid pGrid mI pI m p pr i g
  = JumpToGrid_body mGrid pGrid mI' pI' m' p' pr' i g.
Proof.
  intros H1 H2 H3 H4 H5. unfold JumpToGrid_body. cbv zeta.
  rewrite (split_weights_congr mGrid mI mI' m m' _ H1 H3).
  destruct (split_weights mGrid mI' m' (Z.of_nat i)); simpl; [|reflexivity].
  rewrite (split_weights_congr pGrid pI pI' p p' _ H2 H4).
  destruct (split_weights pGrid pI' p' (Z.of_nat i)); simpl; [|reflexivity].
  now rewrite H5.
Qed.

Lemma getZ_map_prefix (f : Q -> Z) (a b : list Q) (i : nat) :
  (i < length a)%nat -> (i < length b)%nat -> nth i a 0 = nth i b 0 ->
  getZ (map f a) (Z.of_nat i) = getZ (map f b) (Z.of_nat i).
Proof.
  intros Ha Hb E. rewrite !getZ_map by assumption. now rewrite E.
Qed.

(** X5.  Entries of [perm_vals] and [probs] beyond [len(m_vals)] are never
    read: the call returns what it returns without them. *)
Theorem JumpToGrid_ignores_surplus
    (mGrid pGrid m_vals perm_vals probs more_perm more_probs : list Q) :
  StateGrid mGrid pGrid ->
  length perm_vals = length m_vals ->
  length probs = length m_vals ->
  JumpToGrid mGrid pGrid m_vals (perm_vals ++ more_perm) (probs ++ more_probs)
  = JumpToGrid mGrid pGrid m_vals perm_vals probs.
Proof.
  intros HG Hp Hpr.
  destruct (StateGrid_nonempty _ _ HG) as (Nm & Np & Sm & Sp).
  unfold JumpToGrid.
  rewrite (grid_index_spec m_vals mGrid), (grid_index_spec perm_vals pGrid),
    (grid_index_spec (perm_vals ++ more_perm) pGrid) by assumption.
  simpl. f_equal. apply for_each_ext. intros i Hi s'. apply in_range in Hi.
  apply JumpToGrid_body_congr; try reflexivity.
  - apply getZ_map_prefix; [rewrite length_app; lia | lia |].
    apply app_nth1. lia.
  - apply py_get_prefix; [rewrite length_app; lia | lia |].
    apply app_nth1. lia.
  - apply py_get_prefix; [rewrite length_app; lia | lia |].
    apply app_nth1. lia.
Qed.

Lemma JumpToGrid_ignores_surplus_witness :
  JumpToGrid [0; 1; 2] [1; 2] [1 # 2] ([1] ++ [7; 8]) ([1 # 4] ++ [3 # 4])
  = JumpToGrid [0; 1; 2] [1; 2] [1 # 2] [1] [1 # 4].
Proof.
  apply JumpToGrid_ignores_surplus.
  - repeat split; simpl; lia.
  - reflexivity.
  - reflexivity.
Defined.

Lemma nth_firstn_lt (k : nat) (a : list Q) (i : nat) :
  (i < k)%nat -> nth i a 0 = nth i (firstn k a) 0.
Proof.
  intros H. rewrite nth_firstn.
  now replace (i <? k)%nat with true by (symmetry; apply Nat.ltb_lt; exact H).
Qed.

Lemma split_weights_index_error (grid : list Q) (vals : list Q) (f : Q -> Z)
    (i : nat) :
  (length vals <= i)%nat ->
  split_weights grid (map f vals) vals (Z.of_nat i) = Raise IndexError.
Proof.
  intros H. unfold split_weights, getZ.
  rewrite py_get_beyond by (now rewrite length_map). reflexivity.
Qed.

(** X6.  When [perm_vals] or [probs] is shorter than [m_vals], the call
    raises an [IndexError]: the loop runs over [range(len(m_vals))] and
    reads past the end of the shorter sequence. *)
Theorem JumpToGrid_short_input (mGrid pGrid m_vals perm_vals probs : list Q) :
  StateGrid mGrid pGrid ->
  (length perm_vals < length m_vals)%nat \/ (length probs < length m_vals)%nat ->
  JumpToGrid mGrid pGrid m_vals perm_vals probs = Raise IndexError.
Proof.
  intros HG Hshort.
  destruct (StateGrid_nonempty _ _ HG) as (Nm & Np & Sm & Sp).
  set (k := Nat.min (length perm_vals) (length probs)).
  assert (Hk : (k < length m_vals)%nat) by (unfold k; lia).
  assert (Hkp : (k <= length perm_vals)%nat) by (unfold k; lia).
  assert (Hkr : (k <= length probs)%nat) by (unfold k; lia).
  unfold JumpToGrid.
  rewrite (grid_index_spec m_vals mGrid), (grid_index_spec perm_vals pGrid)
    by assumption.
  simpl. unfold range.
  replace (length m_vals) with (k + S (length m_vals - k - 1))%nat at 1 by lia.
  rewrite seq_app, for_each_app. simpl.
  (* the first [k] rounds are those of the truncated call *)
  rewrite (for_each_ext _
             (JumpToGrid_body mGrid pGrid
                (map (cell_index mGrid) (firstn k m_vals))
                (map (cell_index pGrid) (firstn k perm_vals))
                (firstn k m_vals) (firstn k perm_vals) (firstn k probs))).
  2:{ intros i Hi s'. apply in_seq in Hi.
      assert (length (firstn k m_vals) = k) by (apply firstn_length_le; lia).
      assert (length (firstn k perm_vals) = k) by (apply firstn_length_le; lia).
      assert (length (firstn k probs) = k) by (apply firstn_length_le; lia).
      apply JumpToGrid_body_congr.
      - apply getZ_map_prefix; [lia | lia | apply nth_firstn_lt; lia].
      - apply getZ_map_prefix; [lia | lia | apply nth_firstn_lt; lia].
      - apply py_get_prefix; [lia | lia | apply nth_firstn_lt; lia].
      - apply py_get_prefix; [lia | lia | apply nth_firstn_lt; lia].
      - apply py_get_prefix; [lia | lia | apply nth_firstn_lt; lia]. }
  destruct (JumpToGrid_loop_spec mGrid pGrid Nm Np
              (firstn k m_vals) (firstn k perm_vals) (firstn k probs)
              ltac:(rewrite !firstn_length_le; lia)
              ltac:(rewrite !firstn_length_le; lia)
              k 0 (np.zeros (length mGrid) (length pGrid)) (rect_zeros _ _)
              ltac:(rewrite firstn_length_le; lia)) as (g & E & _ & _).
  rewrite E. simpl.
  (* round [k] reads past the end *)
  replace (JumpToGrid_body mGrid pGrid (map (cell_index mGrid) m_vals)
             (map (cell_index pGrid) perm_vals) m_vals perm_vals probs k g)
    with (@Raise (list (list Q)) IndexError); [reflexivity|].
  symmetry. unfold JumpToGrid_body. cbv zeta.
  destruct (split_weights_spec mGrid m_vals k Nm Hk) as (sm & Esm & _).
  rewrite Esm. simpl.
  destruct (Nat.eq_dec k (length perm_vals)) as [Eq|Ne].
  - rewrite split_weights_index_error by lia. reflexivity.
  - destruct (split_weights_spec pGrid perm_vals k Np ltac:(lia)) as (sp & Esp & _).
    rewrite Esp. simpl. unfold getQ at 1.
    rewrite py_get_beyond by (unfold k in *; lia). reflexivity.
Qed.

Lemma JumpToGrid_short_input_witness :
  JumpToGrid [0; 1; 2] [1; 2] [1 # 2; 5 # 2; -1] [1; 3 # 2; 4] [1 # 4; 1 # 2]
  = Raise IndexError.
Proof.
  apply JumpToGrid_short_input.
  - repeat split; simpl; lia.
  - right. simpl. lia.
Defined.

Lemma flatten_zeros (r c : nat) : np.flatten (np.zeros r c) = repeat 0 (r * c).
Proof.
  unfold np.flatten, np.zeros. induction r as [|r IH]; simpl; [reflexivity|].
  now rewrite IH, repeat_app.
Qed.

(** X7.  Without samples the call returns the zero vector with one entry
    per cell, whatever [perm_vals] and [probs] hold. *)
Theorem JumpToGrid_no_samples (mGrid pGrid perm_vals probs : list Q) :
  StateGrid mGrid pGrid ->
  JumpToGrid mGrid pGrid [] perm_vals probs
  = Ok (repeat 0 (length mGrid * length pGrid)).
Proof.
  intros HG. destruct (StateGrid_nonempty _ _ HG) as (Nm & Np & Sm & Sp).
  unfold JumpToGrid.
  rewrite (grid_index_spec [] mGrid), (grid_index_spec perm_vals pGrid)
    by assumption.
  simpl. now rewrite flatten_zeros.
Qed.

Lemma JumpToGrid_no_samples_witness :
  JumpToGrid [0; 1; 2] [1; 2] [] [7] [1] = Ok (repeat 0 (3 * 2)).
Proof.
  apply (JumpToGrid_no_samples [0; 1; 2] [1; 2] [7] [1]).
  repeat split; simpl; lia.
Defined.

(** X8.  A grid without points makes every call raise an [IndexError]:
    [Dist_mGrid[0]] (or, once the first grid has passed, [Dist_pGrid[0]])
    does not exist. *)
Theorem JumpToGrid_empty_grid_raises (grid m_vals perm_vals probs : list Q) :
  JumpToGrid [] grid m_vals perm_vals probs = Raise IndexError /\
  (grid <> [] -> np.nondecreasing grid = true ->
   JumpToGrid grid [] m_vals perm_vals probs = Raise IndexError).
Proof.
  split; [reflexivity|].
  intros Hne Hs. unfold JumpToGrid.
  rewrite (grid_index_spec m_vals grid) by assumption. reflexivity.
Qed.

Lemma JumpToGrid_empty_grid_raises_witness :
  JumpToGrid [0; 1; 2] [] [1 # 2] [1] [1] = Raise IndexError.
Proof.
  apply (JumpToGrid_empty_grid_raises [0; 1; 2] [1 # 2] [1] [1]).
  - discriminate.
  - reflexivity.
Defined.

(** ** [CalcTransitionMatrix]: what mortality does to the columns *)

Lemma nth_nonneg (a : list Q) (k : nat) :
  Forall (fun x => 0 <= x) a -> 0 <= nth k a 0.
Proof.
  intros H. destruct (Nat.lt_ge_cases k (length a)) as [Hk|Hk].
  - rewrite Forall_forall in H. apply H, nth_In, Hk.
  - rewrite nth_overflow by exact Hk. lra.
Qed.

Lemma nth_blend (s : Q) (a b : list Q) (k : nat) :
  length a = length b ->
  nth k (blend s a b) 0 == s * nth k a 0 + (1 - s) * nth k b 0.
Proof.
  intros H. unfold blend. rewrite nth_zip_with; [reflexivity | exact H | ring].
Qed.

Lemma survive_lengths (mGrid pGrid : list Q) (cFunc : Q -> Q) (Rfree : Q)
    (ShockProbs PermShocks TranShocks : list Q) (i j : nat) :
  length PermShocks = length ShockProbs ->
  length TranShocks = length ShockProbs ->
  length (pNext pGrid PermShocks j)
  = length (mNext mGrid cFunc Rfree PermShocks TranShocks i) /\
  length ShockProbs = length (mNext mGrid cFunc Rfree PermShocks TranShocks i).
Proof.
  intros H1 H2. unfold pNext, mNext.
  rewrite length_map, zip_with_length by congruence. split; congruence.
Qed.

(** X9.  Every entry of the transition matrix is at least [(1 - LivPrb)]
    times the newborn mass of its row: whatever the cell an agent starts
    from, the newborn distribution is reached with the probability of
    dying. *)
Theorem CalcTransitionMatrix_newborn_floor (mGrid pGrid : list Q)
    (cFunc : Q -> Q) (Rfree LivPrb : Q)
    (ShockProbs PermShocks TranShocks : list Q) :
  StateGrid mGrid pGrid ->
  ShockDistribution ShockProbs PermShocks TranShocks ->
  Forall (fun x => 0 <= x) ShockProbs ->
  0 <= LivPrb <= 1 ->
  exists tr NewBornDist,
    CalcTransitionMatrix mGrid pGrid cFunc Rfree LivPrb ShockProbs PermShocks
                         TranShocks = Ok tr /\
    JumpToGrid mGrid pGrid TranShocks (np.ones_like TranShocks) ShockProbs
    = Ok NewBornDist /\
    forall k r, (k < length mGrid * length pGrid)%nat ->
      (1 - LivPrb) * nth r NewBornDist 0 <= nth r (np.get_col (TranMatrix tr) k) 0.
Proof.
  intros HG (Hperm & Htran & _) Hnn Hs.
  destruct (CalcTransitionMatrix_columns mGrid pGrid cFunc Rfree LivPrb
              ShockProbs PermShocks TranShocks HG Hperm Htran)
    as (tr & NB & E & ENB & LNB & RT & C).
  exists tr, NB. split; [exact E|]. split; [exact ENB|].
  intros k r Hk.
  destruct (cell_number (length pGrid) k (StateGrid_columns _ _ HG)) as [Ek Hj].
  assert (Hi : (k / length pGrid < length mGrid)%nat)
    by (apply Nat.Div0.div_lt_upper_bound; lia).
  destruct (C _ _ Hi Hj) as (sv & Es & Ls & Gs).
  rewrite <- Ek in Gs. rewrite Gs, nth_blend by congruence.
  destruct (survive_lengths mGrid pGrid cFunc Rfree ShockProbs PermShocks
              TranShocks (k / length pGrid) (k mod length pGrid) Hperm Htran)
    as [L1 L2].
  destruct (JumpToGrid_distribution mGrid pGrid _ _ ShockProbs HG L1 L2 Hnn sv Es)
    as (SVnn & _).
  pose proof (nth_nonneg sv r SVnn). nra.
Qed.

Lemma CalcTransitionMatrix_newborn_floor_witness :
  exists tr NewBornDist,
    CalcTransitionMatrix [0; 5; 10] [1; 2] (fun m => m / 2) 1 (9 # 10)
                         [1 # 2; 1 # 2] [1; 1] [0; 1] = Ok tr /\
    JumpToGrid [0; 5; 10] [1; 2] [0; 1] (np.ones_like [0; 1]) [1 # 2; 1 # 2]
    = Ok NewBornDist /\
    forall k r, (k < 3 * 2)%nat ->
      (1 - (9 # 10)) * nth r NewBornDist 0 <= nth r (np.get_col (TranMatrix tr) k) 0.
Proof.
  apply (CalcTransitionMatrix_newborn_floor [0; 5; 10] [1; 2] (fun m => m / 2)
           1 (9 # 10) [1 # 2; 1 # 2] [1; 1] [0; 1]).
  - repeat split; simpl; lia.
  - repeat split; repeat constructor.
  - repeat constructor; discriminate.
  - split; discriminate.
Defined.

(** X10.  The two ends of the survival probability: with [LivPrb == 0]
    every column of the matrix is the newborn distribution, with
    [LivPrb == 1] the column of cell [(i,j)] is the projection of that
    cell's next-period samples alone. *)
Theorem CalcTransitionMatrix_extreme_survival (mGrid pGrid : list Q)
    (cFunc : Q -> Q) (Rfree LivPrb : Q)
    (ShockProbs PermShocks TranShocks : list Q) :
  StateGrid mGrid pGrid ->
  ShockDistribution ShockProbs PermShocks TranShocks ->
  exists tr NewBornDist,
    CalcTransitionMatrix mGrid pGrid cFunc Rfree LivPrb ShockProbs PermShocks
                         TranShocks = Ok tr /\
    JumpToGrid mGrid pGrid TranShocks (np.ones_like TranShocks) ShockProbs
    = Ok NewBornDist /\
    (LivPrb == 0 ->
     forall k, (k < length mGrid * length pGrid)%nat ->
               vec_eq (np.get_col (TranMatrix tr) k) NewBornDist) /\
    (LivPrb == 1 ->
     forall i j, (i < length mGrid)%nat -> (j < length pGrid)%nat ->
       exists survive,
         JumpToGrid mGrid pGrid
           (mNext mGrid cFunc Rfree PermShocks TranShocks i)
           (pNext pGrid PermShocks j) ShockProbs = Ok survive /\
         vec_eq (np.get_col (TranMatrix tr) (i * length pGrid + j)) survive).
Proof.
  intros HG (Hperm & Htran & _).
  destruct (CalcTransitionMatrix_columns mGrid pGrid cFunc Rfree LivPrb
              ShockProbs PermShocks TranShocks HG Hperm Htran)
    as (tr & NB & E & ENB & LNB & RT & C).
  exists tr, NB. split; [exact E|]. split; [exact ENB|]. split.
  - intros Hz k Hk.
    destruct (cell_number (length pGrid) k (StateGrid_columns _ _ HG)) as [Ek Hj].
    assert (Hi : (k / length pGrid < length mGrid)%nat)
      by (apply Nat.Div0.div_lt_upper_bound; lia).
    destruct (C _ _ Hi Hj) as (sv & Es & Ls & Gs).
    rewrite <- Ek in Gs. rewrite Gs. split.
    + unfold blend. rewrite zip_with_length; congruence.
    + intros r. rewrite nth_blend by congruence. rewrite Hz. ring.
  - intros Ho i j Hi Hj.
    destruct (C _ _ Hi Hj) as (sv & Es & Ls & Gs).
    exists sv. split; [exact Es|]. rewrite Gs. split.
    + unfold blend. rewrite zip_with_length; congruence.
    + intros r. rewrite nth_blend by congruence. rewrite Ho. ring.
Qed.

Lemma CalcTransitionMatrix_extreme_survival_witness :
  exists tr NewBornDist,
    CalcTransitionMatrix [0; 5; 10] [1; 2] (fun m => m / 2) 1 0
                         [1 # 2; 1 # 2] [1; 1] [0; 1] = Ok tr /\
    JumpToGrid [0; 5; 10] [1; 2] [0; 1] (np.ones_like [0; 1]) [1 # 2; 1 # 2]
    = Ok NewBornDist /\
    forall k, (k < 3 * 2)%nat -> vec_eq (np.get_col (TranMatrix tr) k) NewBornDist.
Proof.
  destruct (CalcTransitionMatrix_extreme_survival [0; 5; 10] [1; 2]
              (fun m => m / 2) 1 0 [1 # 2; 1 # 2] [1; 1] [0; 1])
    as (tr & NB & E & ENB & Hz & _).
  - repeat split; simpl; lia.
  - repeat split; repeat constructor.
  - exists tr, NB. split; [exact E|]. split; [exact ENB|].
    apply Hz. reflexivity.
Defined.

Lemma broadcast_mismatch (f : Q -> Q -> Q) (a b : list Q) :
  length a <> length b -> length a <> 1%nat -> length b <> 1%nat ->
  np.broadcast f a b = Raise ValueError.
Proof.
  intros H Ha Hb. unfold np.broadcast.
  replace (length a =? length b)%nat with false
    by (symmetry; apply Nat.eqb_neq; exact H).
  destruct a as [|x [|x' a]], b as [|y [|y' b]]; simpl in *;
    try reflexivity; congruence.
Qed.

(** X12.  When the permanent and the transitory shock arrays differ in
    length (and neither has length 1, which numpy would stretch), the
    method raises a [ValueError] at the first cell. *)
Theorem CalcTransitionMatrix_shock_mismatch (mGrid pGrid : list Q)
    (cFunc : Q -> Q) (Rfree LivPrb : Q)
    (ShockProbs PermShocks TranShocks : list Q) :
  StateGrid mGrid pGrid ->
  length ShockProbs = length TranShocks ->
  length PermShocks <> length TranShocks ->
  length PermShocks <> 1%nat -> length TranShocks <> 1%nat ->
  CalcTransitionMatrix mGrid pGrid cFunc Rfree LivPrb ShockProbs PermShocks
                       TranShocks = Raise ValueError.
Proof.
  intros HG Hpr Hne H1 H2.
  destruct (JumpToGrid_cells mGrid pGrid TranShocks (np.ones_like TranShocks)
              ShockProbs HG) as (NB & ENB & _).
  { unfold np.ones_like. now rewrite length_map. }
  { exact Hpr. }
  destruct HG as (_ & _ & Lm & Lp).
  unfold CalcTransitionMatrix. rewrite ENB. cbn [bind].
  destruct mGrid as [|m0 mGrid]; [simpl in Lm; lia|].
  destruct pGrid as [|p0 pGrid]; [simpl in Lp; lia|].
  unfold range. cbn [length seq for_each].
  unfold CalcTransitionMatrix_body at 1.
  cbn [map]. unfold getQ at 1. rewrite (py_get_nat 0 _ 0%nat) by (simpl; lia).
  cbn [bind]. unfold np.add at 1.
  rewrite broadcast_mismatch by (rewrite ?length_map; assumption).
  reflexivity.
Qed.

Lemma CalcTransitionMatrix_shock_mismatch_witness :
  CalcTransitionMatrix [0; 5; 10] [1; 2] (fun m => m / 2) 1 (9 # 10)
                       [1 # 2; 1 # 2] [1; 1; 1] [0; 1] = Raise ValueError.
Proof.
  apply CalcTransitionMatrix_shock_mismatch.
  - repeat split; simpl; lia.
  - reflexivity.
  - simpl; lia.
  - simpl; lia.
  - simpl; lia.
Defined.

(** ** From the transition matrix to the stationary distribution *)

Lemma CalcTransitionMatrix_stochastic (mGrid pGrid : list Q)
    (cFunc : Q -> Q) (Rfree LivPrb : Q)
    (ShockProbs PermShocks TranShocks : list Q) :
  StateGrid mGrid pGrid ->
  length PermShocks = length ShockProbs ->
  length TranShocks = length ShockProbs ->
  Forall (fun x => 0 <= x) ShockProbs ->
  np.sum ShockProbs == 1 ->
  0 <= LivPrb <= 1 ->
  exists tr,
    CalcTransitionMatrix mGrid pGrid cFunc Rfree LivPrb ShockProbs PermShocks
                         TranShocks = Ok tr /\
    column_stochastic (length mGrid * length pGrid) (TranMatrix tr).
Proof.
  intros HG Hperm Htran Hnn Hone Hs.
  destruct (CalcTransitionMatrix_columns mGrid pGrid cFunc Rfree LivPrb
              ShockProbs PermShocks TranShocks HG Hperm Htran)
    as (tr & NB & E & ENB & LNB & RT & C).
  exists tr. split; [exact E|]. split; [exact RT|].
  intros k Hk.
  destruct (cell_number (length pGrid) k (StateGrid_columns _ _ HG)) as [Ek Hj].
  assert (Hi : (k / length pGrid < length mGrid)%nat)
    by (apply Nat.Div0.div_lt_upper_bound; lia).
  destruct (C _ _ Hi Hj) as (sv & Es & Ls & Gs).
  rewrite <- Ek in Gs. rewrite Gs.
  destruct (JumpToGrid_distribution mGrid pGrid TranShocks
              (np.ones_like TranShocks) ShockProbs HG
              ltac:(unfold np.ones_like; now rewrite length_map)
              ltac:(congruence) Hnn NB ENB) as (NBnn & NBsum).
  destruct (survive_lengths mGrid pGrid cFunc Rfree ShockProbs PermShocks
              TranShocks (k / length pGrid) (k mod length pGrid) Hperm Htran)
    as [L1 L2].
  destruct (JumpToGrid_distribution mGrid pGrid _ _ ShockProbs HG L1 L2 Hnn sv Es)
    as (SVnn & SVsum).
  assert (Hsum : np.sum (blend LivPrb sv NB) == 1).
  { rewrite sum_blend by congruence. rewrite SVsum, NBsum, Hone. ring. }
  split; [|exact Hsum].
  pose proof (entry_le_sum _ (blend_nonneg LivPrb sv NB Hs SVnn NBnn)) as Hle.
  eapply Forall_impl; [|exact Hle]. simpl. intros x Hx.
  rewrite Hsum in Hx. exact Hx.
Qed.

Lemma dot_nonneg (a b : list Q) :
  Forall (fun x => 0 <= x) a -> Forall (fun x => 0 <= x) b -> 0 <= np.dot a b.
Proof.
  unfold np.dot. intros Ha. revert b; induction Ha as [|x a Hx Ha IH];
    intros b Hb; simpl; [lra|].
  destruct Hb as [|y b Hy Hb]; simpl; [lra|].
  specialize (IH b Hb). nra.
Qed.

Lemma stochastic_rows_nonneg (n : nat) (M : list (list Q)) :
  column_stochastic n M -> Forall (Forall (fun x => 0 <= x)) M.
Proof.
  intros [[Hl Hf] Hc]. apply Forall_forall. intros row Hrow.
  destruct (In_nth M row [] Hrow) as (r & Hr & <-).
  apply Forall_forall. intros x Hx.
  destruct (In_nth _ x 0 Hx) as (k & Hk & <-).
  assert (Hlen : length (nth r M []) = n).
  { rewrite Forall_forall in Hf. apply Hf, nth_In, Hr. }
  destruct (Hc k ltac:(lia)) as [Hcol _].
  rewrite Forall_forall in Hcol.
  assert (Hin : In (nth k (nth r M []) 0) (np.get_col M k)).
  { unfold np.get_col. apply in_map_iff. exists (nth r M []).
    split; [reflexivity | apply nth_In, Hr]. }
  apply (Hcol _ Hin).
Qed.

(** X13.  One step of the chain keeps probability vectors: for the matrix
    that [CalcTransitionMatrix] builds, the product with a vector of
    non-negative entries that sum to 1 is again such a vector. *)
Theorem CalcTransitionMatrix_pushes_distributions (mGrid pGrid : list Q)
    (cFunc : Q -> Q) (Rfree LivPrb : Q)
    (ShockProbs PermShocks TranShocks : list Q) :
  StateGrid mGrid pGrid ->
  ShockDistribution ShockProbs PermShocks TranShocks ->
  Forall (fun x => 0 <= x) ShockProbs ->
  np.sum ShockProbs == 1 ->
  0 <= LivPrb <= 1 ->
  exists tr,
    CalcTransitionMatrix mGrid pGrid cFunc Rfree LivPrb ShockProbs PermShocks
                         TranShocks = Ok tr /\
    forall d, probability_vector (length mGrid * length pGrid) d ->
              probability_vector (length mGrid * length pGrid)
                                 (np.matvec (TranMatrix tr) d).
Proof.
  intros HG (Hperm & Htran & _) Hnn Hone Hs.
  destruct (CalcTransitionMatrix_stochastic mGrid pGrid cFunc Rfree LivPrb
              ShockProbs PermShocks TranShocks HG Hperm Htran Hnn Hone Hs)
    as (tr & E & HT).
  exists tr. split; [exact E|].
  intros d (Ld & Dnn & Dsum). split; [|split].
  - rewrite matvec_length. apply HT.
  - pose proof (stochastic_rows_nonneg _ _ HT) as Hrows.
    unfold np.matvec. apply Forall_forall. intros x Hx.
    apply in_map_iff in Hx as (row & <- & Hrow).
    rewrite Forall_forall in Hrows. apply dot_nonneg; [now apply Hrows | exact Dnn].
  - rewrite (sum_matvec_stochastic _ _ d HT Ld). exact Dsum.
Qed.

Lemma CalcTransitionMatrix_pushes_distributions_witness :
  exists tr,
    CalcTransitionMatrix [0; 5; 10] [1; 2] (fun m => m / 2) 1 (9 # 10)
                         [1 # 2; 1 # 2] [1; 1] [0; 1] = Ok tr /\
    forall d, probability_vector (3 * 2) d ->
              probability_vector (3 * 2) (np.matvec (TranMatrix tr) d).
Proof.
  apply (CalcTransitionMatrix_pushes_distributions [0; 5; 10] [1; 2]
           (fun m => m / 2) 1 (9 # 10) [1 # 2; 1 # 2] [1; 1] [0; 1]).
  - repeat split; simpl; lia.
  - repeat split; repeat constructor.
  - repeat constructor; discriminate.
  - reflexivity.
  - split; discriminate.
Defined.

Lemma nth_normalised (s : Q) (x : list Q) (k : nat) :
  nth k (map (fun y => y / s) x) 0 == nth k x 0 / s.
Proof.
  destruct (Nat.lt_ge_cases k (length x)) as [Hlt|Hge].
  - now rewrite (nth_map_Q (fun y => y / s)).
  - rewrite !nth_overflow by (try rewrite length_map; exact Hge).
    unfold Qdiv. ring.
Qed.

(** X14.  The two methods in sequence, for whatever vector the solver hands
    back (an exact eigenvector or not): on the matrix that
    [CalcTransitionMatrix] builds, a vector with one entry per cell whose
    real part does not sum to zero makes [CalcErgodicDist] store a finite
    vector that sums to 1, and one step of the chain keeps that sum.  Entry
    by entry, what the step changes in the stored vector is what it changes
    in the solver's real part, divided by the sum; so the stored vector is
    stationary exactly when the solver's real part is. *)
Theorem CalcErgodicDist_of_CalcTransitionMatrix (mGrid pGrid : list Q)
    (cFunc : Q -> Q) (Rfree LivPrb : Q)
    (ShockProbs PermShocks TranShocks : list Q) :
  StateGrid mGrid pGrid ->
  ShockDistribution ShockProbs PermShocks TranShocks ->
  Forall (fun x => 0 <= x) ShockProbs ->
  np.sum ShockProbs == 1 ->
  0 <= LivPrb <= 1 ->
  exists tr,
    CalcTransitionMatrix mGrid pGrid cFunc Rfree LivPrb ShockProbs PermShocks
                         TranShocks = Ok tr /\
    forall eigs lambda v,
      eigs (TranMatrix tr) = Ok (lambda, v) ->
      length v = (length mGrid * length pGrid)%nat ->
      ~ np.sum (re v) == 0 ->
      exists r pi,
        CalcErgodicDist eigs (TranMatrix tr) (length mGrid) (length pGrid) = Ok r /\
        vec_dstn r = map Finite pi /\
        np.sum pi == 1 /\
        np.sum (np.matvec (TranMatrix tr) pi) == 1 /\
        (forall k,
            nth k (np.matvec (TranMatrix tr) pi) 0 - nth k pi 0
            == (nth k (np.matvec (TranMatrix tr) (re v)) 0 - nth k (re v) 0)
               / np.sum (re v)) /\
        (vec_eq (np.matvec (TranMatrix tr) pi) pi
         <-> vec_eq (np.matvec (TranMatrix tr) (re v)) (re v)).
Proof.
  intros HG (Hperm & Htran & _) Hnn Hone Hs.
  destruct (CalcTransitionMatrix_stochastic mGrid pGrid cFunc Rfree LivPrb
              ShockProbs PermShocks TranShocks HG Hperm Htran Hnn Hone Hs)
    as (tr & E & HT).
  exists tr. split; [exact E|].
  intros eigs lambda v He Hl Hsum.
  destruct (CalcErgodicDist_returns eigs _ _ _ lambda v He Hl) as (r & Er & Vr).
  set (s := np.sum (re v)) in *.
  set (T := TranMatrix tr) in *.
  assert (Lr : length (re v) = (length mGrid * length pGrid)%nat)
    by (unfold re; rewrite length_map; exact Hl).
  assert (LT : length T = (length mGrid * length pGrid)%nat) by apply HT.
  assert (Hstep : forall k,
             nth k (np.matvec T (map (fun x => x / s) (re v))) 0
             - nth k (map (fun x => x / s) (re v)) 0
             == (nth k (np.matvec T (re v)) 0 - nth k (re v) 0) / s).
  { intros k. rewrite nth_matvec, dot_scale, <- nth_matvec, nth_normalised.
    field. exact Hsum. }
  exists r, (map (fun x => x / s) (re v)).
  split; [exact Er|]. split; [|split; [|split; [|split]]].
  - rewrite Vr, map_map. apply map_ext. intros x. now apply np_divide_finite.
  - rewrite sum_map_scale. fold s. field. exact Hsum.
  - rewrite (sum_matvec_stochastic _ T _ HT) by (now rewrite length_map).
    rewrite sum_map_scale. fold s. field. exact Hsum.
  - exact Hstep.
  - split; intros [_ Hk]; (split; [rewrite matvec_length; fold T;
                                   try rewrite length_map; congruence|]);
      intros k; specialize (Hstep k); specialize (Hk k).
    + assert (Z : (nth k (np.matvec T (re v)) 0 - nth k (re v) 0) / s == 0)
        by (rewrite <- Hstep, Hk; ring).
      assert (X : (nth k (np.matvec T (re v)) 0 - nth k (re v) 0) / s * s
                  == nth k (np.matvec T (re v)) 0 - nth k (re v) 0)
        by (field; exact Hsum).
      rewrite Z in X. lra.
    + rewrite Hk in Hstep.
      assert (Z : (nth k (re v) 0 - nth k (re v) 0) / s == 0)
        by (field; exact Hsum).
      rewrite Z in Hstep. lra.
Qed.

Lemma CalcErgodicDist_of_CalcTransitionMatrix_witness :
  exists tr r pi,
    CalcTransitionMatrix [1; 2] [1; 2]
      (fun m => if Qeq_bool m 1 then 0 else 3 # 2) 2 1 [1] [1] [0] = Ok tr /\
    CalcErgodicDist (fun _ => Ok ((-1, 0), [(3, 0); (1, 0); (-1, 0); (-1, 0)]))
      (TranMatrix tr) 2 2 = Ok r /\
    vec_dstn r = map Finite pi /\
    np.sum pi == 1 /\
    np.sum (np.matvec (TranMatrix tr) pi) == 1 /\
    (vec_eq (np.matvec (TranMatrix tr) pi) pi
     <-> vec_eq (np.matvec (TranMatrix tr) (re [(3, 0); (1, 0); (-1, 0); (-1, 0)]))
                (re [(3, 0); (1, 0); (-1, 0); (-1, 0)])).
Proof.
  destruct (CalcErgodicDist_of_CalcTransitionMatrix [1; 2] [1; 2]
              (fun m => if Qeq_bool m 1 then 0 else 3 # 2) 2 1 [1] [1] [0])
    as (tr & E & H).
  - repeat split; simpl; lia.
  - repeat split; repeat constructor.
  - repeat constructor; discriminate.
  - reflexivity.
  - split; discriminate.
  - exists tr.
    destruct (H (fun _ => Ok ((-1, 0), [(3, 0); (1, 0); (-1, 0); (-1, 0)]))
                (-1, 0) [(3, 0); (1, 0); (-1, 0); (-1, 0)])
      as (r & pi & Er & Hpi & Hsum & Hmass & _ & Hiff).
    + reflexivity.
    + reflexivity.
    + discriminate.
    + exists r, pi. split; [exact E|]. split; [exact Er|]. split; [exact Hpi|].
      split; [exact Hsum|]. split; [exact Hmass | exact Hiff].
Defined.

(** ** [CalcErgodicDist]: shape, scale and sign *)

Lemma chunks_shape {A : Type} (c : nat) (a : list A) (r : nat) :
  length a = (r * c)%nat ->
  concat (chunks c a r) = a /\
  length (chunks c a r) = r /\
  Forall (fun row => length row = c) (chunks c a r).
Proof.
  revert a; induction r as [|r IH]; intros a Hl; simpl in *.
  - destruct a; [repeat split; constructor | discriminate].
  - destruct (IH (skipn c a)) as (Hc & Hn & Hf).
    { rewrite length_skipn. lia. }
    repeat split.
    + now rewrite Hc, firstn_skipn.
    + now rewrite Hn.
    + constructor; [apply firstn_length_le; lia | exact Hf].
Qed.

Lemma nth_chunks {A : Type} (d : A) (c : nat) (a : list A) (r i j : nat) :
  (i < r)%nat -> (j < c)%nat ->
  nth j (nth i (chunks c a r) []) d = nth (i * c + j) a d.
Proof.
  revert a i; induction r as [|r IH]; intros a i Hi Hj; [lia|].
  destruct i as [|i]; simpl.
  - rewrite nth_firstn.
    now replace (j <? c)%nat with true by (symmetry; apply Nat.ltb_lt; exact Hj).
  - rewrite IH by lia. rewrite nth_skipn. f_equal. lia.
Qed.

(** X15.  When the solver returns an eigenvector, [CalcErgodicDist] returns
    exactly when that vector has one entry per cell, and raises a
    [ValueError] otherwise.  When it returns, [ergodic_distr] has one row
    per point of [Dist_mGrid] and one column per point of [Dist_pGrid], its
    entry [(i,j)] is entry [i*len(Dist_pGrid)+j] of [vec_dstn], and
    flattening it gives [vec_dstn] back. *)
Theorem CalcErgodicDist_shape
    (eigs : list (list Q) -> result (complex * list complex))
    (T : list (list Q)) (len_mGrid len_pGrid : nat)
    (lambda : complex) (v : list complex) :
  eigs T = Ok (lambda, v) ->
  (length v <> (len_mGrid * len_pGrid)%nat ->
   CalcErgodicDist eigs T len_mGrid len_pGrid = Raise ValueError) /\
  (length v = (len_mGrid * len_pGrid)%nat ->
   exists r,
     CalcErgodicDist eigs T len_mGrid len_pGrid = Ok r /\
     length (vec_dstn r) = (len_mGrid * len_pGrid)%nat /\
     length (ergodic_distr r) = len_mGrid /\
     Forall (fun row => length row = len_pGrid) (ergodic_distr r) /\
     concat (ergodic_distr r) = vec_dstn r /\
     forall i j, (i < len_mGrid)%nat -> (j < len_pGrid)%nat ->
       nth j (nth i (ergodic_distr r) []) NonFinite
       = nth (i * len_pGrid + j) (vec_dstn r) NonFinite).
Proof.
  intros He. unfold CalcErgodicDist. rewrite He. cbn [bind snd]. split.
  - intros Hne. unfold reshape. rewrite !length_map.
    match goal with
    | |- context [Nat.eqb ?a ?b] => destruct (Nat.eqb_spec a b) as [Eq|_]
    end; [exfalso; apply Hne; exact Eq | reflexivity].
  - intros Hl.
    set (vec := map (fun x => np_divide x (np.sum (map fst v))) (map fst v)).
    assert (Lv : length vec = (len_mGrid * len_pGrid)%nat)
      by (unfold vec; now rewrite !length_map).
    rewrite (reshape_ok vec _ _ Lv). cbn [bind].
    eexists. split; [reflexivity|]. cbn [vec_dstn ergodic_distr].
    destruct (chunks_shape len_pGrid vec len_mGrid Lv) as (Hc & Hn & Hf).
    split; [exact Lv|]. split; [exact Hn|]. split; [exact Hf|].
    split; [exact Hc|].
    intros i j Hi Hj. now apply nth_chunks.
Qed.

Lemma CalcErgodicDist_shape_witness :
  exists r,
    CalcErgodicDist (fun _ => Ok ((1, 0), [(2, 1); (1, 0); (2, 1); (1, 0)]))
      [[0; 0; 1; 0]; [0; 0; 0; 1]; [1; 0; 0; 0]; [0; 1; 0; 0]] 2 2 = Ok r /\
    length (vec_dstn r) = (2 * 2)%nat /\
    length (ergodic_distr r) = 2%nat /\
    Forall (fun row => length row = 2%nat) (ergodic_distr r) /\
    concat (ergodic_distr r) = vec_dstn r /\
    forall i j, (i < 2)%nat -> (j < 2)%nat ->
      nth j (nth i (ergodic_distr r) []) NonFinite
      = nth (i * 2 + j) (vec_dstn r) NonFinite.
Proof.
  apply (proj2 (CalcErgodicDist_shape
                  (fun _ => Ok ((1, 0), [(2, 1); (1, 0); (2, 1); (1, 0)]))
                  [[0; 0; 1; 0]; [0; 0; 0; 1]; [1; 0; 0; 0]; [0; 1; 0; 0]] 2 2
                  (1, 0) [(2, 1); (1, 0); (2, 1); (1, 0)] eq_refl)).
  reflexivity.
Defined.

Lemma sum_map_mult (c : Q) (a : list Q) :
  np.sum (map (Qmult c) a) == c * np.sum a.
Proof.
  induction a as [|x a IH]; simpl; [ring | rewrite IH; ring].
Qed.

(** X16.  The result does not depend on the scale or the sign of the
    eigenvector: when the real part of the vector that the solver returns
    does not sum to zero, multiplying that vector by a non-zero real number
    leaves [vec_dstn] unchanged, entry by entry; both results are finite. *)
Theorem CalcErgodicDist_scale_invariant
    (eigs eigs' : list (list Q) -> result (complex * list complex))
    (T : list (list Q)) (len_mGrid len_pGrid : nat)
    (lambda : complex) (v : list complex) (c : Q) :
  ~ c == 0 ->
  ~ np.sum (re v) == 0 ->
  length v = (len_mGrid * len_pGrid)%nat ->
  eigs T = Ok (lambda, v) ->
  eigs' T = Ok (lambda, map (fun z => (c * fst z, c * snd z)) v) ->
  exists r r' pi pi',
    CalcErgodicDist eigs T len_mGrid len_pGrid = Ok r /\
    CalcErgodicDist eigs' T len_mGrid len_pGrid = Ok r' /\
    vec_dstn r = map Finite pi /\
    vec_dstn r' = map Finite pi' /\
    vec_eq pi pi'.
Proof.
  intros Hc Hnz Hl He He'.
  destruct (CalcErgodicDist_returns eigs T _ _ lambda v He Hl) as (r & Er & Vr).
  assert (Hl' : length (map (fun z : complex => (c * fst z, c * snd z)) v)
                = (len_mGrid * len_pGrid)%nat)
    by (transitivity (length v); [apply length_map | exact Hl]).
  destruct (CalcErgodicDist_returns eigs' T _ _ lambda _ He' Hl')
    as (r' & Er' & Vr').
  assert (Ere : re (map (fun z => (c * fst z, c * snd z)) v) = map (Qmult c) (re v)).
  { unfold re. rewrite !map_map. reflexivity. }
  rewrite Ere in Vr'.
  assert (Hs : np.sum (map (Qmult c) (re v)) == c * np.sum (re v))
    by apply sum_map_mult.
  assert (Hnz' : ~ np.sum (map (Qmult c) (re v)) == 0).
  { rewrite Hs. intros C. apply Qmult_integral in C. tauto. }
  exists r, r', (map (fun x => x / np.sum (re v)) (re v)),
    (map (fun x => x / np.sum (map (Qmult c) (re v))) (map (Qmult c) (re v))).
  split; [exact Er|]. split; [exact Er'|]. split; [|split; [|split]].
  - rewrite Vr, map_map. apply map_ext. intros x. now apply np_divide_finite.
  - rewrite Vr', !map_map. apply map_ext. intros x. now apply np_divide_finite.
  - now rewrite !length_map.
  - intros k. rewrite !nth_normalised.
    destruct (Nat.lt_ge_cases k (length (re v))) as [Hlt|Hge].
    + rewrite (nth_map_Q (Qmult c)) by exact Hlt. rewrite Hs.
      field. split; assumption.
    + rewrite !nth_overflow by (try rewrite length_map; exact Hge).
      unfold Qdiv. ring.
Qed.

Lemma CalcErgodicDist_scale_invariant_witness :
  exists r r' pi pi',
    CalcErgodicDist (fun _ => Ok ((1, 0), [(2, 1); (1, 0); (2, 1); (1, 0)]))
      [[0; 0; 1; 0]; [0; 0; 0; 1]; [1; 0; 0; 0]; [0; 1; 0; 0]] 2 2 = Ok r /\
    CalcErgodicDist
      (fun _ => Ok ((1, 0), map (fun z => (- (3) * fst z, - (3) * snd z))
                                [(2, 1); (1, 0); (2, 1); (1, 0)]))
      [[0; 0; 1; 0]; [0; 0; 0; 1]; [1; 0; 0; 0]; [0; 1; 0; 0]] 2 2 = Ok r' /\
    vec_dstn r = map Finite pi /\
    vec_dstn r' = map Finite pi' /\
    vec_eq pi pi'.
Proof.
  apply (CalcErgodicDist_scale_invariant
           (fun _ => Ok ((1, 0), [(2, 1); (1, 0); (2, 1); (1, 0)]))
           (fun _ => Ok ((1, 0), map (fun z => (- (3) * fst z, - (3) * snd z))
                                     [(2, 1); (1, 0); (2, 1); (1, 0)]))
           [[0; 0; 1; 0]; [0; 0; 0; 1]; [1; 0; 0; 0]; [0; 1; 0; 0]] 2 2
           (1, 0) [(2, 1); (1, 0); (2, 1); (1, 0)] (- (3))).
  - discriminate.
  - discriminate.
  - reflexivity.
  - reflexivity.
  - reflexivity.
Defined.

Lemma sum_nonneg (a : list Q) : Forall (fun x => 0 <= x) a -> 0 <= np.sum a.
Proof. induction 1 as [|x a Hx Ha IH]; simpl; lra. Qed.

Lemma sum_nonpos (a : list Q) : Forall (fun x => x <= 0) a -> np.sum a <= 0.
Proof. induction 1 as [|x a Hx Ha IH]; simpl; lra. Qed.

Lemma div_same_sign (x s : Q) :
  (0 <= x /\ 0 < s) \/ (x <= 0 /\ s < 0) -> 0 <= x / s.
Proof.
  intros [[Hx Hs]|[Hx Hs]].
  - apply Qle_shift_div_l; lra.
  - assert (E : x / s == (- x) / (- s)) by (field; lra).
    rewrite E. apply Qle_shift_div_l; lra.
Qed.

(** X17.  When the real parts of the eigenvector all have one sign and do
    not sum to zero, [vec_dstn] is a probability vector: finite,
    non-negative entries that sum to 1. *)
Theorem CalcErgodicDist_one_sign
    (eigs : list (list Q) -> result (complex * list complex))
    (T : list (list Q)) (len_mGrid len_pGrid : nat)
    (lambda : complex) (v : list complex) :
  eigs T = Ok (lambda, v) ->
  length v = (len_mGrid * len_pGrid)%nat ->
  Forall (fun x => 0 <= x) (re v) \/ Forall (fun x => x <= 0) (re v) ->
  ~ np.sum (re v) == 0 ->
  exists r pi,
    CalcErgodicDist eigs T len_mGrid len_pGrid = Ok r /\
    vec_dstn r = map Finite pi /\
    probability_vector (len_mGrid * len_pGrid) pi.
Proof.
  intros He Hl Hsign Hs.
  destruct (CalcErgodicDist_returns eigs T _ _ lambda v He Hl) as (r & Er & Vr).
  exists r, (map (fun x => x / np.sum (re v)) (re v)).
  split; [exact Er|]. split; [|split; [|split]].
  - rewrite Vr, map_map. apply map_ext. intros x. now apply np_divide_finite.
  - unfold re. rewrite !length_map. exact Hl.
  - apply Forall_forall. intros y Hy.
    apply in_map_iff in Hy as (x & <- & Hx).
    apply div_same_sign. destruct Hsign as [Hp|Hn].
    + left. pose proof (sum_nonneg _ Hp). rewrite Forall_forall in Hp.
      split; [now apply Hp | lra].
    + right. pose proof (sum_nonpos _ Hn). rewrite Forall_forall in Hn.
      split; [now apply Hn | lra].
  - rewrite sum_map_scale. field. exact Hs.
Qed.

Lemma CalcErgodicDist_one_sign_witness :
  exists r pi,
    CalcErgodicDist (fun _ => Ok ((1, 0), [(-2, 1); (-1, 0); (-2, 1); (-1, 0)]))
      [[0; 0; 1; 0]; [0; 0; 0; 1]; [1; 0; 0; 0]; [0; 1; 0; 0]] 2 2 = Ok r /\
    vec_dstn r = map Finite pi /\
    probability_vector (2 * 2) pi.
Proof.
  apply (CalcErgodicDist_one_sign
           (fun _ => Ok ((1, 0), [(-2, 1); (-1, 0); (-2, 1); (-1, 0)]))
           [[0; 0; 1; 0]; [0; 0; 0; 1]; [1; 0; 0; 0]; [0; 1; 0; 0]] 2 2
           (1, 0) [(-2, 1); (-1, 0); (-2, 1); (-1, 0)]).
  - reflexivity.
  - reflexivity.
  - right. repeat constructor; discriminate.
  - discriminate.
Defined.

(** ** The aggregates *)

Lemma rect_rows_ext (r c : nat) (A B : list (list Q)) :
  rect r c A -> rect r c B ->
  (forall j, (j < c)%nat -> np.get_col A j = np.get_col B j) ->
  A = B.
Proof.
  intros [LA FA] [LB FB] H.
  apply (nth_ext A B [] []); [congruence|].
  intros i Hi.
  assert (La : length (nth i A []) = c).
  { rewrite Forall_forall in FA. apply FA, nth_In, Hi. }
  assert (Lb : length (nth i B []) = c).
  { rewrite Forall_forall in FB. apply FB, nth_In. lia. }
  apply (nth_ext _ _ 0 0); [congruence|].
  intros j Hj. rewrite La in Hj.
  pose proof (f_equal (fun col => nth i col 0) (H j Hj)) as E. simpl in E.
  unfold np.get_col in E.
  rewrite (nth_indep _ 0 (nth j [] 0)) in E by (rewrite length_map; lia).
  rewrite (map_nth (fun row => nth j row 0) A [] i) in E.
  rewrite (nth_indep (map _ B) 0 (nth j [] 0)) in E by (rewrite length_map; lia).
  rewrite (map_nth (fun row => nth j row 0) B [] i) in E.
  exact E.
Qed.

Lemma outer_rect (p c : list Q) : rect (length c) (length p) (outer p c).
Proof.
  unfold outer. split; [apply length_map|].
  apply Forall_forall. intros row Hrow.
  apply in_map_iff in Hrow as (ci & <- & _). apply length_map.
Qed.

Lemma outer_col (p c : list Q) (j : nat) :
  (j < length p)%nat ->
  np.get_col (outer p c) j = map (Qmult (nth j p 0)) c.
Proof.
  intros Hj. unfold np.get_col, outer. rewrite map_map.
  apply map_ext. intros ci. now rewrite (nth_map_Q (fun pj => pj * ci)).
Qed.

(** The loop fills [gridc] and [grida] with the products [p[j]*c[i]] and
    [p[j]*asset[i]]. *)
Lemma aggregate_loop (p c asset : list Q) (n s : nat)
    (gc ga : list (list Q)) :
  rect (length c) (length p) gc -> rect (length asset) (length p) ga ->
  (s + n <= length p)%nat ->
  exists gc' ga',
    for_each (aggregate_body p c asset) (seq s n) (gc, ga) = Ok (gc', ga') /\
    rect (length c) (length p) gc' /\ rect (length asset) (length p) ga' /\
    (forall j, (s <= j < s + n)%nat ->
       np.get_col gc' j = map (Qmult (nth j p 0)) c /\
       np.get_col ga' j = map (Qmult (nth j p 0)) asset) /\
    (forall j, ~ (s <= j < s + n)%nat ->
       np.get_col gc' j = np.get_col gc j /\ np.get_col ga' j = np.get_col ga j).
Proof.
  revert s gc ga; induction n as [|n IH]; intros s gc ga Rc Ra Hn.
  - exists gc, ga. split; [reflexivity|]. split; [exact Rc|]. split; [exact Ra|].
    split; [intros j Hj; lia | intros j _; split; reflexivity].
  - destruct (set_col_spec _ _ gc s (map (Qmult (nth s p 0)) c) Rc
                ltac:(apply length_map) ltac:(lia)) as (gc1 & Ec & Rc1 & Gc & Oc).
    destruct (set_col_spec _ _ ga s (map (Qmult (nth s p 0)) asset) Ra
                ltac:(apply length_map) ltac:(lia)) as (ga1 & Ea & Ra1 & Ga & Oa).
    destruct (IH (S s) gc1 ga1 Rc1 Ra1 ltac:(lia))
      as (gc2 & ga2 & E2 & Rc2 & Ra2 & In2 & Out2).
    exists gc2, ga2. cbn [seq for_each].
    unfold aggregate_body at 1. unfold getQ.
    rewrite (py_get_nat 0 p s) by lia. cbn [bind fst snd].
    rewrite Ec. cbn [bind]. rewrite Ea. cbn [bind].
    split; [exact E2|]. split; [exact Rc2|]. split; [exact Ra2|]. split.
    + intros j Hj. destruct (Nat.eq_dec j s) as [->|Hne].
      * destruct (Out2 s ltac:(lia)) as [-> ->]. split; assumption.
      * apply In2. lia.
    + intros j Hj. destruct (Out2 j ltac:(lia)) as [-> ->].
      split; [apply Oc | apply Oa]; lia.
Qed.

Lemma aggregate_grids (p c asset : list Q) :
  for_each (aggregate_body p c asset) (range (length p))
    (np.zeros (length c) (length p), np.zeros (length asset) (length p))
  = Ok (outer p c, outer p asset).
Proof.
  destruct (aggregate_loop p c asset (length p) 0 _ _
              (rect_zeros _ _) (rect_zeros _ _) ltac:(lia))
    as (gc & ga & E & Rc & Ra & Hin & _).
  unfold range. rewrite E. f_equal. f_equal.
  - apply (rect_rows_ext _ _ _ _ Rc (outer_rect p c)).
    intros j Hj. rewrite outer_col by exact Hj. apply Hin. lia.
  - apply (rect_rows_ext _ _ _ _ Ra (outer_rect p asset)).
    intros j Hj. rewrite outer_col by exact Hj. apply Hin. lia.
Qed.

(** X18.  The aggregation cell returns exactly when the distribution has
    one entry per cell of [gridc] and of [grida]; then [AggC] and [AggA]
    are the inner products of the distribution with the products
    [p[j]*c[i]] and [p[j]*asset[i]], cell by cell in the order of the
    flattened grid.  A distribution of another length is a [ValueError]. *)
Theorem aggregate_spec (vecDstn : list npfloat) (p c asset : list Q) :
  (length vecDstn = (length c * length p)%nat ->
   length asset = length c ->
   aggregate vecDstn p c asset
   = Ok (mkAggregates (np_dotf (np.flatten (outer p c)) vecDstn)
                      (np_dotf (np.flatten (outer p asset)) vecDstn))) /\
  (length vecDstn <> (length c * length p)%nat ->
   aggregate vecDstn p c asset = Raise ValueError).
Proof.
  unfold aggregate. rewrite aggregate_grids. cbn [bind fst snd].
  unfold np_dot.
  rewrite (flatten_length _ _ _ (outer_rect p c)).
  rewrite (flatten_length _ _ _ (outer_rect p asset)).
  split.
  - intros Hl Ha. rewrite Ha, Hl, Nat.eqb_refl. reflexivity.
  - intros Hne.
    replace (length c * length p =? length vecDstn)%nat with false
      by (symmetry; apply Nat.eqb_neq; congruence).
    reflexivity.
Qed.

Lemma aggregate_spec_witness :
  aggregate [Finite (1 # 2); Finite (1 # 2)] [1; 2] [3] [4]
  = Ok (mkAggregates
          (np_dotf (np.flatten (outer [1; 2] [3])) [Finite (1 # 2); Finite (1 # 2)])
          (np_dotf (np.flatten (outer [1; 2] [4])) [Finite (1 # 2); Finite (1 # 2)])).
Proof.
  apply (proj1 (aggregate_spec [Finite (1 # 2); Finite (1 # 2)] [1; 2] [3] [4]));
    reflexivity.
Defined.

Lemma finite_part_map (q : list Q) : finite_part (map Finite q) = Some q.
Proof. induction q as [|x q IH]; simpl; [reflexivity | now rewrite IH]. Qed.

Lemma finite_part_none (v : list complex) :
  v <> [] -> finite_part (map (fun _ => NonFinite) v) = None.
Proof. destruct v; [congruence | reflexivity]. Qed.

Lemma CalcTransitionMatrix_attributes (mGrid pGrid : list Q) (cFunc : Q -> Q)
    (Rfree LivPrb : Q) (ShockProbs PermShocks TranShocks : list Q)
    (tr : transition) :
  CalcTransitionMatrix mGrid pGrid cFunc Rfree LivPrb ShockProbs PermShocks
                       TranShocks = Ok tr ->
  Cnow tr = map cFunc mGrid /\ aNext tr = map (fun m => m - cFunc m) mGrid.
Proof.
  unfold CalcTransitionMatrix.
  destruct (JumpToGrid mGrid pGrid TranShocks (np.ones_like TranShocks) ShockProbs);
    cbn [bind]; [|discriminate].
  match goal with
  | |- context [for_each ?f ?l ?s] => destruct (for_each f l s)
  end; cbn [bind]; [|discriminate].
  intros [= <-]. split; reflexivity.
Qed.

Lemma nth_outer (p cs : list Q) (i j : nat) :
  (i < length cs)%nat -> (j < length p)%nat ->
  nth (i * length p + j) (np.flatten (outer p cs)) 0 = nth j p 0 * nth i cs 0.
Proof.
  intros Hi Hj. rewrite (nth_flatten _ _ _ i j (outer_rect p cs) Hj).
  unfold cell, outer.
  rewrite (nth_indep _ [] ((fun ci => map (fun pj => pj * ci) p) 0))
    by (now rewrite length_map).
  rewrite (map_nth (fun ci => map (fun pj => pj * ci) p) cs 0 i).
  now rewrite (nth_map_Q (fun pj => pj * nth i cs 0)).
Qed.

(** X19.  Aggregate consumption plus aggregate assets is aggregate market
    resources: with [c] and [asset] the [Cnow] and [aNext] that
    [CalcTransitionMatrix] stored, [AggC + AggA] is the sum over the cells
    of [p[j] * m[i]] times the mass of the cell. *)
Theorem aggregate_budget (mGrid pGrid : list Q) (cFunc : Q -> Q)
    (Rfree LivPrb : Q) (ShockProbs PermShocks TranShocks : list Q)
    (tr : transition) (q : list Q) :
  CalcTransitionMatrix mGrid pGrid cFunc Rfree LivPrb ShockProbs PermShocks
                       TranShocks = Ok tr ->
  length q = (length mGrid * length pGrid)%nat ->
  exists x y,
    aggregate (map Finite q) pGrid (Cnow tr) (aNext tr)
    = Ok (mkAggregates (Finite x) (Finite y)) /\
    x + y == np.dot (np.zip_with Qmult (cell_p mGrid pGrid) (cell_m mGrid pGrid)) q.
Proof.
  intros E Hq.
  destruct (CalcTransitionMatrix_attributes _ _ _ _ _ _ _ _ _ E) as [-> ->].
  set (cs := map cFunc mGrid). set (as' := map (fun m => m - cFunc m) mGrid).
  assert (Lc : length cs = length mGrid) by apply length_map.
  assert (La : length as' = length mGrid) by apply length_map.
  exists (np.dot (np.flatten (outer pGrid cs)) q),
         (np.dot (np.flatten (outer pGrid as')) q).
  split.
  - rewrite (proj1 (aggregate_spec (map Finite q) pGrid cs as'))
      by (rewrite ?length_map; congruence).
    unfold np_dotf. now rewrite finite_part_map.
  - assert (L1 : length (np.flatten (outer pGrid cs)) = length q)
      by (rewrite (flatten_length _ _ _ (outer_rect pGrid cs)); congruence).
    assert (L2 : length (np.flatten (outer pGrid as')) = length q)
      by (rewrite (flatten_length _ _ _ (outer_rect pGrid as')); congruence).
    assert (L3 : length (np.zip_with Qmult (cell_p mGrid pGrid) (cell_m mGrid pGrid))
                 = length q).
    { rewrite zip_with_length; rewrite cell_p_length; [congruence|].
      now rewrite cell_m_length. }
    rewrite <- (sum_range_dot _ q L1), <- (sum_range_dot _ q L2),
      <- (sum_range_dot _ q L3).
    rewrite L1, L2, L3.
    rewrite <- (Qmult_1_l (np.sum (map _ (range (length q))))) at 1.
    rewrite <- (Qmult_1_l (np.sum (map (fun k => nth k (np.flatten (outer pGrid as')) 0 * _)
                                        (range (length q))))).
    rewrite <- sum_map_linear.
    apply sum_map_ext. intros k Hk. apply in_range in Hk. rewrite Hq in Hk.
    assert (Hnp : length pGrid <> O) by (intros Z; rewrite Z in Hk; lia).
    destruct (cell_number (length pGrid) k Hnp) as [Ek Hj].
    assert (Hi : (k / length pGrid < length mGrid)%nat)
      by (apply Nat.Div0.div_lt_upper_bound; lia).
    set (i := (k / length pGrid)%nat) in *. set (j := (k mod length pGrid)%nat) in *.
    rewrite nth_zip_with
      by (try ring; now rewrite cell_p_length, cell_m_length).
    rewrite Ek at 1 3 5 6.
    rewrite !nth_outer by (try assumption; congruence).
    rewrite nth_cell_p, nth_cell_m by assumption.
    unfold cs, as'. rewrite (nth_map_Q cFunc) by exact Hi.
    rewrite (nth_map_Q (fun m => m - cFunc m)) by exact Hi.
    ring.
Qed.

Lemma aggregate_budget_witness :
  exists tr x y,
    CalcTransitionMatrix [0; 5; 10] [1; 2] (fun m => m / 2) 1 (9 # 10)
                         [1 # 2; 1 # 2] [1; 1] [0; 1] = Ok tr /\
    aggregate (map Finite [1 # 6; 1 # 6; 1 # 6; 1 # 6; 1 # 6; 1 # 6]) [1; 2]
              (Cnow tr) (aNext tr)
    = Ok (mkAggregates (Finite x) (Finite y)) /\
    x + y == np.dot (np.zip_with Qmult (cell_p [0; 5; 10] [1; 2])
                                       (cell_m [0; 5; 10] [1; 2]))
                    [1 # 6; 1 # 6; 1 # 6; 1 # 6; 1 # 6; 1 # 6].
Proof.
  destruct (CalcTransitionMatrix_columns [0; 5; 10] [1; 2] (fun m => m / 2) 1
              (9 # 10) [1 # 2; 1 # 2] [1; 1] [0; 1]) as (tr & _ & E & _).
  - repeat split; simpl; lia.
  - reflexivity.
  - reflexivity.
  - destruct (aggregate_budget [0; 5; 10] [1; 2] (fun m => m / 2) 1 (9 # 10)
                [1 # 2; 1 # 2] [1; 1] [0; 1] tr
                [1 # 6; 1 # 6; 1 # 6; 1 # 6; 1 # 6; 1 # 6] E eq_refl)
      as (x & y & H).
    exists tr, x, y. split; [exact E | exact H].
Defined.

(** X20.  A zero-sum eigenvector goes through unnoticed: when the real
    parts of the (non-empty) eigenvector sum to zero, [CalcErgodicDist]
    returns, and the aggregation cell returns as well, with [AggC] and
    [AggA] both non-finite. *)
Theorem aggregate_of_zero_sum
    (eigs : list (list Q) -> result (complex * list complex))
    (T : list (list Q)) (lambda : complex) (v : list complex)
    (p c asset : list Q) :
  eigs T = Ok (lambda, v) ->
  v <> [] ->
  length v = (length c * length p)%nat ->
  length asset = length c ->
  np.sum (re v) == 0 ->
  exists r,
    CalcErgodicDist eigs T (length c) (length p) = Ok r /\
    aggregate (vec_dstn r) p c asset = Ok (mkAggregates NonFinite NonFinite).
Proof.
  intros He Hne Hl Ha Hz.
  destruct (CalcErgodicDist_returns eigs T _ _ lambda v He Hl) as (r & Er & Vr).
  exists r. split; [exact Er|].
  assert (Vz : vec_dstn r = map (fun _ => NonFinite) v).
  { rewrite Vr. unfold re. rewrite map_map. apply map_ext.
    intros z. now apply np_divide_zero. }
  rewrite (proj1 (aggregate_spec (vec_dstn r) p c asset))
    by (rewrite ?Vz, ?length_map; assumption).
  unfold np_dotf. rewrite Vz, finite_part_none by exact Hne. reflexivity.
Qed.

Lemma aggregate_of_zero_sum_witness :
  exists r,
    CalcErgodicDist (fun _ => Ok ((-1, 0), [(1, 0); (1, 0); (-1, 0); (-1, 0)]))
      [[0; 0; 1; 0]; [0; 0; 0; 1]; [1; 0; 0; 0]; [0; 1; 0; 0]]
      (length [0; 3 # 2]) (length [1; 2]) = Ok r /\
    aggregate (vec_dstn r) [1; 2] [0; 3 # 2] [1; 1 # 2]
    = Ok (mkAggregates NonFinite NonFinite).
Proof.
  apply (aggregate_of_zero_sum
           (fun _ => Ok ((-1, 0), [(1, 0); (1, 0); (-1, 0); (-1, 0)]))
           [[0; 0; 1; 0]; [0; 0; 0; 1]; [1; 0; 0; 0]; [0; 1; 0; 0]]
           (-1, 0) [(1, 0); (1, 0); (-1, 0); (-1, 0)] [1; 2] [0; 3 # 2] [1; 1 # 2]).
  - reflexivity.
  - discriminate.
  - reflexivity.
  - reflexivity.
  - reflexivity.
Defined.

Lemma dot_between (lo hi : Q) (a b : list Q) :
  length a = length b ->
  Forall (fun x => lo <= x <= hi) a -> Forall (fun x => 0 <= x) b ->
  lo * np.sum b <= np.dot a b <= hi * np.sum b.
Proof.
  unfold np.dot. intros Hl Ha. revert b Hl; induction Ha as [|x a Hx Ha IH];
    intros [|y b] Hl Hb; simpl in Hl; try discriminate; simpl.
  - lra.
  - inversion Hb as [|? ? Hy Hb']; subst.
    specialize (IH b ltac:(congruence) Hb'). nra.
Qed.

(** X21.  For a probability vector the aggregate is a weighted average:
    when every product [p[j]*c[i]] lies between [lo] and [hi], so does
    [AggC]. *)
Theorem aggregate_between (q p c asset : list Q) (lo hi : Q) :
  probability_vector (length c * length p) q ->
  length asset = length c ->
  (forall ci pj, In ci c -> In pj p -> lo <= pj * ci <= hi) ->
  exists x y,
    aggregate (map Finite q) p c asset = Ok (mkAggregates (Finite x) (Finite y)) /\
    lo <= x <= hi.
Proof.
  intros (Lq & Qnn & Qsum) Ha Hb.
  exists (np.dot (np.flatten (outer p c)) q), (np.dot (np.flatten (outer p asset)) q).
  split.
  - rewrite (proj1 (aggregate_spec (map Finite q) p c asset))
      by (rewrite ?length_map; assumption).
    unfold np_dotf. now rewrite finite_part_map.
  - assert (Hall : Forall (fun x => lo <= x <= hi) (np.flatten (outer p c))).
    { apply Forall_forall. intros x Hx. unfold np.flatten, outer in Hx.
      apply in_concat in Hx as (row & Hrow & Hx).
      apply in_map_iff in Hrow as (ci & <- & Hci).
      apply in_map_iff in Hx as (pj & <- & Hpj). now apply Hb. }
    pose proof (dot_between lo hi _ q
                  ltac:(rewrite (flatten_length _ _ _ (outer_rect p c)); congruence)
                  Hall Qnn) as H.
    rewrite Qsum in H. lra.
Qed.

Lemma aggregate_between_witness :
  exists x y,
    aggregate (map Finite [1 # 4; 1 # 4; 1 # 2; 0]) [1; 2] [3; 5] [4; 6]
    = Ok (mkAggregates (Finite x) (Finite y)) /\
    3 <= x <= 10.
Proof.
  apply (aggregate_between [1 # 4; 1 # 4; 1 # 2; 0] [1; 2] [3; 5] [4; 6] 3 10).
  - split; [reflexivity|]. split; [repeat constructor; discriminate | reflexivity].
  - reflexivity.
  - intros ci pj [<-|[<-|[]]] [<-|[<-|[]]]; split; discriminate.
Defined.

(** ** The default permanent-income grid *)

Lemma increasing_by_nth (l : list Q) :
  (forall i, (S i < length l)%nat -> nth i l 0 < nth (S i) l 0) ->
  increasing l = true.
Proof.
  induction l as [|x [|y t] IH]; intros H; try reflexivity.
  cbn [increasing]. apply andb_true_iff. split.
  - apply negb_true_iff, Qle_bool_false. apply (H O). simpl. lia.
  - apply IH. intros i Hi. apply (H (S i)). simpl in *. lia.
Qed.

Lemma mirrored_grid_length (g : list Q) :
  length (mirrored_grid g) = (2 * length g + 1)%nat.
Proof.
  unfold mirrored_grid. rewrite !length_app, length_map, length_rev. simpl. lia.
Qed.

Lemma nth_mirrored_low (g : list Q) (k : nat) :
  (k < length g)%nat ->
  nth k (mirrored_grid g) 0 = 1 / nth (length g - S k) g 0.
Proof.
  intros Hk. unfold mirrored_grid.
  rewrite app_nth1 by (rewrite length_app, length_map, length_rev; simpl; lia).
  rewrite app_nth1 by (rewrite length_map, length_rev; lia).
  rewrite (nth_indep _ 0 ((fun x => 1 / x) 0)) by (rewrite length_map, length_rev; lia).
  rewrite (map_nth (fun x => 1 / x)). now rewrite rev_nth.
Qed.

Lemma nth_mirrored_mid (g : list Q) : nth (length g) (mirrored_grid g) 0 = 1.
Proof.
  unfold mirrored_grid.
  rewrite app_nth1 by (rewrite length_app, length_map, length_rev; simpl; lia).
  rewrite app_nth2 by (rewrite length_map, length_rev; lia).
  rewrite length_map, length_rev, Nat.sub_diag. reflexivity.
Qed.

Lemma nth_mirrored_high (g : list Q) (k : nat) :
  nth (length g + S k) (mirrored_grid g) 0 = nth k g 0.
Proof.
  unfold mirrored_grid.
  rewrite app_nth2 by (rewrite length_app, length_map, length_rev; simpl; lia).
  rewrite length_app, length_map, length_rev. simpl. f_equal. lia.
Qed.

(** X22.  The default grid has [2n+1] points for a one-sided grid of [n]
    points, its middle point is 1, and it is symmetric under reciprocals:
    the [k]-th point from the left times the [k]-th point from the right
    is 1. *)
Theorem mirrored_grid_symmetric (one_sided_grid : list Q) :
  Forall (fun x => ~ x == 0) one_sided_grid ->
  length (mirrored_grid one_sided_grid) = (2 * length one_sided_grid + 1)%nat /\
  nth (length one_sided_grid) (mirrored_grid one_sided_grid) 0 = 1 /\
  forall k, (k <= 2 * length one_sided_grid)%nat ->
    nth k (mirrored_grid one_sided_grid) 0
    * nth (2 * length one_sided_grid - k) (mirrored_grid one_sided_grid) 0 == 1.
Proof.
  intros Hnz. set (n := length one_sided_grid).
  split; [apply mirrored_grid_length|]. split; [apply nth_mirrored_mid|].
  assert (Hx : forall i, (i < n)%nat -> ~ nth i one_sided_grid 0 == 0).
  { intros i Hi. rewrite Forall_forall in Hnz. apply Hnz, nth_In, Hi. }
  intros k Hk.
  destruct (Nat.lt_trichotomy k n) as [Hlt|[->|Hgt]].
  - rewrite nth_mirrored_low by exact Hlt. fold n.
    replace (2 * n - k)%nat with (n + S (n - S k))%nat by lia.
    unfold n at 2. rewrite nth_mirrored_high.
    field. apply Hx. lia.
  - replace (2 * n - n)%nat with n by lia.
    unfold n. rewrite nth_mirrored_mid. ring.
  - replace k with (n + S (k - S n))%nat at 1 by lia.
    unfold n at 1. rewrite nth_mirrored_high.
    rewrite nth_mirrored_low by (fold n; lia). fold n.
    replace (n - S (2 * n - k))%nat with (k - S n)%nat by lia.
    field. apply Hx. lia.
Qed.

Lemma mirrored_grid_symmetric_witness :
  length (mirrored_grid [2; 4]) = (2 * 2 + 1)%nat /\
  nth 2 (mirrored_grid [2; 4]) 0 = 1 /\
  forall k, (k <= 2 * 2)%nat ->
    nth k (mirrored_grid [2; 4]) 0 * nth (2 * 2 - k) (mirrored_grid [2; 4]) 0 == 1.
Proof.
  apply (mirrored_grid_symmetric [2; 4]).
  repeat constructor; discriminate.
Defined.

Lemma mirrored_grid_increasing (g : list Q) :
  increasing g = true -> Forall (fun x => 1 < x) g ->
  increasing (mirrored_grid g) = true.
Proof.
  intros Hinc Hbig. set (n := length g).
  assert (Hx : forall i, (i < n)%nat -> 1 < nth i g 0).
  { intros i Hi. rewrite Forall_forall in Hbig. apply Hbig, nth_In, Hi. }
  apply increasing_by_nth. intros i Hi.
  rewrite mirrored_grid_length in Hi. fold n in Hi.
  destruct (Nat.lt_trichotomy (S i) n) as [Hlt|[Heq|Hgt]].
  - rewrite !nth_mirrored_low by (fold n; lia). fold n.
    pose proof (Hx (n - S (S i))%nat ltac:(lia)).
    pose proof (Hx (n - S i)%nat ltac:(lia)).
    pose proof (increasing_nth_lt g (n - S (S i)) (n - S i) Hinc
                  ltac:(lia) ltac:(fold n; lia)) as Hlt'.
    apply Qlt_shift_div_l; [lra|].
    assert (E : 1 / nth (n - S i) g 0 * nth (n - S (S i)) g 0
                == nth (n - S (S i)) g 0 / nth (n - S i) g 0) by (field; lra).
    rewrite E. apply Qlt_shift_div_r; lra.
  - assert (E1 : nth (S i) (mirrored_grid g) 0 = 1)
      by (rewrite Heq; apply nth_mirrored_mid).
    rewrite E1, nth_mirrored_low by (fold n; lia). fold n.
    pose proof (Hx (n - S i)%nat ltac:(lia)).
    apply Qlt_shift_div_r; lra.
  - destruct (Nat.eq_dec i n) as [Heq|Hne].
    + assert (E1 : nth i (mirrored_grid g) 0 = 1)
        by (rewrite Heq; apply nth_mirrored_mid).
      assert (E2 : nth (S i) (mirrored_grid g) 0 = nth 0 g 0)
        by (replace (S i) with (length g + 1)%nat by (fold n; lia);
            apply nth_mirrored_high).
      rewrite E1, E2. apply Hx. lia.
    + assert (E1 : nth i (mirrored_grid g) 0 = nth (i - S n) g 0)
        by (replace i with (length g + S (i - S n))%nat at 1 by (fold n; lia);
            apply nth_mirrored_high).
      assert (E2 : nth (S i) (mirrored_grid g) 0 = nth (i - n) g 0)
        by (replace (S i) with (length g + S (i - n))%nat by (fold n; lia);
            apply nth_mirrored_high).
      rewrite E1, E2.
      apply increasing_nth_lt; [exact Hinc | lia | fold n; lia].
Qed.

(** X23.  With [cycles == 0] and no arguments, [DefineDistributionGrid]
    stores [self.aXtraGrid] and the default grid.  When [aXtraGrid] is
    strictly increasing with at least two points and the one-sided grid is
    non-empty, strictly increasing and above 1, the two stored grids are
    strictly increasing with at least two points each: what [JumpToGrid]
    and [CalcTransitionMatrix] need. *)
Theorem DefineDistributionGrid_default_is_StateGrid
    (self : Grid.agent) (one_sided_grid : list Q) :
  Grid.cycles self = 0%Z ->
  increasing (Grid.aXtraGrid self) = true ->
  (2 <= length (Grid.aXtraGrid self))%nat ->
  one_sided_grid <> [] ->
  increasing one_sided_grid = true ->
  Forall (fun x => 1 < x) one_sided_grid ->
  exists self',
    Grid.DefineDistributionGrid (fun _ => Ok (mirrored_grid one_sided_grid))
      self Grid.PyNone Grid.PyNone = (self', Ok tt) /\
    Grid.Dist_mGrid self' = Some (Grid.NdArray (Grid.aXtraGrid self)) /\
    Grid.Dist_pGrid self' = Some (Grid.NdArray (mirrored_grid one_sided_grid)) /\
    StateGrid (Grid.aXtraGrid self) (mirrored_grid one_sided_grid).
Proof.
  intros Hc Hinc Hlen Hne Hg Hbig.
  unfold Grid.DefineDistributionGrid. rewrite Hc. cbn.
  eexists. split; [reflexivity|]. split; [reflexivity|]. split; [reflexivity|].
  split; [exact Hinc|]. split; [now apply mirrored_grid_increasing|].
  split; [exact Hlen|].
  rewrite mirrored_grid_length. destruct one_sided_grid; [congruence | simpl; lia].
Qed.

Lemma DefineDistributionGrid_default_is_StateGrid_witness :
  exists self',
    Grid.DefineDistributionGrid (fun _ => Ok (mirrored_grid [2; 4]))
      (Grid.mkAgent 0 [0; 1; 2] None None []) Grid.PyNone Grid.PyNone
    = (self', Ok tt) /\
    Grid.Dist_mGrid self' = Some (Grid.NdArray [0; 1; 2]) /\
    Grid.Dist_pGrid self' = Some (Grid.NdArray (mirrored_grid [2; 4])) /\
    StateGrid [0; 1; 2] (mirrored_grid [2; 4]).
Proof.
  apply (DefineDistributionGrid_default_is_StateGrid
           (Grid.mkAgent 0 [0; 1; 2] None None []) [2; 4]).
  - reflexivity.
  - reflexivity.
  - simpl; lia.
  - discriminate.
  - reflexivity.
  - repeat constructor.
Defined.

(** ** [JumpToGrid]: means of samples outside the grid *)

Lemma weights_clamped (grid : list Q) (v : Q) :
  grid <> [] ->
  lw_of grid v * nth (lo_of grid v) grid 0
  + uw_of grid v * nth (up_of grid v) grid 0 == clamp grid v.
Proof.
  intros Hne. unfold uw_of, lw_of, lo_of, up_of, clamp.
  destruct (Qle_bool (last grid 0) v) eqn:El.
  - rewrite nth_last. ring.
  - destruct (Qle_bool v (hd 0 grid)) eqn:Eh.
    + rewrite hd_nth. ring.
    + destruct (interior_bracket grid v Hne El Eh) as (_ & H1 & H2).
      cbv zeta in *. field. lra.
Qed.

Lemma sum_range_dot_map (f : Q -> Q) (a b : list Q) :
  length a = length b ->
  np.sum (map (fun k => nth k a 0 * f (nth k b 0)) (range (length a)))
  == np.dot a (map f b).
Proof.
  intros Hl. rewrite <- (sum_range_dot a (map f b)) by (now rewrite length_map).
  apply sum_map_ext. intros k Hk. apply in_range in Hk.
  rewrite (nth_map_Q f) by lia. reflexivity.
Qed.

(** X24.  For arbitrary sample values the first moments of the returned
    distribution are those of the samples after each value has been moved
    onto the nearest bound of its grid: outside the grid the mean is not
    kept but pulled to the bound. *)
Theorem JumpToGrid_clamped_moments (mGrid pGrid m_vals perm_vals probs : list Q) :
  StateGrid mGrid pGrid ->
  length perm_vals = length m_vals ->
  length probs = length m_vals ->
  exists out,
    JumpToGrid mGrid pGrid m_vals perm_vals probs = Ok out /\
    np.dot out (cell_m mGrid pGrid) == np.dot probs (map (clamp mGrid) m_vals) /\
    np.dot out (cell_p mGrid pGrid) == np.dot probs (map (clamp pGrid) perm_vals).
Proof.
  intros HG Hp Hpr.
  destruct (StateGrid_nonempty _ _ HG) as (Nm & Np & Sm & Sp).
  destruct (JumpToGrid_spec mGrid pGrid Nm Np Sm Sp m_vals perm_vals probs Hp Hpr)
    as (g & E & R & S).
  exists (np.flatten g). split; [exact E|]. split.
  - rewrite moment_m by (apply R). rewrite S.
    rewrite <- (sum_range_dot_map (clamp mGrid) probs m_vals Hpr), Hpr.
    apply sum_map_ext. intros k _. unfold contrib. cbv zeta.
    set (m := nth k m_vals 0). set (p := nth k perm_vals 0).
    transitivity (nth k probs 0 * (lw_of pGrid p + uw_of pGrid p) *
                  (lw_of mGrid m * nth (lo_of mGrid m) mGrid 0
                   + uw_of mGrid m * nth (up_of mGrid m) mGrid 0)).
    + ring.
    + rewrite weights_sum, weights_clamped by assumption. ring.
  - rewrite moment_p by (apply R). rewrite S.
    rewrite <- (sum_range_dot_map (clamp pGrid) probs perm_vals) by congruence.
    rewrite Hpr. apply sum_map_ext. intros k _. unfold contrib. cbv zeta.
    set (m := nth k m_vals 0). set (p := nth k perm_vals 0).
    transitivity (nth k probs 0 * (lw_of mGrid m + uw_of mGrid m) *
                  (lw_of pGrid p * nth (lo_of pGrid p) pGrid 0
                   + uw_of pGrid p * nth (up_of pGrid p) pGrid 0)).
    + ring.
    + rewrite weights_sum, weights_clamped by assumption. ring.
Qed.

Lemma JumpToGrid_clamped_moments_witness :
  exists out,
    JumpToGrid [0; 1; 2] [1; 2] [1 # 2; 5 # 2; -1] [1; 3 # 2; 4]
               [1 # 4; 1 # 2; 1 # 4] = Ok out /\
    np.dot out (cell_m [0; 1; 2] [1; 2])
    == np.dot [1 # 4; 1 # 2; 1 # 4] (map (clamp [0; 1; 2]) [1 # 2; 5 # 2; -1]) /\
    np.dot out (cell_p [0; 1; 2] [1; 2])
    == np.dot [1 # 4; 1 # 2; 1 # 4] (map (clamp [1; 2]) [1; 3 # 2; 4]).
Proof.
  apply JumpToGrid_clamped_moments.
  - repeat split; simpl; lia.
  - reflexivity.
  - reflexivity.
Defined.
